(** * advanced-vector: RawMemory and Vector (vector.h)

    A shallow embedding of the two class templates of vector.h and the
    properties of the container they implement.

    Modelling conventions.
    - A buffer of raw memory is a list of slots; a slot is [None] while it is
      uninitialised storage and [Some x] while it holds a live object of
      value [x].  A RawMemory owns its buffer, so the buffer is stored in the
      record (the class is move-only: no two owners exist).
    - A pointer [T*] into a buffer is an offset of type [Z] from the start of
      that buffer ([end() - 1] of an empty vector is the offset [-1]).
      Forming a pointer is harmless; using one outside the buffer, or on a
      slot without a live object, is undefined behaviour.
    - [size_t] values are natural numbers.  A buffer is as long as its
      capacity, so sizes stay far below the point where [size_ * 2] could
      wrap, and [operator new] is taken to succeed.  Subtractions, which
      can wrap below zero on small inputs ([size_ - 1] of an empty vector in
      Erase), are written out with their wrap-around.
    - Allocate asks [operator new] for [n * sizeof(T)] bytes, a product
      computed in [size_t].  The block has [n] slots when that product is
      exact ([allocatable n]); this is so for the sizes the class derives
      from a vector that exists (its size, or twice its size), and it is a
      hypothesis of the properties that say what Reserve(n), Resize(n) and
      Vector(n) do with a number of slots that the caller chooses.  (That
      the size stays within the capacity needs no such hypothesis: the two
      counters are set whatever block Allocate returns.)
    - An operation ends in one of four ways: it returns, it lets a C++
      exception escape, an [assert] stops the program (only when NDEBUG is
      not defined), or its behaviour is undefined.  The first two carry the
      state they leave behind and the trace of element operations and
      allocations performed.
    - The element type [T] is a parameter: which of its constructors and
      assignments throw, what a moved-from object looks like, and the two
      type traits read by UninitializedMoveOrCopy. *)

From Stdlib Require Import ZArith Lia.
From stdpp Require Import base numbers list gmap.

Set Default Proof Using "Type".

(** ** The element type *)

Class Element (T E Args : Type) : Type := {
  (** [T(args...)]: the value built, or the exception thrown *)
  construct : Args -> E + T;
  (** [T()]: value initialisation *)
  value_init : E + T;
  (** [T(const T&)] throws [e] on that source, or yields an equal value *)
  copy_throws : T -> option E;
  (** [T(T&&)] throws [e] on that source, or yields the source's value *)
  move_throws : T -> option E;
  (** what a moved-from object holds *)
  moved_from : T -> T;
  (** [dst = src] (copy), arguments in the order dst, src *)
  copy_assign_throws : T -> T -> option E;
  (** [dst = std::move(src)], arguments in the order dst, src *)
  move_assign_throws : T -> T -> option E;
  is_nothrow_move_constructible : bool;
  is_copy_constructible : bool;
  (** [sizeof(T)], in bytes *)
  sizeof : positive;
}.

(** What a new element is constructed from: an argument pack, an lvalue
    (copy) or an rvalue (move) of type [T]. *)
Inductive init (T Args : Type) : Type :=
| Emplaced (a : Args)
| Copied (x : T)
| Moved (x : T).
Arguments Emplaced {T Args} a.
Arguments Copied {T Args} x.
Arguments Moved {T Args} x.

(** ** Traces and outcomes *)

Inductive event (T : Type) : Type :=
| EvAllocate (n : nat)
| EvDeallocate (n : nat)
| EvConstruct (x : T)
| EvValueInit (x : T)
| EvCopyCtor (x : T)
| EvMoveCtor (x : T)
| EvCopyAssign (x : T)
| EvMoveAssign (x : T)
| EvDestroy (x : T).
Arguments EvAllocate {T} n.
Arguments EvDeallocate {T} n.
Arguments EvConstruct {T} x.
Arguments EvValueInit {T} x.
Arguments EvCopyCtor {T} x.
Arguments EvMoveCtor {T} x.
Arguments EvCopyAssign {T} x.
Arguments EvMoveAssign {T} x.
Arguments EvDestroy {T} x.

Inductive outcome (T E S A : Type) : Type :=
| Normal (tr : list (event T)) (s : S) (a : A)
| Raised (tr : list (event T)) (s : S) (e : E)
| AssertFailed
| Undefined.
Arguments Normal {T E S A} tr s a.
Arguments Raised {T E S A} tr s e.
Arguments AssertFailed {T E S A}.
Arguments Undefined {T E S A}.

Section Outcome.
Context {T E : Type}.

(** the events [tr] happened before the computation [m] *)
Definition after {S A} (tr : list (event T)) (m : outcome T E S A) : outcome T E S A :=
  match m with
  | Normal tr' s a => Normal (tr ++ tr') s a
  | Raised tr' s e => Raised (tr ++ tr') s e
  | AssertFailed => AssertFailed
  | Undefined => Undefined
  end.

Definition bind {S A B} (m : outcome T E S A) (k : S -> A -> outcome T E S B) : outcome T E S B :=
  match m with
  | Normal tr s a => after tr (k s a)
  | Raised tr s e => Raised tr s e
  | AssertFailed => AssertFailed
  | Undefined => Undefined
  end.

(** sequencing where the first computation runs on a state of its own;
    [f] says what an exception escaping from it leaves behind *)
Definition bind_in {S S' A B} (f : S -> S') (m : outcome T E S A) (k : S -> A -> outcome T E S' B)
  : outcome T E S' B :=
  match m with
  | Normal tr s a => after tr (k s a)
  | Raised tr s e => Raised tr (f s) e
  | AssertFailed => AssertFailed
  | Undefined => Undefined
  end.

(** view the state of a sub-computation inside a larger state *)
Definition in_state {S S' A} (f : S -> S') (m : outcome T E S A) : outcome T E S' A :=
  match m with
  | Normal tr s a => Normal tr (f s) a
  | Raised tr s e => Raised tr (f s) e
  | AssertFailed => AssertFailed
  | Undefined => Undefined
  end.

(** [try { m } catch (...) { h }]: the handler sees the state at the throw
    and the exception, which it may rethrow. *)
Definition try_catch {S A} (m : outcome T E S A) (h : S -> E -> outcome T E S A) : outcome T E S A :=
  match m with
  | Raised tr s e => after tr (h s e)
  | _ => m
  end.

(** the computation returns, leaving the state [s] and yielding [a] *)
Definition returns {S A} (m : outcome T E S A) (s : S) (a : A) : Prop :=
  ∃ tr, m = Normal tr s a.

Definition state_of {S A} (m : outcome T E S A) : option S :=
  match m with
  | Normal _ s _ | Raised _ s _ => Some s
  | _ => None
  end.

End Outcome.

Notation "'do' ( s , a ) <- m ; k" := (bind m (fun s a => k))
  (at level 10, s name, a name, m at level 100, k at level 200).

(** ** Two element types

    [int]: nothing throws and a moved-from [int] keeps its value. *)
Module IntElement.

#[export] Instance int_element : Element Z Empty_set Z := {|
  construct a := inr a;
  value_init := inr 0%Z;
  copy_throws _ := None;
  move_throws _ := None;
  moved_from x := x;
  copy_assign_throws _ _ := None;
  move_assign_throws _ _ := None;
  is_nothrow_move_constructible := true;
  is_copy_constructible := true;
  sizeof := 4;
|}.

End IntElement.

(** A type whose constructor throws 1 on a negative argument and whose copy
    constructor throws 2 on the value 13; its move constructor is not
    noexcept, so transfers copy; a moved-from object holds 0. *)
Module Fragile.

#[export] Instance fragile_element : Element Z nat Z := {|
  construct a := if (a <? 0)%Z then inl 1 else inr a;
  value_init := inr 0%Z;
  copy_throws x := if (x =? 13)%Z then Some 2 else None;
  move_throws _ := None;
  moved_from _ := 0%Z;
  copy_assign_throws _ _ := None;
  move_assign_throws _ _ := None;
  is_nothrow_move_constructible := false;
  is_copy_constructible := true;
  sizeof := 4;
|}.

End Fragile.

(** A type whose default constructor throws 3; everything else is as for
    [int]. *)
Module NoDefault.

#[export] Instance no_default_element : Element Z nat Z := {|
  construct a := inr a;
  value_init := inl 3;
  copy_throws _ := None;
  move_throws _ := None;
  moved_from x := x;
  copy_assign_throws _ _ := None;
  move_assign_throws _ _ := None;
  is_nothrow_move_constructible := true;
  is_copy_constructible := true;
  sizeof := 4;
|}.

End NoDefault.

(** ** Raw memory and the element-wise primitives *)

Section Model.
Context {T E Args : Type} `{!Element T E Args}.
(** whether the translation unit is compiled with NDEBUG (assert disabled) *)
Variable NDEBUG : bool.

Abbreviation slot := (option T).
Abbreviation buffer := (list (option T)).
Abbreviation result := (outcome T E).

(** reduction of an integer to the range of a 64-bit [size_t] *)
Definition wrap_size_t (z : Z) : nat := Z.to_nat (z mod 2 ^ 64).

(** [assert(c)] *)
Definition assert {S A} (c : bool) (k : result S A) : result S A :=
  if NDEBUG then k else if c then k else AssertFailed.

Definition valid (b : buffer) (p : Z) : bool :=
  bool_decide (0 ≤ p < Z.of_nat (length b))%Z.

(** the live object at [p], if there is one *)
Definition read (b : buffer) (p : Z) : option T :=
  if valid b p then mjoin (b !! Z.to_nat p) else None.

Definition write (b : buffer) (p : Z) (s : slot) : buffer :=
  <[Z.to_nat p := s]> b.

Definition construct_from (i : init T Args) : E + T :=
  match i with
  | Emplaced a => construct a
  | Copied x => match copy_throws x with Some e => inl e | None => inr x end
  | Moved x => match move_throws x with Some e => inl e | None => inr x end
  end.

Definition init_event (i : init T Args) (x : T) : event T :=
  match i with
  | Emplaced _ => EvConstruct x
  | Copied _ => EvCopyCtor x
  | Moved _ => EvMoveCtor x
  end.

(** [new (p) T(...)] on raw storage of [b] *)
Definition placement_new (b : buffer) (p : Z) (i : init T Args) : result buffer unit :=
  if valid b p then
    match construct_from i with
    | inl e => Raised [] b e
    | inr x => Normal [init_event i x] (write b p (Some x)) tt
    end
  else Undefined.

(** [new (p) T()] *)
Definition value_construct_at (b : buffer) (p : Z) : result buffer unit :=
  if valid b p then
    match value_init with
    | inl e => Raised [] b e
    | inr x => Normal [EvValueInit x] (write b p (Some x)) tt
    end
  else Undefined.

(** [buf->~T()] *)
Definition Destroy (b : buffer) (buf : Z) : result buffer unit :=
  match read b buf with
  | Some x => Normal [EvDestroy x] (write b buf None) tt
  | None => Undefined
  end.

(** [for (size_t i = 0; i != n; ++i) Destroy(buf + i);] *)
Fixpoint DestroyN (b : buffer) (buf : Z) (n : nat) : result buffer unit :=
  match n with
  | 0 => Normal [] b tt
  | S n' => do (b', _) <- Destroy b buf; DestroyN b' (buf + 1) n'
  end.

(** [std::destroy_n(first, n)] *)
Fixpoint destroy_n (b : buffer) (first : Z) (n : nat) : result buffer unit :=
  match n with
  | 0 => Normal [] b tt
  | S n' => do (b', _) <- Destroy b first; destroy_n b' (first + 1) n'
  end.

(** [std::destroy(first, last)], as used by the cleanup of the
    uninitialized_* algorithms; nothing to do on an empty range *)
Definition destroy_range (b : buffer) (first last : Z) : result buffer unit :=
  destroy_n b first (Z.to_nat (last - first)).

(** copy assignment of the object at [from] in [src] onto the object at
    [to] in [dst] *)
Definition copy_assign_at (src : buffer) (from : Z) (dst : buffer) (to : Z) : result buffer unit :=
  match read src from, read dst to with
  | Some x, Some y =>
      match copy_assign_throws y x with
      | Some e => Raised [] dst e
      | None => Normal [EvCopyAssign x] (write dst to (Some x)) tt
      end
  | _, _ => Undefined
  end.

(** move assignment of the object at [from] onto the object at [to],
    both inside one buffer *)
Definition move_assign_at (b : buffer) (to from : Z) : result buffer unit :=
  match read b from, read b to with
  | Some x, Some y =>
      match move_assign_throws y x with
      | Some e => Raised [] b e
      | None =>
          Normal [EvMoveAssign x] (write (write b from (Some (moved_from x))) to (Some x)) tt
      end
  | _, _ => Undefined
  end.

(** move assignment onto the object at [to] of a local object [tmp] of value [x];
    the result carries what is left in [tmp] *)
Definition move_assign_from (b : buffer) (to : Z) (x : T) : result buffer T :=
  match read b to with
  | Some y =>
      match move_assign_throws y x with
      | Some e => Raised [] b e
      | None => Normal [EvMoveAssign x] (write b to (Some x)) (moved_from x)
      end
  | None => Undefined
  end.

(** ** The standard algorithms the class calls *)

(** The construction loop of [std::uninitialized_copy_n]; the state is the
    destination and the position reached in it. *)
Fixpoint uninitialized_copy_loop (src : buffer) (first : Z) (n : nat) (dst : buffer) (cur : Z)
  : result (buffer * Z) unit :=
  match n with
  | 0 => Normal [] (dst, cur) tt
  | S n' =>
      match read src first with
      | None => Undefined
      | Some x =>
          if valid dst cur then
            match copy_throws x with
            | Some e => Raised [] (dst, cur) e
            | None =>
                after [EvCopyCtor x]
                  (uninitialized_copy_loop src (first + 1) n' (write dst cur (Some x)) (cur + 1))
            end
          else Undefined
      end
  end.

(** [std::uninitialized_copy_n(first, n, d_first)]: if a copy throws, the
    objects already constructed are destroyed and the exception goes on. *)
Definition uninitialized_copy_n (src : buffer) (first : Z) (n : nat) (dst : buffer) (d_first : Z)
  : result buffer unit :=
  match uninitialized_copy_loop src first n dst d_first with
  | Normal tr (dst', _) _ => Normal tr dst' tt
  | Raised tr (dst', cur) e =>
      after tr (bind (destroy_range dst' d_first cur) (fun dst'' _ => Raised [] dst'' e))
  | AssertFailed => AssertFailed
  | Undefined => Undefined
  end.

(** The loop of [std::uninitialized_move_n]; the state is the source (whose
    objects become moved-from), the destination and the position in it. *)
Fixpoint uninitialized_move_loop (src : buffer) (first : Z) (n : nat) (dst : buffer) (cur : Z)
  : result (buffer * buffer * Z) unit :=
  match n with
  | 0 => Normal [] (src, dst, cur) tt
  | S n' =>
      match read src first with
      | None => Undefined
      | Some x =>
          if valid dst cur then
            match move_throws x with
            | Some e => Raised [] (src, dst, cur) e
            | None =>
                after [EvMoveCtor x]
                  (uninitialized_move_loop (write src first (Some (moved_from x))) (first + 1) n'
                     (write dst cur (Some x)) (cur + 1))
            end
          else Undefined
      end
  end.

(** [std::uninitialized_move_n(first, n, d_first)]; the state is the pair
    (source, destination). *)
Definition uninitialized_move_n (src : buffer) (first : Z) (n : nat) (dst : buffer) (d_first : Z)
  : result (buffer * buffer) unit :=
  match uninitialized_move_loop src first n dst d_first with
  | Normal tr (src', dst', _) _ => Normal tr (src', dst') tt
  | Raised tr (src', dst', cur) e =>
      after tr (bind (in_state (fun d => (src', d)) (destroy_range dst' d_first cur))
                  (fun s _ => Raised [] s e))
  | AssertFailed => AssertFailed
  | Undefined => Undefined
  end.

Fixpoint uninitialized_value_construct_loop (n : nat) (b : buffer) (cur : Z)
  : result (buffer * Z) unit :=
  match n with
  | 0 => Normal [] (b, cur) tt
  | S n' =>
      match value_construct_at b cur with
      | Normal tr b' _ => after tr (uninitialized_value_construct_loop n' b' (cur + 1))
      | Raised tr b' e => Raised tr (b', cur) e
      | AssertFailed => AssertFailed
      | Undefined => Undefined
      end
  end.

(** [std::uninitialized_value_construct_n(first, n)] *)
Definition uninitialized_value_construct_n (b : buffer) (first : Z) (n : nat) : result buffer unit :=
  match uninitialized_value_construct_loop n b first with
  | Normal tr (b', _) _ => Normal tr b' tt
  | Raised tr (b', cur) e =>
      after tr (bind (destroy_range b' first cur) (fun b'' _ => Raised [] b'' e))
  | AssertFailed => AssertFailed
  | Undefined => Undefined
  end.

(** [std::copy_n(first, n, result)]: element-wise copy assignment *)
Fixpoint copy_n (src : buffer) (first : Z) (n : nat) (dst : buffer) (res : Z) : result buffer unit :=
  match n with
  | 0 => Normal [] dst tt
  | S n' => do (dst', _) <- copy_assign_at src first dst res; copy_n src (first + 1) n' dst' (res + 1)
  end.

(** the loop of std::move_backward: while first != last, step both [last]
    and [d_last] back and move-assign the one object onto the other; run
    for the [n] elements of the range *)
Fixpoint move_backward_loop (n : nat) (b : buffer) (last d_last : Z) : result buffer unit :=
  match n with
  | 0 => Normal [] b tt
  | S n' =>
      do (b', _) <- move_assign_at b (d_last - 1) (last - 1);
      move_backward_loop n' b' (last - 1) (d_last - 1)
  end.

(** [std::move_backward(first, last, d_last)] inside one buffer; the
    standard requires [first, last) to be a range, that is first <= last. *)
Definition move_backward (b : buffer) (first last d_last : Z) : result buffer unit :=
  if (last <? first)%Z then Undefined
  else move_backward_loop (Z.to_nat (last - first)) b last d_last.

(** move construction of a new object at [to] from the object at [from],
    both inside one buffer: [new (to) T(std::move( *from ))] *)
Definition move_construct_at (b : buffer) (to from : Z) : result buffer unit :=
  match read b from with
  | Some x =>
      if valid b to then
        match move_throws x with
        | Some e => Raised [] b e
        | None =>
            Normal [EvMoveCtor x] (write (write b from (Some (moved_from x))) to (Some x)) tt
        end
      else Undefined
  | None => Undefined
  end.

(** [size_t] subtraction: wraps around below zero *)
Definition size_t_sub (a b : nat) : nat :=
  if b <=? a then a - b else wrap_size_t (Z.of_nat a - Z.of_nat b).

(** conversion of a pointer difference to [size_t] *)
Definition size_t_of_ptrdiff (d : Z) : nat :=
  if (d <? 0)%Z then wrap_size_t d else Z.to_nat d.

(** ** RawMemory *)

Record RawMemory : Type := { buffer_ : buffer; capacity_ : nat }.

(** the byte count [n * sizeof(T)] of a request for [n] slots is exact in
    [size_t]: the multiplication in Allocate does not wrap *)
Definition allocatable (n : nat) : Prop := (Z.of_nat n * Z.pos sizeof < 2 ^ 64)%Z.

(** [Allocate(n)]: no allocation and a null buffer for [n = 0]; otherwise
    the block that [operator new(n * sizeof(T))] returns, which has [n]
    slots when [allocatable n] *)
Definition Allocate (n : nat) : list (event T) * buffer :=
  if n =? 0 then ([], []) else ([EvAllocate n], replicate n None).

(** [Deallocate(buf)]: operator delete; nothing happens on a null buffer *)
Definition Deallocate (buf : buffer) : list (event T) :=
  match buf with
  | [] => []
  | _ => [EvDeallocate (length buf)]
  end.

(** [RawMemory() = default] *)
Definition RawMemory_default : RawMemory := {| buffer_ := []; capacity_ := 0 |}.

(** [explicit RawMemory(size_t capacity)] *)
Definition RawMemory_new (capacity : nat) : list (event T) * RawMemory :=
  let '(tr, buf) := Allocate capacity in
  (tr, {| buffer_ := buf; capacity_ := capacity |}).

(** [~RawMemory()] *)
Definition RawMemory_dtor (m : RawMemory) : list (event T) := Deallocate (buffer_ m).

(** [RawMemory::Swap] *)
Definition RawMemory_Swap (a b : RawMemory) : RawMemory * RawMemory :=
  ({| buffer_ := buffer_ b; capacity_ := capacity_ b |},
   {| buffer_ := buffer_ a; capacity_ := capacity_ a |}).

(** [RawMemory::operator+(offset)]: the pointer is handed to [k] *)
Definition RawMemory_plus {S A} (m : RawMemory) (offset : nat) (k : Z -> result S A) : result S A :=
  assert (offset <=? capacity_ m) (k (Z.of_nat offset)).

(** [RawMemory::operator[](index)]: the address of the slot is handed to [k] *)
Definition RawMemory_index {S A} (m : RawMemory) (index : nat) (k : Z -> result S A) : result S A :=
  assert (index <? capacity_ m) (k (Z.of_nat index)).

(** [RawMemory::GetAddress()] *)
Definition GetAddress (m : RawMemory) : Z := 0.

Definition with_buffer (m : RawMemory) (b : buffer) : RawMemory :=
  {| buffer_ := b; capacity_ := capacity_ m |}.

(** ** Vector *)

Record Vector : Type := { data_ : RawMemory; size_ : nat }.

Definition Size (v : Vector) : nat := size_ v.
Definition Capacity (v : Vector) : nat := capacity_ (data_ v).
Definition begin (v : Vector) : Z := GetAddress (data_ v).
Definition end_ (v : Vector) : Z := GetAddress (data_ v) + Z.of_nat (size_ v).
Definition cbegin (v : Vector) : Z := GetAddress (data_ v).
Definition cend (v : Vector) : Z := GetAddress (data_ v) + Z.of_nat (size_ v).

Definition set_buffer (v : Vector) (b : buffer) : Vector :=
  {| data_ := with_buffer (data_ v) b; size_ := size_ v |}.
Definition set_size (v : Vector) (n : nat) : Vector :=
  {| data_ := data_ v; size_ := n |}.

(** run [f] on the buffer owned by the vector *)
Definition on_data {A} (v : Vector) (f : buffer -> result buffer A) : result Vector A :=
  in_state (set_buffer v) (f (buffer_ (data_ v))).

(** A method body with the local [RawMemory<T> new_data]: the state is the
    vector together with the local. *)
Definition on_this {A} (s : Vector * RawMemory) (f : buffer -> result buffer A)
  : result (Vector * RawMemory) A :=
  in_state (fun b => (set_buffer s.1 b, s.2)) (f (buffer_ (data_ s.1))).

Definition on_new {A} (s : Vector * RawMemory) (f : buffer -> result buffer A)
  : result (Vector * RawMemory) A :=
  in_state (fun b => (s.1, with_buffer s.2 b)) (f (buffer_ s.2)).

(** [data_.Swap(new_data)] *)
Definition swap_data (s : Vector * RawMemory) : Vector * RawMemory :=
  let '(d, n) := RawMemory_Swap (data_ s.1) s.2 in
  ({| data_ := d; size_ := size_ s.1 |}, n).

(** the end of the scope of the local: its destructor releases its buffer,
    on return and during unwinding alike *)
Definition leave_scope {A} (m : result (Vector * RawMemory) A) : result Vector A :=
  match m with
  | Normal tr s a => Normal (tr ++ RawMemory_dtor s.2) s.1 a
  | Raised tr s e => Raised (tr ++ RawMemory_dtor s.2) s.1 e
  | AssertFailed => AssertFailed
  | Undefined => Undefined
  end.

(** [Vector::UninitializedMoveOrCopy(from, size, to)]; the state is the
    pair (source buffer, destination buffer) *)
Definition UninitializedMoveOrCopy (src : buffer) (from : Z) (size : nat) (dst : buffer) (to : Z)
  : result (buffer * buffer) unit :=
  if is_nothrow_move_constructible || negb is_copy_constructible then
    uninitialized_move_n src from size dst to
  else
    in_state (fun d => (src, d)) (uninitialized_copy_n src from size dst to).

(** the same call with the vector's buffer as source and the local
    [new_data] as destination *)
Definition transfer (s : Vector * RawMemory) (from : Z) (size : nat) (to : Z)
  : result (Vector * RawMemory) unit :=
  in_state (fun bb => (set_buffer s.1 bb.1, with_buffer s.2 bb.2))
    (UninitializedMoveOrCopy (buffer_ (data_ s.1)) from size (buffer_ s.2) to).

(** [Vector() = default] *)
Definition Vector_default : Vector := {| data_ := RawMemory_default; size_ := 0 |}.

(** [explicit Vector(size_t size)]; when an element constructor throws, the
    member [data_] is released and no vector exists *)
Definition Vector_sized (size : nat) : result unit Vector :=
  let '(tr, data) := RawMemory_new size in
  after tr
    match uninitialized_value_construct_n (buffer_ data) (GetAddress data) size with
    | Normal tr' b _ => Normal tr' tt {| data_ := with_buffer data b; size_ := size |}
    | Raised tr' b e => Raised (tr' ++ Deallocate b) tt e
    | AssertFailed => AssertFailed
    | Undefined => Undefined
    end.

(** [Vector(const Vector& other)] *)
Definition Vector_copy (other : Vector) : result unit Vector :=
  let '(tr, data) := RawMemory_new (size_ other) in
  after tr
    match uninitialized_copy_n (buffer_ (data_ other)) (GetAddress (data_ other)) (size_ other)
            (buffer_ data) (GetAddress data) with
    | Normal tr' b _ => Normal tr' tt {| data_ := with_buffer data b; size_ := size_ other |}
    | Raised tr' b e => Raised (tr' ++ Deallocate b) tt e
    | AssertFailed => AssertFailed
    | Undefined => Undefined
    end.

(** [Vector::Swap(other)] on two distinct objects: (this, other) after *)
Definition Swap (this other : Vector) : Vector * Vector :=
  let '(d, o) := RawMemory_Swap (data_ this) (data_ other) in
  ({| data_ := d; size_ := size_ other |}, {| data_ := o; size_ := size_ this |}).

(** [Vector(Vector&& other) noexcept]: (the new vector, other) after *)
Definition Vector_move (other : Vector) : Vector * Vector :=
  Swap {| data_ := RawMemory_default; size_ := 0 |} other.

(** [~Vector()], followed by the destructor of the member [data_] *)
Definition Vector_dtor (v : Vector) : result unit unit :=
  match DestroyN (buffer_ (data_ v)) (GetAddress (data_ v)) (size_ v) with
  | Normal tr b _ => Normal (tr ++ Deallocate b) tt tt
  | Raised tr _ e => Raised tr tt e
  | AssertFailed => AssertFailed
  | Undefined => Undefined
  end.

(** [operator=(const Vector& rhs)] for [this != &rhs] *)
Definition copy_assign (this rhs : Vector) : result Vector unit :=
  if Capacity this <? size_ rhs then
    match Vector_copy rhs with
    | Normal tr _ rhs_copy =>
        let '(this', rhs_copy') := Swap this rhs_copy in
        after tr (in_state (fun _ => this') (Vector_dtor rhs_copy'))
    | Raised tr _ e => Raised tr this e
    | AssertFailed => AssertFailed
    | Undefined => Undefined
    end
  else
    do (v, _) <-
      (if size_ rhs <? size_ this then
         do (v, _) <- on_data this (fun b =>
             copy_n (buffer_ (data_ rhs)) (GetAddress (data_ rhs)) (size_ rhs) b (GetAddress (data_ this)));
         RawMemory_plus (data_ v) (size_ rhs) (fun p =>
           on_data v (fun b => destroy_n b p (size_ v - size_ rhs)))
       else
         do (v, _) <- on_data this (fun b =>
             copy_n (buffer_ (data_ rhs)) (GetAddress (data_ rhs)) (size_ this) b (GetAddress (data_ this)));
         RawMemory_plus (data_ rhs) (size_ v) (fun from =>
         RawMemory_plus (data_ v) (size_ v) (fun to =>
           on_data v (fun b =>
             uninitialized_copy_n (buffer_ (data_ rhs)) from (size_ rhs - size_ v) b to))));
    Normal [] (set_size v (size_ rhs)) tt.

(** [Reserve(new_capacity)] *)
Definition Reserve (v : Vector) (new_capacity : nat) : result Vector unit :=
  if new_capacity <=? capacity_ (data_ v) then Normal [] v tt
  else
    let '(tr, new_data) := RawMemory_new new_capacity in
    after tr (leave_scope (
      do (s, _) <- transfer (v, new_data) (GetAddress (data_ v)) (size_ v) (GetAddress new_data);
      do (s, _) <- on_this s (fun b => destroy_n b (GetAddress (data_ s.1)) (size_ s.1));
      Normal [] (swap_data s) tt)).

(** [Resize(new_size)] *)
Definition Resize (v : Vector) (new_size : nat) : result Vector unit :=
  if new_size <? size_ v then
    do (v, _) <- RawMemory_plus (data_ v) new_size (fun p =>
        on_data v (fun b => destroy_n b p (size_ v - new_size)));
    Normal [] (set_size v new_size) tt
  else if size_ v <? new_size then
    do (v, _) <- Reserve v new_size;
    do (v, _) <- RawMemory_plus (data_ v) (size_ v) (fun p =>
        on_data v (fun b => uninitialized_value_construct_n b p (new_size - size_ v)));
    Normal [] (set_size v new_size) tt
  else Normal [] v tt.

(** [PushBack(T1&& value)] *)
Definition PushBack (v : Vector) (value : init T Args) : result Vector unit :=
  do (v, _) <-
    (if size_ v =? Capacity v then
       let '(tr, new_data) := RawMemory_new (if size_ v =? 0 then 1 else size_ v * 2) in
       after tr (leave_scope (
         do (s, _) <-
           try_catch
             (RawMemory_plus new_data (size_ v) (fun p =>
                on_new (v, new_data) (fun b => placement_new b p value)))
             (fun s e => Raised [] s e);
         do (s, _) <- transfer s (GetAddress (data_ s.1)) (size_ s.1) (GetAddress s.2);
         do (s, _) <- on_this s (fun b => destroy_n b (GetAddress (data_ s.1)) (size_ s.1));
         Normal [] (swap_data s) tt))
     else
       RawMemory_plus (data_ v) (size_ v) (fun p => on_data v (fun b => placement_new b p value)));
  Normal [] (set_size v (size_ v + 1)) tt.

(** [PopBack()] *)
Definition PopBack (v : Vector) : result Vector unit :=
  do (v, _) <- RawMemory_plus (data_ v) (size_ v) (fun p =>
      on_data v (fun b => destroy_n b (p - 1) 1));
  Normal [] (set_size v (size_t_sub (size_ v) 1)) tt.

(** [EmplaceBack(Args&&... args)]; the result is the address the returned
    reference is bound to *)
Definition EmplaceBack (v : Vector) (args : init T Args) : result Vector Z :=
  do (v, _) <-
    (if size_ v <? Capacity v then
       RawMemory_plus (data_ v) (size_ v) (fun p => on_data v (fun b => placement_new b p args))
     else
       let '(tr, new_data) := RawMemory_new (if size_ v =? 0 then 1 else size_ v * 2) in
       after tr (leave_scope (
         do (s, _) <-
           RawMemory_plus new_data (size_ v) (fun p =>
             on_new (v, new_data) (fun b => placement_new b p args));
         do (s, _) <- transfer s (GetAddress (data_ s.1)) (size_ s.1) (GetAddress s.2);
         do (s, _) <- on_this s (fun b => destroy_n b (GetAddress (data_ s.1)) (size_ s.1));
         Normal [] (swap_data s) tt)));
  let v' := set_size v (size_ v + 1) in
  Normal [] v' (GetAddress (data_ v') + Z.of_nat (size_ v') - 1)%Z.

(** [EmplaceWithRealoc(offset, args...)] *)
Definition EmplaceWithRealoc (v : Vector) (offset : nat) (args : init T Args) : result Vector unit :=
  let '(tr, new_data) := RawMemory_new (if size_ v =? 0 then 1 else size_ v * 2) in
  after tr (leave_scope (
    do (s, _) <-
      try_catch
        (on_new (v, new_data) (fun b => placement_new b (GetAddress new_data + Z.of_nat offset) args))
        (fun s e => Raised [] s e);
    do (s, _) <-
      try_catch
        (transfer s (GetAddress (data_ s.1)) offset (GetAddress s.2))
        (fun s e =>
           RawMemory_plus s.2 offset (fun p =>
             do (s, _) <- on_new s (fun b => Destroy b p);
             Raised [] s e));
    do (s, _) <-
      try_catch
        (transfer s (GetAddress (data_ s.1) + Z.of_nat offset) (size_t_sub (size_ s.1) offset)
           (GetAddress s.2 + Z.of_nat offset + 1))
        (fun s e => on_new s (fun b => destroy_n b (GetAddress s.2) offset));
    do (s, _) <- on_this s (fun b => destroy_n b (GetAddress (data_ s.1)) (size_ s.1));
    Normal [] (swap_data s) tt)).

(** the scope of the local object [T new_data] of EmplaceWithoutRealoc:
    [m] ends with what is left in the local, which is then destroyed *)
Definition with_temporary {S} (x : T) (m : result S T) : result S unit :=
  match m with
  | Normal tr s x' => Normal (tr ++ [EvDestroy x']) s tt
  | Raised tr s e => Raised (tr ++ [EvDestroy x]) s e
  | AssertFailed => AssertFailed
  | Undefined => Undefined
  end.

(** [EmplaceWithoutRealoc(offset, args...)] *)
Definition EmplaceWithoutRealoc (v : Vector) (offset : nat) (args : init T Args) : result Vector unit :=
  match construct_from args with
  | inl e => Raised [] v e
  | inr new_data =>
      after [init_event args new_data] (with_temporary new_data (
        do (v, _) <- on_data v (fun b => move_construct_at b (end_ v) (end_ v - 1));
        do (v, _) <- on_data v (fun b =>
            move_backward b (begin v + Z.of_nat offset) (end_ v - 1) (end_ v));
        on_data v (fun b => move_assign_from b (begin v + Z.of_nat offset) new_data)))
  end.

(** [Emplace(pos, args...)]; the iterator [pos] and the iterator returned
    are pointers into the vector's buffer of the moment *)
Definition Emplace (v : Vector) (pos : Z) (args : init T Args) : result Vector Z :=
  let offset := size_t_of_ptrdiff (pos - cbegin v) in
  do (v, _) <-
    (if size_ v =? Capacity v then EmplaceWithRealoc v offset args
     else EmplaceWithoutRealoc v offset args);
  let v' := set_size v (size_ v + 1) in
  Normal [] v' (begin v' + Z.of_nat offset)%Z.

(** [Insert(pos, const T& value)] *)
Definition Insert (v : Vector) (pos : Z) (value : T) : result Vector Z :=
  Emplace v pos (Copied value).

(** [Insert(pos, T&& value)] *)
Definition Insert_rvalue (v : Vector) (pos : Z) (value : T) : result Vector Z :=
  Emplace v pos (Moved value).

(** the loop of Erase, run for its [n] iterations; the state is the vector
    and the loop variable [iter] *)
Fixpoint Erase_loop (n : nat) (v : Vector) (iter : nat) : result (Vector * nat) unit :=
  match n with
  | 0 => Normal [] (v, iter) tt
  | S n' =>
      do (s, _) <-
        RawMemory_index (data_ v) (iter + 1) (fun from =>
        RawMemory_index (data_ v) iter (fun to =>
          in_state (fun b => (set_buffer v b, iter))
            (move_assign_at (buffer_ (data_ v)) to from)));
      Erase_loop n' s.1 (iter + 1)
  end.

(** [Erase(pos)] *)
Definition Erase (v : Vector) (pos : Z) : result Vector Z :=
  let iter := size_t_of_ptrdiff (pos - cbegin v) in
  let offset := size_t_of_ptrdiff (pos - cbegin v) in
  bind_in fst
    (if bool_decide (pos ≠ end_ v - 1)%Z then
       Erase_loop (size_t_sub (size_ v) 1 - iter) v iter
     else Normal [] (v, iter) tt) (fun s _ =>
  do (v, _) <- RawMemory_index (data_ s.1) s.2 (fun p => on_data s.1 (fun b => Destroy b p));
  let v' := set_size v (size_t_sub (size_ v) 1) in
  Normal [] v' (begin v' + Z.of_nat offset)%Z).

(** [Vector::operator[](index)]: the address of the element *)
Definition Vector_index {S A} (v : Vector) (index : nat) (k : Z -> result S A) : result S A :=
  assert (index <? size_ v) (RawMemory_index (data_ v) index k).

(** ** Vector objects at addresses

    The assignment operators and Swap take their argument by reference and
    compare addresses; [objects] maps the address of each Vector object to
    its state. *)

Definition move_assign (h : gmap nat Vector) (this rhs : nat) : result (gmap nat Vector) unit :=
  match h !! this, h !! rhs with
  | Some a, Some b =>
      if bool_decide (this ≠ rhs) then
        let '(a', b') := Swap a b in
        Normal [] (<[rhs := b']> (<[this := a']> h)) tt
      else Normal [] h tt
  | _, _ => Undefined
  end.

Definition operator_assign (h : gmap nat Vector) (this rhs : nat) : result (gmap nat Vector) unit :=
  match h !! this, h !! rhs with
  | Some a, Some b =>
      if bool_decide (this ≠ rhs) then
        in_state (fun a' => <[this := a']> h) (copy_assign a b)
      else Normal [] h tt
  | _, _ => Undefined
  end.

(** [this->Swap(other)] on objects given by their addresses; swapping an
    object with itself exchanges each member with itself *)
Definition Swap_objects (h : gmap nat Vector) (this other : nat) : result (gmap nat Vector) unit :=
  match h !! this, h !! other with
  | Some a, Some b =>
      if bool_decide (this ≠ other) then
        let '(a', b') := Swap a b in
        Normal [] (<[other := b']> (<[this := a']> h)) tt
      else Normal [] h tt
  | _, _ => Undefined
  end.

(** [Vector b(std::move(a))] with the new object placed at [this] *)
Definition move_construct (h : gmap nat Vector) (this other : nat) : result (gmap nat Vector) unit :=
  match h !! this, h !! other with
  | None, Some b =>
      let '(a', b') := Vector_move b in
      Normal [] (<[other := b']> (<[this := a']> h)) tt
  | _, _ => Undefined
  end.

(** ** Definitions used to state the properties *)

(** whether UninitializedMoveOrCopy moves (its [if constexpr] condition) *)
Definition uses_move : bool := is_nothrow_move_constructible || negb is_copy_constructible.

(** the exception, if any, that the transfer of an element of value [x] throws *)
Definition transfer_throws (x : T) : option E :=
  if uses_move then move_throws x else copy_throws x.

Definition transfer_event (x : T) : event T :=
  if uses_move then EvMoveCtor x else EvCopyCtor x.

(** what the transfer leaves in the source object *)
Definition left_behind (x : T) : T :=
  if uses_move then moved_from x else x.

(** [v] holds the sequence [xs]: its first [size_] slots hold live objects
    with the values [xs], in order, the slots from there up to the capacity
    are raw memory, and the buffer has [capacity_] slots. *)
Definition represents (v : Vector) (xs : list T) : Prop :=
  size_ v = length xs ∧ length xs ≤ capacity_ (data_ v) ∧
  buffer_ (data_ v) = (Some <$> xs) ++ replicate (capacity_ (data_ v) - length xs) None.

(** the vector of capacity [c] that holds [xs] *)
Definition vector_of (xs : list T) (c : nat) : Vector :=
  {| data_ := {| buffer_ := (Some <$> xs) ++ replicate (c - length xs) None; capacity_ := c |};
     size_ := length xs |}.

(** the logical sequence read off the live prefix, when every slot of the
    prefix holds an object *)
Definition contents (v : Vector) : option (list T) :=
  mapM id (take (size_ v) (buffer_ (data_ v))).

(** the capacity a growing insertion allocates *)
Definition grown (size : nat) : nat := if size =? 0 then 1 else size * 2.

(** the invariant of the data model: no more live elements than slots *)
Definition size_within_capacity (v : Vector) : Prop := size_ v ≤ capacity_ (data_ v).

(** what holds of the state and result when a computation returns ([N]),
    and of the state when an exception escapes from it ([R]) *)
Definition ensures {S A} (N : S → A → Prop) (R : S → Prop) (m : result S A) : Prop :=
  match m with
  | Normal _ s a => N s a
  | Raised _ s _ => R s
  | AssertFailed | Undefined => True
  end.

(** size and capacity of the vector of a frame, and capacity of its local *)
Definition frame_dims (s : Vector * RawMemory) : nat * nat * nat :=
  (size_ s.1, capacity_ (data_ s.1), capacity_ s.2).

(** a step of a method body that keeps the sizes and capacities of the frame *)
Definition keeps_dims {A} (d : nat * nat * nat) (m : result (Vector * RawMemory) A) : Prop :=
  ensures (λ s _, frame_dims s = d) (λ s, frame_dims s = d) m.

(** an operation on a vector leaves it within its capacity, whether it
    returns or throws *)
Definition keeps_within_capacity {A} (m : result Vector A) : Prop :=
  ensures (λ v' _, size_within_capacity v') size_within_capacity m.

(** a constructor yields a vector within its capacity *)
Definition constructs_within_capacity (m : result unit Vector) : Prop :=
  ensures (λ _ v, size_within_capacity v) (λ _, True) m.

(** an operation on objects at addresses leaves all of them within capacity *)
Definition all_within_capacity {A} (m : result (gmap nat Vector) A) : Prop :=
  ensures (λ h' _, map_Forall (λ _, size_within_capacity) h')
          (map_Forall (λ _, size_within_capacity)) m.

(** the trace of a computation that returned or threw begins with [pre] *)
Definition trace_starts {S A} (pre : list (event T)) (m : result S A) : Prop :=
  match m with
  | Normal tr _ _ | Raised tr _ _ => ∃ tr', tr = pre ++ tr'
  | AssertFailed | Undefined => False
  end.

(** [n] calls of PushBack in a row, one for each of [values] *)
Fixpoint push_all (v : Vector) (values : list (init T Args)) : result Vector unit :=
  match values with
  | [] => Normal [] v tt
  | value :: rest => do (v', _) <- PushBack v value; push_all v' rest
  end.

(** the capacity 0, 1, 2, 4, 8, ... in closed form: the least power of two
    that is at least [n], and 0 for [n = 0] *)
Definition capacity_after (n : nat) : nat := if n =? 0 then 0 else 2 ^ Nat.log2_up n.

(** how many of the first [n] calls change the capacity *)
Definition capacity_changes (n : nat) : nat :=
  length (filter (λ k, capacity_after k ≠ capacity_after (S k)) (seq 0 n)).

(** the slots left by std::move_backward when it shifts the objects [ms]
    one slot to the right onto a slot that held [j]: the first slot keeps a
    moved-from object *)
Definition shifted_right (ms : list T) (j : T) : buffer :=
  match ms with
  | [] => [Some j]
  | m :: _ => Some (moved_from m) :: (Some <$> ms)
  end.

(** the computation is defined: it returns or throws *)
Definition defined {S A} (m : result S A) : Prop :=
  match m with
  | Normal _ _ _ | Raised _ _ _ => True
  | AssertFailed | Undefined => False
  end.

(** what Erase leaves in the last live slot before destroying it: the
    moved-from last element, or the erased element itself when it was last *)
Definition left_in_last (z : T) (zs : list T) : T :=
  default z (moved_from <$> last zs).

(** * Properties *)

Lemma size_t_sub_le a b : b ≤ a → size_t_sub a b = a - b.
Proof. intros. unfold size_t_sub. by rewrite (proj2 (Nat.leb_le _ _)). Qed.

Arguments size_t_sub : simpl never.

(** ** Outcomes *)

Lemma after_nil {S A} (m : result S A) : after [] m = m.
Proof. by destruct m. Qed.

Lemma after_after {S A} tr1 tr2 (m : result S A) :
  after tr1 (after tr2 m) = after (tr1 ++ tr2) m.
Proof. destruct m; simpl; by rewrite ?app_assoc. Qed.

Lemma assert_true {S A} c (k : result S A) : c = true → assert c k = k.
Proof. intros ->. unfold assert. by destruct NDEBUG. Qed.

Lemma RawMemory_plus_le {S A} m offset (k : Z → result S A) :
  offset ≤ capacity_ m → RawMemory_plus m offset k = k (Z.of_nat offset).
Proof. intros. apply assert_true. by apply Nat.leb_le. Qed.

Lemma RawMemory_index_lt {S A} m index (k : Z → result S A) :
  index < capacity_ m → RawMemory_index m index k = k (Z.of_nat index).
Proof. intros. apply assert_true. by apply Nat.ltb_lt. Qed.

(** ** Pointers that are offsets inside the buffer *)

Lemma valid_of_nat (b : buffer) i : valid b (Z.of_nat i) = bool_decide (i < length b).
Proof. unfold valid. apply bool_decide_ext. lia. Qed.

Lemma read_of_nat (b : buffer) i : read b (Z.of_nat i) = mjoin (b !! i).
Proof.
  unfold read. rewrite valid_of_nat, Nat2Z.id.
  case_bool_decide as Hi; [done|].
  by rewrite lookup_ge_None_2 by lia.
Qed.

Lemma write_of_nat (b : buffer) i s : write b (Z.of_nat i) s = <[i := s]> b.
Proof. unfold write. by rewrite Nat2Z.id. Qed.

Lemma read_negative (b : buffer) p : (p < 0)%Z → read b p = None.
Proof. intros. unfold read, valid. by rewrite bool_decide_false by lia. Qed.

Lemma valid_middle (pre post : buffer) s :
  valid (pre ++ s :: post) (Z.of_nat (length pre)) = true.
Proof.
  rewrite valid_of_nat. apply bool_decide_eq_true.
  rewrite length_app. simpl. lia.
Qed.

Lemma read_middle (pre post : buffer) s :
  read (pre ++ s :: post) (Z.of_nat (length pre)) = s.
Proof. by rewrite read_of_nat, list_lookup_middle. Qed.

Lemma write_middle (pre post : buffer) s s' :
  write (pre ++ s :: post) (Z.of_nat (length pre)) s' = pre ++ s' :: post.
Proof.
  rewrite write_of_nat. rewrite <- (Nat.add_0_r (length pre)).
  by rewrite insert_app_r.
Qed.

Lemma next_slot (pre : buffer) s : (Z.of_nat (length pre) + 1)%Z = Z.of_nat (length (pre ++ [s])).
Proof. rewrite length_app. simpl. lia. Qed.

(** ** The loops on buffers of a known shape *)

Lemma Destroy_middle (pre post : buffer) x :
  Destroy (pre ++ Some x :: post) (Z.of_nat (length pre))
  = Normal [EvDestroy x] (pre ++ None :: post) tt.
Proof. unfold Destroy. by rewrite read_middle, write_middle. Qed.

Lemma destroy_n_live (xs : list T) : ∀ pre post : buffer,
  destroy_n (pre ++ (Some <$> xs) ++ post) (Z.of_nat (length pre)) (length xs)
  = Normal (EvDestroy <$> xs) (pre ++ replicate (length xs) None ++ post) tt.
Proof.
  induction xs as [|x xs IH]; intros pre post; [done|].
  simpl. rewrite Destroy_middle. simpl.
  rewrite (next_slot pre None), cons_middle, app_assoc, IH.
  simpl. by rewrite <- app_assoc.
Qed.

Lemma DestroyN_live (xs : list T) : ∀ pre post : buffer,
  DestroyN (pre ++ (Some <$> xs) ++ post) (Z.of_nat (length pre)) (length xs)
  = Normal (EvDestroy <$> xs) (pre ++ replicate (length xs) None ++ post) tt.
Proof.
  induction xs as [|x xs IH]; intros pre post; [done|].
  simpl. rewrite Destroy_middle. simpl.
  rewrite (next_slot pre None), cons_middle, app_assoc, IH.
  simpl. by rewrite <- app_assoc.
Qed.

Lemma uninitialized_copy_loop_live (xs : list T) : ∀ (spre spost dpre dpost holes : buffer),
  length holes = length xs →
  Forall (λ x, copy_throws x = None) xs →
  uninitialized_copy_loop (spre ++ (Some <$> xs) ++ spost) (Z.of_nat (length spre)) (length xs)
    (dpre ++ holes ++ dpost) (Z.of_nat (length dpre))
  = Normal (EvCopyCtor <$> xs)
      (dpre ++ (Some <$> xs) ++ dpost, Z.of_nat (length dpre + length xs)) tt.
Proof.
  induction xs as [|x xs IH]; intros spre spost dpre dpost holes Hlen Hok.
  - destruct holes; [|done]. simpl. by rewrite Nat.add_0_r.
  - destruct holes as [|h holes]; [done|]. simpl in Hlen.
    apply Forall_cons in Hok as [Hx Hok]. simpl.
    rewrite read_middle, valid_middle, Hx, write_middle.
    rewrite (next_slot spre (Some x)), (next_slot dpre (Some x)).
    rewrite (cons_middle (Some x) spre), (cons_middle (Some x) dpre), !app_assoc.
    rewrite <- (app_assoc (dpre ++ [Some x])).
    rewrite <- (app_assoc (spre ++ [Some x])).
    rewrite IH by (done || lia). simpl.
    rewrite length_app. simpl. rewrite <- !app_assoc. simpl.
    by replace (length dpre + 1 + length xs) with (length dpre + S (length xs)) by lia.
Qed.

Lemma uninitialized_move_loop_live (xs : list T) : ∀ (spre spost dpre dpost holes : buffer),
  length holes = length xs →
  Forall (λ x, move_throws x = None) xs →
  uninitialized_move_loop (spre ++ (Some <$> xs) ++ spost) (Z.of_nat (length spre)) (length xs)
    (dpre ++ holes ++ dpost) (Z.of_nat (length dpre))
  = Normal (EvMoveCtor <$> xs)
      (spre ++ (Some <$> (moved_from <$> xs)) ++ spost,
       dpre ++ (Some <$> xs) ++ dpost, Z.of_nat (length dpre + length xs)) tt.
Proof.
  induction xs as [|x xs IH]; intros spre spost dpre dpost holes Hlen Hok.
  - destruct holes; [|done]. simpl. by rewrite Nat.add_0_r.
  - destruct holes as [|h holes]; [done|]. simpl in Hlen.
    apply Forall_cons in Hok as [Hx Hok]. simpl.
    rewrite read_middle, valid_middle, Hx, !write_middle.
    rewrite (next_slot spre (Some (moved_from x))), (next_slot dpre (Some x)).
    rewrite (cons_middle (Some (moved_from x)) spre), (cons_middle (Some x) dpre), !app_assoc.
    rewrite <- (app_assoc (dpre ++ [Some x])).
    rewrite <- (app_assoc (spre ++ [Some (moved_from x)])).
    rewrite IH by (done || lia). simpl.
    rewrite length_app. simpl. rewrite <- !app_assoc. simpl.
    by replace (length dpre + 1 + length xs) with (length dpre + S (length xs)) by lia.
Qed.

(** ** Transfers between two buffers *)

Lemma destroy_range_nat (b : buffer) (i j : nat) :
  destroy_range b (Z.of_nat i) (Z.of_nat j) = destroy_n b (Z.of_nat i) (j - i).
Proof. unfold destroy_range. f_equal. lia. Qed.

Lemma uninitialized_copy_n_live (xs : list T) (spre spost dpre dpost holes : buffer) :
  length holes = length xs →
  Forall (λ x, copy_throws x = None) xs →
  uninitialized_copy_n (spre ++ (Some <$> xs) ++ spost) (Z.of_nat (length spre)) (length xs)
    (dpre ++ holes ++ dpost) (Z.of_nat (length dpre))
  = Normal (EvCopyCtor <$> xs) (dpre ++ (Some <$> xs) ++ dpost) tt.
Proof.
  intros Hlen Hok. unfold uninitialized_copy_n.
  by rewrite uninitialized_copy_loop_live.
Qed.

Lemma uninitialized_move_n_live (xs : list T) (spre spost dpre dpost holes : buffer) :
  length holes = length xs →
  Forall (λ x, move_throws x = None) xs →
  uninitialized_move_n (spre ++ (Some <$> xs) ++ spost) (Z.of_nat (length spre)) (length xs)
    (dpre ++ holes ++ dpost) (Z.of_nat (length dpre))
  = Normal (EvMoveCtor <$> xs)
      (spre ++ (Some <$> (moved_from <$> xs)) ++ spost, dpre ++ (Some <$> xs) ++ dpost) tt.
Proof.
  intros Hlen Hok. unfold uninitialized_move_n.
  by rewrite uninitialized_move_loop_live.
Qed.

Lemma UninitializedMoveOrCopy_live (xs : list T) (spre spost dpre dpost holes : buffer) :
  length holes = length xs →
  Forall (λ x, transfer_throws x = None) xs →
  UninitializedMoveOrCopy (spre ++ (Some <$> xs) ++ spost) (Z.of_nat (length spre)) (length xs)
    (dpre ++ holes ++ dpost) (Z.of_nat (length dpre))
  = Normal (transfer_event <$> xs)
      (spre ++ (Some <$> (left_behind <$> xs)) ++ spost, dpre ++ (Some <$> xs) ++ dpost) tt.
Proof.
  intros Hlen Hok. unfold UninitializedMoveOrCopy.
  unfold transfer_throws, transfer_event, left_behind, uses_move in *.
  destruct (is_nothrow_move_constructible || negb is_copy_constructible).
  - by rewrite uninitialized_move_n_live.
  - rewrite uninitialized_copy_n_live by done. simpl.
    by rewrite list_fmap_id.
Qed.

(** the same with every pointer given as a number *)
Lemma UninitializedMoveOrCopy_at (xs : list T) (spre spost dpre dpost holes : buffer) from n to :
  from = Z.of_nat (length spre) → to = Z.of_nat (length dpre) → n = length xs →
  length holes = length xs →
  Forall (λ x, transfer_throws x = None) xs →
  UninitializedMoveOrCopy (spre ++ (Some <$> xs) ++ spost) from n (dpre ++ holes ++ dpost) to
  = Normal (transfer_event <$> xs)
      (spre ++ (Some <$> (left_behind <$> xs)) ++ spost, dpre ++ (Some <$> xs) ++ dpost) tt.
Proof. intros -> -> ->. apply UninitializedMoveOrCopy_live. Qed.

Lemma destroy_n_at (xs : list T) (pre post : buffer) first n :
  first = Z.of_nat (length pre) → n = length xs →
  destroy_n (pre ++ (Some <$> xs) ++ post) first n
  = Normal (EvDestroy <$> xs) (pre ++ replicate n None ++ post) tt.
Proof. intros -> ->. apply destroy_n_live. Qed.

(** the same for a range that starts at the start of the buffer *)
Lemma destroy_n_front (xs : list T) (post : buffer) n :
  n = length xs →
  destroy_n ((Some <$> xs) ++ post) 0 n
  = Normal (EvDestroy <$> xs) (replicate n None ++ post) tt.
Proof. intros. by apply (destroy_n_at xs []). Qed.

Lemma UninitializedMoveOrCopy_front (xs : list T) (spost dpost holes : buffer) n :
  n = length xs → length holes = length xs →
  Forall (λ x, transfer_throws x = None) xs →
  UninitializedMoveOrCopy ((Some <$> xs) ++ spost) 0 n (holes ++ dpost) 0
  = Normal (transfer_event <$> xs)
      ((Some <$> (left_behind <$> xs)) ++ spost, (Some <$> xs) ++ dpost) tt.
Proof. intros. by apply (UninitializedMoveOrCopy_at xs [] spost [] dpost holes). Qed.

Lemma placement_new_at (pre post : buffer) s p i x :
  p = Z.of_nat (length pre) → construct_from i = inr x →
  placement_new (pre ++ s :: post) p i = Normal [init_event i x] (pre ++ Some x :: post) tt.
Proof.
  intros -> Hx. unfold placement_new. by rewrite valid_middle, Hx, write_middle.
Qed.

Lemma placement_new_throws (pre post : buffer) s p i e :
  p = Z.of_nat (length pre) → construct_from i = inl e →
  placement_new (pre ++ s :: post) p i = Raised [] (pre ++ s :: post) e.
Proof.
  intros -> Hx. unfold placement_new. by rewrite valid_middle, Hx.
Qed.

Lemma replicate_split {A} (n c : nat) (a : A) :
  n < c → replicate c a = replicate n a ++ a :: replicate (c - S n) a.
Proof.
  intros. replace c with (n + S (c - S n)) at 1 by lia.
  by rewrite replicate_add.
Qed.

Lemma represents_vector_of v xs :
  represents v xs ↔ v = vector_of xs (Capacity v) ∧ length xs ≤ Capacity v.
Proof.
  destruct v as [[b c] n]. unfold represents, vector_of, Capacity. simpl. split.
  - intros (-> & ? & ->). done.
  - intros [[= -> ->] ?]. done.
Qed.

Lemma represents_inv v xs : represents v xs → ∃ c, v = vector_of xs c ∧ length xs ≤ c.
Proof. intros [Hv Hle]%represents_vector_of. eauto. Qed.

Lemma vector_of_represents xs c : length xs ≤ c → represents (vector_of xs c) xs.
Proof. intros. by apply represents_vector_of. Qed.



Lemma RawMemory_new_grown n :
  RawMemory_new (if n =? 0 then 1 else n * 2)
  = ([EvAllocate (grown n)], {| buffer_ := replicate (grown n) None; capacity_ := grown n |}).
Proof.
  unfold RawMemory_new, Allocate, grown.
  destruct (n =? 0) eqn:Hn; [done|].
  apply Nat.eqb_neq in Hn.
  destruct (n * 2 =? 0) eqn:H2; [apply Nat.eqb_eq in H2; lia|done].
Qed.

Lemma grown_gt n : n < grown n.
Proof. unfold grown. destruct (n =? 0) eqn:Hn; [apply Nat.eqb_eq in Hn|apply Nat.eqb_neq in Hn]; lia. Qed.

Lemma grown_max n : grown n = Nat.max 1 (2 * n).
Proof. unfold grown. destruct (n =? 0) eqn:Hn; [apply Nat.eqb_eq in Hn|apply Nat.eqb_neq in Hn]; lia. Qed.

(** ** A transfer in which one element throws *)

Lemma first_throw_split (f : T → option E) (xs : list T) :
  Forall (λ x, f x = None) xs ∨
  ∃ ys z zs e, xs = ys ++ z :: zs ∧ Forall (λ x, f x = None) ys ∧ f z = Some e.
Proof.
  induction xs as [|x xs IH]; [by left|].
  destruct (f x) as [e|] eqn:Hx.
  - right. by exists [], x, xs, e.
  - destruct IH as [Hok|(ys & z & zs & e & -> & Hok & Hz)].
    + left. by constructor.
    + right. exists (x :: ys), z, zs, e. split_and!; [done|by constructor|done].
Qed.

Lemma uninitialized_copy_loop_throw (ys : list T) z zs e :
  ∀ (spre spost dpre dpost holes : buffer),
  length holes = length (ys ++ z :: zs) →
  Forall (λ x, copy_throws x = None) ys → copy_throws z = Some e →
  uninitialized_copy_loop (spre ++ (Some <$> ys ++ z :: zs) ++ spost) (Z.of_nat (length spre))
    (length (ys ++ z :: zs)) (dpre ++ holes ++ dpost) (Z.of_nat (length dpre))
  = Raised (EvCopyCtor <$> ys)
      (dpre ++ (Some <$> ys) ++ drop (length ys) holes ++ dpost,
       Z.of_nat (length dpre + length ys)) e.
Proof.
  induction ys as [|y ys IH]; intros spre spost dpre dpost holes Hlen Hok Hz.
  - destruct holes as [|h holes]; [done|]. simpl.
    rewrite read_middle, valid_middle, Hz. by rewrite Nat.add_0_r.
  - destruct holes as [|h holes]; [done|]. simpl in Hlen.
    apply Forall_cons in Hok as [Hy Hok]. simpl.
    rewrite read_middle, valid_middle, Hy, write_middle.
    rewrite (next_slot spre (Some y)), (next_slot dpre (Some y)).
    rewrite (cons_middle (Some y) spre), (cons_middle (Some y) dpre), !app_assoc.
    rewrite <- (app_assoc (dpre ++ [Some y])).
    rewrite <- (app_assoc (spre ++ [Some y])).
    rewrite IH by (done || lia). simpl.
    rewrite length_app. simpl. rewrite <- !app_assoc. simpl.
    by replace (length dpre + 1 + length ys) with (length dpre + S (length ys)) by lia.
Qed.

Lemma uninitialized_move_loop_throw (ys : list T) z zs e :
  ∀ (spre spost dpre dpost holes : buffer),
  length holes = length (ys ++ z :: zs) →
  Forall (λ x, move_throws x = None) ys → move_throws z = Some e →
  uninitialized_move_loop (spre ++ (Some <$> ys ++ z :: zs) ++ spost) (Z.of_nat (length spre))
    (length (ys ++ z :: zs)) (dpre ++ holes ++ dpost) (Z.of_nat (length dpre))
  = Raised (EvMoveCtor <$> ys)
      (spre ++ (Some <$> (moved_from <$> ys) ++ z :: zs) ++ spost,
       dpre ++ (Some <$> ys) ++ drop (length ys) holes ++ dpost,
       Z.of_nat (length dpre + length ys)) e.
Proof.
  induction ys as [|y ys IH]; intros spre spost dpre dpost holes Hlen Hok Hz.
  - destruct holes as [|h holes]; [done|]. simpl.
    rewrite read_middle, valid_middle, Hz. by rewrite Nat.add_0_r.
  - destruct holes as [|h holes]; [done|]. simpl in Hlen.
    apply Forall_cons in Hok as [Hy Hok]. simpl.
    rewrite read_middle, valid_middle, Hy, !write_middle.
    rewrite (next_slot spre (Some (moved_from y))), (next_slot dpre (Some y)).
    rewrite (cons_middle (Some (moved_from y)) spre), (cons_middle (Some y) dpre), !app_assoc.
    rewrite <- (app_assoc (dpre ++ [Some y])).
    rewrite <- (app_assoc (spre ++ [Some (moved_from y)])).
    rewrite IH by (done || lia). simpl.
    rewrite length_app. simpl. rewrite <- !app_assoc. simpl.
    by replace (length dpre + 1 + length ys) with (length dpre + S (length ys)) by lia.
Qed.

(** the objects constructed before the throw are destroyed again: the
    destination is raw memory as before, and the exception goes on *)
Lemma uninitialized_copy_n_throw (ys : list T) z zs e (spre spost dpre dpost : buffer) n :
  n = length (ys ++ z :: zs) →
  Forall (λ x, copy_throws x = None) ys → copy_throws z = Some e →
  uninitialized_copy_n (spre ++ (Some <$> ys ++ z :: zs) ++ spost) (Z.of_nat (length spre)) n
    (dpre ++ replicate n None ++ dpost) (Z.of_nat (length dpre))
  = Raised ((EvCopyCtor <$> ys) ++ (EvDestroy <$> ys)) (dpre ++ replicate n None ++ dpost) e.
Proof.
  intros -> Hok Hz. unfold uninitialized_copy_n.
  rewrite (uninitialized_copy_loop_throw ys z zs e) by (done || by rewrite length_replicate).
  rewrite destroy_range_nat, destroy_n_at by (done || lia).
  simpl. rewrite app_nil_r, drop_replicate, (app_assoc (replicate _ _)), <- replicate_add, length_app.
  do 4 f_equal. simpl. lia.
Qed.

Lemma uninitialized_move_n_throw (ys : list T) z zs e (spre spost dpre dpost : buffer) n :
  n = length (ys ++ z :: zs) →
  Forall (λ x, move_throws x = None) ys → move_throws z = Some e →
  uninitialized_move_n (spre ++ (Some <$> ys ++ z :: zs) ++ spost) (Z.of_nat (length spre)) n
    (dpre ++ replicate n None ++ dpost) (Z.of_nat (length dpre))
  = Raised ((EvMoveCtor <$> ys) ++ (EvDestroy <$> ys))
      (spre ++ (Some <$> (moved_from <$> ys) ++ z :: zs) ++ spost,
       dpre ++ replicate n None ++ dpost) e.
Proof.
  intros -> Hok Hz. unfold uninitialized_move_n.
  rewrite (uninitialized_move_loop_throw ys z zs e) by (done || by rewrite length_replicate).
  rewrite destroy_range_nat, destroy_n_at by (done || lia).
  simpl. rewrite app_nil_r, drop_replicate, (app_assoc (replicate _ _)), <- replicate_add, length_app.
  do 5 f_equal. simpl. lia.
Qed.

Lemma UninitializedMoveOrCopy_throw (ys : list T) z zs e (spre spost dpre dpost : buffer) from n to :
  from = Z.of_nat (length spre) → to = Z.of_nat (length dpre) →
  n = length (ys ++ z :: zs) →
  Forall (λ x, transfer_throws x = None) ys → transfer_throws z = Some e →
  UninitializedMoveOrCopy (spre ++ (Some <$> ys ++ z :: zs) ++ spost) from n
    (dpre ++ replicate n None ++ dpost) to
  = Raised ((transfer_event <$> ys) ++ (EvDestroy <$> ys))
      (spre ++ (Some <$> (left_behind <$> ys) ++ z :: zs) ++ spost,
       dpre ++ replicate n None ++ dpost) e.
Proof.
  intros -> -> Hn Hok Hz. unfold UninitializedMoveOrCopy.
  unfold transfer_throws, transfer_event, left_behind, uses_move in *.
  destruct (is_nothrow_move_constructible || negb is_copy_constructible).
  - by rewrite (uninitialized_move_n_throw ys z zs e).
  - rewrite (uninitialized_copy_n_throw ys z zs e) by done. simpl.
    by rewrite list_fmap_id.
Qed.

Lemma UninitializedMoveOrCopy_front_throw (ys : list T) z zs e (spost dpost : buffer) n :
  n = length (ys ++ z :: zs) →
  Forall (λ x, transfer_throws x = None) ys → transfer_throws z = Some e →
  UninitializedMoveOrCopy ((Some <$> ys ++ z :: zs) ++ spost) 0 n (replicate n None ++ dpost) 0
  = Raised ((transfer_event <$> ys) ++ (EvDestroy <$> ys))
      ((Some <$> (left_behind <$> ys) ++ z :: zs) ++ spost, replicate n None ++ dpost) e.
Proof. intros. by apply (UninitializedMoveOrCopy_throw ys z zs e [] spost [] dpost). Qed.

Lemma left_behind_copy (xs : list T) : uses_move = false → left_behind <$> xs = xs.
Proof.
  intros Hcopy. unfold left_behind. rewrite Hcopy. apply list_fmap_id.
Qed.

(** ** Appending *)

Lemma PushBack_grow xs value x :
  construct_from value = inr x →
  Forall (λ y, transfer_throws y = None) xs →
  PushBack (vector_of xs (length xs)) value
  = Normal ([EvAllocate (grown (length xs)); init_event value x] ++ (transfer_event <$> xs)
            ++ (EvDestroy <$> (left_behind <$> xs)) ++ Deallocate (replicate (length xs) None))
      (vector_of (xs ++ [x]) (grown (length xs))) tt.
Proof.
  intros Hx Hok. pose proof (grown_gt (length xs)) as Hgt.
  unfold PushBack, vector_of, Capacity. simpl.
  rewrite Nat.eqb_refl, RawMemory_new_grown, Nat.sub_diag. simpl.
  rewrite RawMemory_plus_le by (simpl; lia).
  unfold on_new. simpl.
  rewrite (replicate_split (length xs) (grown (length xs))) by done.
  erewrite placement_new_at; [|by rewrite length_replicate|done].
  simpl. unfold transfer, with_buffer, GetAddress. simpl.
  rewrite UninitializedMoveOrCopy_front by (done || by rewrite length_replicate).
  simpl. unfold on_this, set_buffer, with_buffer, GetAddress. simpl.
  rewrite destroy_n_front by by rewrite length_fmap.
  simpl. unfold set_size, RawMemory_dtor. simpl.
  rewrite !app_nil_r, fmap_app, length_app, <- !app_assoc. simpl.
  by replace (grown (length xs) - (length xs + 1)) with (grown (length xs) - S (length xs)) by lia.
Qed.

Lemma vector_of_spare xs c :
  length xs < c →
  vector_of xs c
  = {| data_ := {| buffer_ := (Some <$> xs) ++ None :: replicate (c - S (length xs)) None;
                   capacity_ := c |};
       size_ := length xs |}.
Proof.
  intros. unfold vector_of.
  by replace (c - length xs) with (S (c - S (length xs))) by lia.
Qed.

Lemma vector_of_snoc xs x c :
  {| data_ := {| buffer_ := (Some <$> xs) ++ Some x :: replicate (c - S (length xs)) None;
                 capacity_ := c |};
     size_ := length xs + 1 |}
  = vector_of (xs ++ [x]) c.
Proof.
  unfold vector_of. rewrite fmap_app, length_app, <- app_assoc. simpl.
  by replace (c - (length xs + 1)) with (c - S (length xs)) by lia.
Qed.

Lemma PushBack_in_place xs c value x :
  length xs < c →
  construct_from value = inr x →
  PushBack (vector_of xs c) value = Normal [init_event value x] (vector_of (xs ++ [x]) c) tt.
Proof.
  intros Hlt Hx. rewrite vector_of_spare by done.
  unfold PushBack, Capacity. simpl.
  rewrite (proj2 (Nat.eqb_neq _ _)) by lia.
  rewrite RawMemory_plus_le by (simpl; lia).
  unfold on_data. simpl.
  erewrite placement_new_at; [|by rewrite length_fmap|done].
  simpl. unfold set_size, set_buffer, with_buffer. simpl.
  by rewrite vector_of_snoc.
Qed.

Lemma PushBack_throws v value e :
  size_ v = Capacity v →
  construct_from value = inl e →
  PushBack v value
  = Raised [EvAllocate (grown (size_ v)); EvDeallocate (grown (size_ v))] v e.
Proof.
  intros Hfull He. pose proof (grown_gt (size_ v)) as Hgt.
  unfold PushBack. rewrite Hfull, Nat.eqb_refl, <- Hfull, RawMemory_new_grown.
  rewrite RawMemory_plus_le by (simpl; lia).
  unfold on_new. simpl.
  rewrite (replicate_split (size_ v) (grown (size_ v))) by done.
  erewrite placement_new_throws; [|by rewrite length_replicate|done].
  simpl. unfold RawMemory_dtor. simpl.
  rewrite <- replicate_split by done.
  destruct (grown (size_ v)) as [|g] eqn:Hg; [lia|].
  simpl. by rewrite length_replicate.
Qed.

Lemma EmplaceBack_grow xs args x :
  construct_from args = inr x →
  Forall (λ y, transfer_throws y = None) xs →
  EmplaceBack (vector_of xs (length xs)) args
  = Normal ([EvAllocate (grown (length xs)); init_event args x] ++ (transfer_event <$> xs)
            ++ (EvDestroy <$> (left_behind <$> xs)) ++ Deallocate (replicate (length xs) None))
      (vector_of (xs ++ [x]) (grown (length xs))) (Z.of_nat (length xs)).
Proof.
  intros Hx Hok. pose proof (grown_gt (length xs)) as Hgt.
  unfold EmplaceBack, vector_of, Capacity. simpl.
  rewrite Nat.ltb_irrefl, RawMemory_new_grown, Nat.sub_diag. simpl.
  rewrite RawMemory_plus_le by (simpl; lia).
  unfold on_new. simpl.
  rewrite (replicate_split (length xs) (grown (length xs))) by done.
  erewrite placement_new_at; [|by rewrite length_replicate|done].
  simpl. unfold transfer, with_buffer, GetAddress. simpl.
  rewrite UninitializedMoveOrCopy_front by (done || by rewrite length_replicate).
  simpl. unfold on_this, set_buffer, with_buffer, GetAddress. simpl.
  rewrite destroy_n_front by by rewrite length_fmap.
  simpl. unfold set_size, RawMemory_dtor. simpl.
  rewrite !app_nil_r, fmap_app, length_app, <- !app_assoc. simpl.
  replace (grown (length xs) - (length xs + 1)) with (grown (length xs) - S (length xs)) by lia.
  do 2 f_equal. lia.
Qed.

Lemma EmplaceBack_in_place xs c args x :
  length xs < c →
  construct_from args = inr x →
  EmplaceBack (vector_of xs c) args
  = Normal [init_event args x] (vector_of (xs ++ [x]) c) (Z.of_nat (length xs)).
Proof.
  intros Hlt Hx. rewrite vector_of_spare by done.
  unfold EmplaceBack, Capacity. simpl.
  rewrite (proj2 (Nat.ltb_lt _ _)) by lia.
  rewrite RawMemory_plus_le by (simpl; lia).
  unfold on_data. simpl.
  erewrite placement_new_at; [|by rewrite length_fmap|done].
  simpl. unfold set_size, set_buffer, with_buffer, GetAddress. simpl.
  rewrite vector_of_snoc. f_equal. lia.
Qed.

Lemma EmplaceBack_throws v args e :
  size_ v = Capacity v →
  construct_from args = inl e →
  EmplaceBack v args
  = Raised [EvAllocate (grown (size_ v)); EvDeallocate (grown (size_ v))] v e.
Proof.
  intros Hfull He. pose proof (grown_gt (size_ v)) as Hgt.
  unfold EmplaceBack. rewrite Hfull, Nat.ltb_irrefl, <- Hfull, RawMemory_new_grown.
  rewrite RawMemory_plus_le by (simpl; lia).
  unfold on_new. simpl.
  rewrite (replicate_split (size_ v) (grown (size_ v))) by done.
  erewrite placement_new_throws; [|by rewrite length_replicate|done].
  simpl. unfold RawMemory_dtor. simpl.
  rewrite <- replicate_split by done.
  destruct (grown (size_ v)) as [|g] eqn:Hg; [lia|].
  simpl. by rewrite length_replicate.
Qed.

(** ** Reserve and PopBack *)

Lemma Reserve_noop v n : n ≤ Capacity v → Reserve v n = Normal [] v tt.
Proof. intros. unfold Reserve. by rewrite (proj2 (Nat.leb_le _ _)). Qed.

Lemma Reserve_grow xs c n :
  length xs ≤ c → c < n →
  Forall (λ y, transfer_throws y = None) xs →
  Reserve (vector_of xs c) n
  = Normal ([EvAllocate n] ++ (transfer_event <$> xs) ++ (EvDestroy <$> (left_behind <$> xs))
            ++ Deallocate (replicate c None))
      (vector_of xs n) tt.
Proof.
  intros Hle Hlt Hok. unfold Reserve, vector_of. simpl.
  rewrite (proj2 (Nat.leb_gt _ _)) by done.
  unfold RawMemory_new, Allocate. rewrite (proj2 (Nat.eqb_neq n 0)) by lia.
  unfold transfer, GetAddress. simpl.
  replace n with (length xs + (n - length xs)) at 2 by lia. rewrite replicate_add.
  rewrite UninitializedMoveOrCopy_front by (done || by rewrite length_replicate).
  simpl. unfold on_this, set_buffer, with_buffer, GetAddress. simpl.
  rewrite destroy_n_front by by rewrite length_fmap.
  simpl. unfold RawMemory_dtor. simpl.
  rewrite !app_nil_r, <- !app_assoc, <- replicate_add.
  by replace (length xs + (c - length xs)) with c by lia.
Qed.

Lemma PopBack_last xs x c :
  length xs < c →
  PopBack (vector_of (xs ++ [x]) c) = Normal [EvDestroy x] (vector_of xs c) tt.
Proof.
  intros Hlt. rewrite <- vector_of_snoc.
  unfold PopBack. simpl.
  rewrite RawMemory_plus_le by (simpl; lia).
  unfold on_data. simpl.
  replace (Z.of_nat (length xs + 1) - 1)%Z with (Z.of_nat (length (Some <$> xs))) by (rewrite length_fmap; lia).
  rewrite Destroy_middle. simpl.
  unfold set_size, set_buffer, with_buffer. simpl.
  rewrite size_t_sub_le by lia.
  replace (length xs + 1 - 1) with (length xs) by lia.
  by rewrite vector_of_spare.
Qed.

Lemma PopBack_empty v : size_ v = 0 → PopBack v = Undefined.
Proof.
  intros Hs. unfold PopBack. rewrite Hs.
  rewrite RawMemory_plus_le by lia.
  by unfold on_data.
Qed.

(** ** Rules for [ensures] *)

Section Ensures.
Context {S A : Type}.
Implicit Types (N : S → A → Prop) (R : S → Prop) (m : result S A).

Lemma ensures_weaken N N' R R' m :
  ensures N' R' m → (∀ s a, N' s a → N s a) → (∀ s, R' s → R s) → ensures N R m.
Proof. destruct m; simpl; auto. Qed.

Lemma ensures_after N R tr m : ensures N R m → ensures N R (after tr m).
Proof. by destruct m. Qed.

Lemma ensures_assert N R c m : ensures N R m → ensures N R (assert c m).
Proof. unfold assert. by destruct NDEBUG, c. Qed.

Lemma ensures_plus N R d offset (k : Z → result S A) :
  (∀ p, ensures N R (k p)) → ensures N R (RawMemory_plus d offset k).
Proof. intros. by apply ensures_assert. Qed.

Lemma ensures_index N R d index (k : Z → result S A) :
  (∀ p, ensures N R (k p)) → ensures N R (RawMemory_index d index k).
Proof. intros. by apply ensures_assert. Qed.

Lemma ensures_try_catch N R R' m (h : S → E → result S A) :
  ensures N R' m → (∀ s e, R' s → ensures N R (h s e)) → ensures N R (try_catch m h).
Proof. destruct m; simpl; auto using ensures_after. Qed.

Lemma ensures_rethrow N R m :
  ensures N R m → ensures N R (try_catch m (λ s e, Raised [] s e)).
Proof. intros. by apply ensures_try_catch with R. Qed.

End Ensures.

Lemma ensures_bind {S A B} (N : S → B → Prop) (N' : S → A → Prop) R
    (m : result S A) (k : S → A → result S B) :
  ensures N' R m → (∀ s a, N' s a → ensures N R (k s a)) → ensures N R (bind m k).
Proof. destruct m; simpl; auto using ensures_after. Qed.

Lemma ensures_bind_in {S S' A B} (f : S → S') (N : S' → B → Prop) (N' : S → A → Prop) R
    (m : result S A) (k : S → A → result S' B) :
  ensures N' (λ s, R (f s)) m → (∀ s a, N' s a → ensures N R (k s a)) →
  ensures N R (bind_in f m k).
Proof. destruct m; simpl; auto using ensures_after. Qed.

(** whatever [m] does, its state is seen through [f] *)
Lemma ensures_in_state {S S' A} (f : S → S') (N : S' → A → Prop) R (m : result S A) :
  (∀ s a, N (f s) a) → (∀ s, R (f s)) → ensures N R (in_state f m).
Proof. destruct m; simpl; auto. Qed.

Lemma ensures_leave_scope {A} (N : Vector → A → Prop) R (m : result (Vector * RawMemory) A) :
  ensures (λ s a, N s.1 a) (λ s, R s.1) m → ensures N R (leave_scope m).
Proof. by destruct m. Qed.

(** the element-wise work never changes a size or a capacity *)
Lemma on_data_dims {A} v (f : buffer → result buffer A) :
  ensures (λ v' _, size_ v' = size_ v ∧ data_ v' = with_buffer (data_ v) (buffer_ (data_ v')))
          (λ v', size_ v' = size_ v ∧ capacity_ (data_ v') = capacity_ (data_ v))
          (on_data v f).
Proof. by apply ensures_in_state. Qed.

Lemma on_this_dims {A} s (f : buffer → result buffer A) :
  ensures (λ s' _, frame_dims s' = frame_dims s) (λ s', frame_dims s' = frame_dims s)
          (on_this s f).
Proof. by apply ensures_in_state. Qed.

Lemma on_new_dims {A} s (f : buffer → result buffer A) :
  ensures (λ s' _, frame_dims s' = frame_dims s) (λ s', frame_dims s' = frame_dims s)
          (on_new s f).
Proof. by apply ensures_in_state. Qed.

Lemma transfer_dims s from n to :
  ensures (λ s' _, frame_dims s' = frame_dims s) (λ s', frame_dims s' = frame_dims s)
          (transfer s from n to).
Proof. by apply ensures_in_state. Qed.

(** ** Size and capacity after each operation *)

Lemma keeps_dims_on_this {A} s d (f : buffer → result buffer A) :
  frame_dims s = d → keeps_dims d (on_this s f).
Proof. intros <-. apply on_this_dims. Qed.

Lemma keeps_dims_on_new {A} s d (f : buffer → result buffer A) :
  frame_dims s = d → keeps_dims d (on_new s f).
Proof. intros <-. apply on_new_dims. Qed.

Lemma keeps_dims_transfer s d from n to :
  frame_dims s = d → keeps_dims d (transfer s from n to).
Proof. intros <-. apply transfer_dims. Qed.

Lemma keeps_dims_bind {A B} d (m : result (Vector * RawMemory) A) (k : _ → A → result _ B)
    (N : Vector * RawMemory → B → Prop) R :
  keeps_dims d m →
  (∀ s, frame_dims s = d → R s) →
  (∀ s a, frame_dims s = d → ensures N R (k s a)) →
  ensures N R (bind m k).
Proof.
  intros Hm HR Hk. eapply ensures_bind; [|exact Hk].
  eapply ensures_weaken; [exact Hm|done|done].
Qed.

Lemma PushBack_dims v value :
  ensures
    (λ v' _, size_ v' = size_ v + 1 ∧
             capacity_ (data_ v') = if size_ v =? Capacity v then grown (size_ v) else Capacity v)
    (λ v', size_ v' = size_ v ∧ capacity_ (data_ v') = Capacity v)
    (PushBack v value).
Proof.
  unfold PushBack.
  eapply ensures_bind with
    (N' := λ v' _, size_ v' = size_ v ∧
             capacity_ (data_ v') = if size_ v =? Capacity v then grown (size_ v) else Capacity v).
  2:{ intros v' _ [Hs Hc]. simpl. by rewrite Hs. }
  destruct (size_ v =? Capacity v).
  - rewrite RawMemory_new_grown.
    apply ensures_after, ensures_leave_scope.
    set (d := (size_ v, Capacity v, grown (size_ v))).
    apply keeps_dims_bind with d.
    { apply ensures_rethrow, ensures_plus. intros p. by apply keeps_dims_on_new. }
    { by intros s [= -> -> _]. }
    intros s _ Hs. apply keeps_dims_bind with d.
    { by apply keeps_dims_transfer. }
    { by intros s' [= -> -> _]. }
    intros s' _ Hs'. apply keeps_dims_bind with d.
    { by apply keeps_dims_on_this. }
    { by intros s'' [= -> -> _]. }
    intros s'' _ [= Hsz Hcap Hg]. simpl. by rewrite Hsz, Hg.
  - apply ensures_plus. intros p.
    eapply ensures_weaken; [apply on_data_dims|..].
    + intros v' _ [Hs ->]. done.
    + done.
Qed.

Lemma EmplaceBack_dims v args :
  ensures
    (λ v' _, size_ v' = size_ v + 1 ∧
             capacity_ (data_ v') = if size_ v <? Capacity v then Capacity v else grown (size_ v))
    (λ v', size_ v' = size_ v ∧ capacity_ (data_ v') = Capacity v)
    (EmplaceBack v args).
Proof.
  unfold EmplaceBack.
  eapply ensures_bind with
    (N' := λ v' _, size_ v' = size_ v ∧
             capacity_ (data_ v') = if size_ v <? Capacity v then Capacity v else grown (size_ v)).
  2:{ intros v' _ [Hs Hc]. simpl. by rewrite Hs. }
  destruct (size_ v <? Capacity v).
  - apply ensures_plus. intros p.
    eapply ensures_weaken; [apply on_data_dims|..].
    + intros v' _ [Hs ->]. done.
    + done.
  - rewrite RawMemory_new_grown.
    apply ensures_after, ensures_leave_scope.
    set (d := (size_ v, Capacity v, grown (size_ v))).
    apply keeps_dims_bind with d.
    { apply ensures_plus. intros p. by apply keeps_dims_on_new. }
    { by intros s [= -> -> _]. }
    intros s _ Hs. apply keeps_dims_bind with d.
    { by apply keeps_dims_transfer. }
    { by intros s' [= -> -> _]. }
    intros s' _ Hs'. apply keeps_dims_bind with d.
    { by apply keeps_dims_on_this. }
    { by intros s'' [= -> -> _]. }
    intros s'' _ [= Hsz Hcap Hg]. simpl. by rewrite Hsz, Hg.
Qed.

Lemma EmplaceWithRealoc_dims v offset args :
  ensures
    (λ v' _, size_ v' = size_ v ∧ capacity_ (data_ v') = grown (size_ v))
    (λ v', size_ v' = size_ v ∧ capacity_ (data_ v') = Capacity v)
    (EmplaceWithRealoc v offset args).
Proof.
  unfold EmplaceWithRealoc. rewrite RawMemory_new_grown.
  apply ensures_after, ensures_leave_scope.
  set (d := (size_ v, Capacity v, grown (size_ v))).
  apply keeps_dims_bind with d.
  { apply ensures_rethrow. by apply keeps_dims_on_new. }
  { by intros s [= -> -> _]. }
  intros s _ Hs. apply keeps_dims_bind with d.
  { eapply ensures_try_catch; [by apply keeps_dims_transfer|].
    intros s1 e Hs1. apply ensures_plus. intros p.
    apply keeps_dims_bind with d; [by apply keeps_dims_on_new|done|done]. }
  { by intros s' [= -> -> _]. }
  intros s' _ Hs'. apply keeps_dims_bind with d.
  { eapply ensures_try_catch; [by apply keeps_dims_transfer|].
    intros s1 e Hs1. by apply keeps_dims_on_new. }
  { by intros s1 [= -> -> _]. }
  intros s1 _ Hs1. apply keeps_dims_bind with d.
  { by apply keeps_dims_on_this. }
  { by intros s2 [= -> -> _]. }
  intros s2 _ [= Hsz Hcap Hg]. simpl. by rewrite Hsz, Hg.
Qed.

(** a step on the vector's own buffer keeps its size and capacity *)
Lemma on_data_keeps {A} v n c (f : buffer → result buffer A) :
  size_ v = n → capacity_ (data_ v) = c →
  ensures (λ v' _, size_ v' = n ∧ capacity_ (data_ v') = c)
          (λ v', size_ v' = n ∧ capacity_ (data_ v') = c) (on_data v f).
Proof. intros <- <-. by apply ensures_in_state. Qed.

Lemma EmplaceWithoutRealoc_dims v offset args :
  ensures
    (λ v' _, size_ v' = size_ v ∧ capacity_ (data_ v') = Capacity v)
    (λ v', size_ v' = size_ v ∧ capacity_ (data_ v') = Capacity v)
    (EmplaceWithoutRealoc v offset args).
Proof.
  unfold EmplaceWithoutRealoc. destruct (construct_from args) as [e|x]; [done|].
  apply ensures_after. unfold with_temporary.
  match goal with |- ensures _ _ (match ?m with _ => _ end) =>
    assert (ensures (λ v' _, size_ v' = size_ v ∧ capacity_ (data_ v') = Capacity v)
              (λ v', size_ v' = size_ v ∧ capacity_ (data_ v') = Capacity v) m) as Hm;
    [|by destruct m] end.
  eapply ensures_bind; [by apply on_data_keeps|].
  intros v1 _ [Hs1 Hc1]. eapply ensures_bind; [by apply on_data_keeps|].
  intros v2 _ [Hs2 Hc2]. by apply on_data_keeps.
Qed.

Lemma Emplace_dims v pos args :
  ensures
    (λ v' _, size_ v' = size_ v + 1 ∧
             capacity_ (data_ v') = if size_ v =? Capacity v then grown (size_ v) else Capacity v)
    (λ v', size_ v' = size_ v ∧ capacity_ (data_ v') = Capacity v)
    (Emplace v pos args).
Proof.
  unfold Emplace.
  eapply ensures_bind with
    (N' := λ v' _, size_ v' = size_ v ∧
             capacity_ (data_ v') = if size_ v =? Capacity v then grown (size_ v) else Capacity v).
  2:{ intros v' _ [Hs Hc]. simpl. by rewrite Hs. }
  destruct (size_ v =? Capacity v).
  - apply EmplaceWithRealoc_dims.
  - apply EmplaceWithoutRealoc_dims.
Qed.

Lemma Erase_loop_dims n : ∀ v iter,
  ensures (λ s _, size_ s.1 = size_ v ∧ capacity_ (data_ s.1) = Capacity v)
          (λ s, size_ s.1 = size_ v ∧ capacity_ (data_ s.1) = Capacity v)
          (Erase_loop n v iter).
Proof.
  induction n as [|n IH]; intros v iter; [done|]. simpl.
  eapply ensures_bind.
  - apply ensures_index. intros from. apply ensures_index. intros to.
    apply ensures_in_state with
      (N := λ s _, size_ s.1 = size_ v ∧ capacity_ (data_ s.1) = Capacity v); done.
  - intros s _ [Hs Hc]. simpl in *.
    eapply ensures_weaken; [apply IH|..]; simpl; intros; unfold Capacity in *; by rewrite <- Hs, <- Hc.
Qed.

Lemma Erase_dims v pos :
  ensures
    (λ v' _, size_ v' = size_t_sub (size_ v) 1 ∧ capacity_ (data_ v') = Capacity v)
    (λ v', size_ v' = size_ v ∧ capacity_ (data_ v') = Capacity v)
    (Erase v pos).
Proof.
  unfold Erase.
  eapply ensures_bind_in with
    (N' := λ s _, size_ s.1 = size_ v ∧ capacity_ (data_ s.1) = Capacity v).
  - case_bool_decide; [apply Erase_loop_dims|done].
  - intros s _ [Hs Hc].
    eapply ensures_bind with
      (N' := λ v' _, size_ v' = size_ v ∧ capacity_ (data_ v') = Capacity v).
    + apply ensures_index. intros p. by apply on_data_keeps.
    + intros v' _ [Hs' Hc']. simpl. by rewrite Hs'.
Qed.

Lemma PopBack_dims v :
  ensures
    (λ v' _, 0 < size_ v ∧ size_ v' = size_ v - 1 ∧ capacity_ (data_ v') = Capacity v)
    (λ v', size_ v' = size_ v ∧ capacity_ (data_ v') = Capacity v)
    (PopBack v).
Proof.
  destruct (decide (size_ v = 0)) as [H0|Hpos]; [by rewrite PopBack_empty|].
  unfold PopBack.
  eapply ensures_bind with
    (N' := λ v' _, size_ v' = size_ v ∧ capacity_ (data_ v') = Capacity v).
  - apply ensures_plus. intros p. by apply on_data_keeps.
  - intros v' _ [Hs Hc]. simpl. rewrite Hs, size_t_sub_le by lia. split; [lia|done].
Qed.

Lemma Reserve_dims v n :
  ensures
    (λ v' _, size_ v' = size_ v ∧
             capacity_ (data_ v') = if n <=? Capacity v then Capacity v else n)
    (λ v', size_ v' = size_ v ∧ capacity_ (data_ v') = Capacity v)
    (Reserve v n).
Proof.
  unfold Reserve, Capacity. destruct (n <=? capacity_ (data_ v)); [done|].
  destruct (RawMemory_new n) as [tr new_data] eqn:Hnew.
  assert (capacity_ new_data = n) as Hn.
  { unfold RawMemory_new in Hnew. destruct (Allocate n). by injection Hnew as _ <-. }
  apply ensures_after, ensures_leave_scope.
  set (d := (size_ v, capacity_ (data_ v), n)).
  apply keeps_dims_bind with d.
  { apply keeps_dims_transfer. unfold frame_dims, d. simpl. by rewrite Hn. }
  { by intros s [= -> -> _]. }
  intros s _ Hs. apply keeps_dims_bind with d.
  { by apply keeps_dims_on_this. }
  { by intros s' [= -> -> _]. }
  intros s' _ [= Hsz Hcap Hg]. simpl. by rewrite Hsz, Hg.
Qed.

Lemma Resize_dims v new_size :
  ensures
    (λ v' _, size_ v' = new_size ∧ Capacity v ≤ capacity_ (data_ v') ∧
             (size_ v < new_size → new_size ≤ capacity_ (data_ v')))
    (λ v', size_ v' = size_ v ∧ Capacity v ≤ capacity_ (data_ v'))
    (Resize v new_size).
Proof.
  unfold Resize.
  destruct (new_size <? size_ v) eqn:Hlt; [|destruct (size_ v <? new_size) eqn:Hgt].
  - apply Nat.ltb_lt in Hlt.
    eapply ensures_bind with
      (N' := λ v' _, size_ v' = size_ v ∧ capacity_ (data_ v') = Capacity v).
    + apply ensures_plus. intros p.
      eapply ensures_weaken; [by apply on_data_keeps|done|].
      intros v' [-> ->]. done.
    + intros v' _ [Hs Hc]. simpl. rewrite Hc. split_and!; [done|done|lia].
  - apply Nat.ltb_lt in Hgt.
    eapply ensures_bind.
    + eapply ensures_weaken; [apply Reserve_dims|intros s a Hs; exact Hs|].
      intros v' [-> ->]. done.
    + intros v1 _ [Hs1 Hc1]. simpl in Hc1.
      assert (new_size ≤ capacity_ (data_ v1) ∧ Capacity v ≤ capacity_ (data_ v1)) as [Hn Hc].
      { rewrite Hc1. destruct (new_size <=? Capacity v) eqn:Hle;
          [apply Nat.leb_le in Hle|apply Nat.leb_gt in Hle]; lia. }
      eapply ensures_bind with
        (N' := λ v' _, size_ v' = size_ v ∧ capacity_ (data_ v') = capacity_ (data_ v1)).
      * apply ensures_plus. intros p.
        eapply ensures_weaken;
          [by apply (on_data_keeps v1 (size_ v) (capacity_ (data_ v1)))|done|].
        intros v' [-> ->]. done.
      * intros v' _ [Hs' Hc']. simpl. rewrite Hc'. done.
  - apply Nat.ltb_ge in Hlt, Hgt. simpl. split_and!; [lia|done|lia].
Qed.

Lemma RawMemory_new_capacity n : capacity_ (RawMemory_new n).2 = n.
Proof. unfold RawMemory_new. by destruct (Allocate n). Qed.

Lemma Vector_sized_dims n :
  ensures (λ _ v, size_ v = n ∧ capacity_ (data_ v) = n) (λ _, True) (Vector_sized n).
Proof.
  unfold Vector_sized. pose proof (RawMemory_new_capacity n) as Hn.
  destruct (RawMemory_new n) as [tr data]. simpl in Hn.
  apply ensures_after.
  by destruct (uninitialized_value_construct_n _ _ _).
Qed.

Lemma Vector_copy_dims other :
  ensures (λ _ v, size_ v = size_ other ∧ capacity_ (data_ v) = size_ other) (λ _, True)
    (Vector_copy other).
Proof.
  unfold Vector_copy. pose proof (RawMemory_new_capacity (size_ other)) as Hn.
  destruct (RawMemory_new (size_ other)) as [tr data]. simpl in Hn.
  apply ensures_after.
  by destruct (uninitialized_copy_n _ _ _ _ _).
Qed.

Lemma copy_assign_dims this rhs :
  size_within_capacity this →
  ensures (λ v' _, size_ v' = size_ rhs ∧ size_within_capacity v') size_within_capacity
    (copy_assign this rhs).
Proof.
  intros Hinv. unfold copy_assign.
  destruct (Capacity this <? size_ rhs) eqn:Hlt.
  - pose proof (Vector_copy_dims rhs) as Hcopy.
    destruct (Vector_copy rhs) as [tr [] rhs_copy|tr [] e| |]; simpl in *; try done.
    destruct Hcopy as [Hs Hc].
    apply ensures_after, ensures_in_state; unfold size_within_capacity; simpl; intros; lia.
  - apply Nat.ltb_ge in Hlt.
    eapply ensures_bind with
      (N' := λ v' _, size_ v' = size_ this ∧ capacity_ (data_ v') = Capacity this).
    + assert (∀ m : result Vector unit,
        ensures (λ v' _, size_ v' = size_ this ∧ capacity_ (data_ v') = Capacity this)
                (λ v', size_ v' = size_ this ∧ capacity_ (data_ v') = Capacity this) m →
        ensures (λ v' _, size_ v' = size_ this ∧ capacity_ (data_ v') = Capacity this)
                size_within_capacity m) as Hweak.
      { intros m Hm. eapply ensures_weaken; [exact Hm|done|].
        intros v' [Hs Hc]. unfold size_within_capacity in *. by rewrite Hs, Hc. }
      apply Hweak. destruct (size_ rhs <? size_ this).
      * eapply ensures_bind; [by apply on_data_keeps|].
        intros v1 _ [Hs1 Hc1]. apply ensures_plus. intros p. by apply on_data_keeps.
      * eapply ensures_bind; [by apply on_data_keeps|].
        intros v1 _ [Hs1 Hc1]. apply ensures_plus. intros from.
        apply ensures_plus. intros to. by apply on_data_keeps.
    + intros v' _ [Hs Hc]. unfold size_within_capacity. simpl. split; [done|].
      rewrite Hc. done.
Qed.

Lemma Swap_dims this other :
  size_within_capacity this → size_within_capacity other →
  size_within_capacity (Swap this other).1 ∧ size_within_capacity (Swap this other).2.
Proof. done. Qed.

Lemma Vector_move_dims other :
  size_within_capacity other →
  size_within_capacity (Vector_move other).1 ∧ size_within_capacity (Vector_move other).2.
Proof. intros. split; [done|]. unfold size_within_capacity. simpl. lia. Qed.

Lemma move_assign_dims (h : gmap nat Vector) this rhs :
  map_Forall (λ _, size_within_capacity) h →
  ensures (λ h' _, map_Forall (λ _, size_within_capacity) h')
          (map_Forall (λ _, size_within_capacity)) (move_assign h this rhs).
Proof.
  intros Hh. unfold move_assign.
  destruct (h !! this) as [a|] eqn:Ha; [|done].
  destruct (h !! rhs) as [b|] eqn:Hb; [|done].
  case_bool_decide; [|done]. simpl.
  apply map_Forall_insert_2; [exact (Hh this a Ha)|].
  apply map_Forall_insert_2; [exact (Hh rhs b Hb)|done].
Qed.

Lemma operator_assign_dims (h : gmap nat Vector) this rhs :
  map_Forall (λ _, size_within_capacity) h →
  ensures (λ h' _, map_Forall (λ _, size_within_capacity) h')
          (map_Forall (λ _, size_within_capacity)) (operator_assign h this rhs).
Proof.
  intros Hh. unfold operator_assign.
  destruct (h !! this) as [a|] eqn:Ha; [|done].
  destruct (h !! rhs) as [b|] eqn:Hb; [|done].
  case_bool_decide; [|done].
  pose proof (copy_assign_dims a b (Hh this a Ha)) as Hcopy.
  destruct (copy_assign a b) as [tr a' []|tr a' e| |]; simpl in *; try done.
  - destruct Hcopy as [_ Hcopy]. by apply map_Forall_insert_2.
  - by apply map_Forall_insert_2.
Qed.

Lemma move_construct_dims (h : gmap nat Vector) this other :
  map_Forall (λ _, size_within_capacity) h →
  ensures (λ h' _, map_Forall (λ _, size_within_capacity) h')
          (map_Forall (λ _, size_within_capacity)) (move_construct h this other).
Proof.
  intros Hh. unfold move_construct.
  destruct (h !! this) as [a|] eqn:Ha; [done|].
  destruct (h !! other) as [b|] eqn:Hb; [|done]. simpl.
  apply map_Forall_insert_2; [unfold size_within_capacity; simpl; lia|].
  apply map_Forall_insert_2; [exact (Hh other b Hb)|done].
Qed.

Lemma Swap_objects_dims (h : gmap nat Vector) this other :
  map_Forall (λ _, size_within_capacity) h → all_within_capacity (Swap_objects h this other).
Proof.
  intros Hh. unfold Swap_objects, all_within_capacity.
  destruct (h !! this) as [a|] eqn:Ha; [|done].
  destruct (h !! other) as [b|] eqn:Hb; [|done].
  case_bool_decide; [|done]. simpl.
  apply map_Forall_insert_2; [exact (Hh this a Ha)|].
  apply map_Forall_insert_2; [exact (Hh other b Hb)|done].
Qed.

(** C9: a default-constructed vector has size 0 and capacity 0, the sized
    and the copy constructor yield a vector whose size is within its
    capacity, and every public operation applied to vectors whose size is
    within their capacity leaves them so, when it returns and when an
    exception escapes from it: Reserve, Resize, PushBack, EmplaceBack,
    PopBack on a non-empty vector, Emplace, both Insert overloads, Erase at
    a position before end, and, on objects at addresses, copy assignment,
    move assignment, move construction and Swap. *)
Theorem size_never_exceeds_capacity (v : Vector) (h : gmap nat Vector) :
  size_within_capacity v →
  map_Forall (λ _, size_within_capacity) h →
  (Size Vector_default = 0 ∧ Capacity Vector_default = 0) ∧
  (∀ n, constructs_within_capacity (Vector_sized n)) ∧
  (∀ other, constructs_within_capacity (Vector_copy other)) ∧
  (∀ n, keeps_within_capacity (Reserve v n)) ∧
  (∀ n, keeps_within_capacity (Resize v n)) ∧
  (∀ value, keeps_within_capacity (PushBack v value)) ∧
  (∀ args, keeps_within_capacity (EmplaceBack v args)) ∧
  (0 < Size v → keeps_within_capacity (PopBack v)) ∧
  (∀ pos args, keeps_within_capacity (Emplace v pos args)) ∧
  (∀ pos value, keeps_within_capacity (Insert v pos value)) ∧
  (∀ pos value, keeps_within_capacity (Insert_rvalue v pos value)) ∧
  (∀ pos, (begin v ≤ pos < end_ v)%Z → keeps_within_capacity (Erase v pos)) ∧
  (∀ this rhs, all_within_capacity (operator_assign h this rhs)) ∧
  (∀ this rhs, all_within_capacity (move_assign h this rhs)) ∧
  (∀ this other, all_within_capacity (move_construct h this other)) ∧
  (∀ this other, all_within_capacity (Swap_objects h this other)).
Proof.
  intros Hv Hh. unfold size_within_capacity in Hv.
  assert (∀ A (m : result Vector A),
    ensures (λ v' _, size_ v' = size_ v + 1 ∧
               capacity_ (data_ v') = if size_ v =? Capacity v then grown (size_ v) else Capacity v)
            (λ v', size_ v' = size_ v ∧ capacity_ (data_ v') = Capacity v) m →
    keeps_within_capacity m) as Hgrow.
  { intros A m Hm. eapply ensures_weaken; [exact Hm|..]; unfold size_within_capacity.
    - intros v' _ [-> ->]. pose proof (grown_gt (size_ v)). unfold Capacity.
      destruct (size_ v =? capacity_ (data_ v)) eqn:Heq; [lia|].
      apply Nat.eqb_neq in Heq. lia.
    - intros v' [-> ->]. done. }
  split_and!.
  - done.
  - done.
  - intros n. eapply ensures_weaken; [apply Vector_sized_dims|..]; [|done].
    intros _ v' [Hs Hc]. unfold size_within_capacity. lia.
  - intros other. eapply ensures_weaken; [apply Vector_copy_dims|..]; [|done].
    intros _ v' [Hs Hc]. unfold size_within_capacity. lia.
  - intros n. eapply ensures_weaken; [apply Reserve_dims|..]; unfold size_within_capacity.
    + intros v' _ [-> ->]. unfold Capacity.
      destruct (n <=? capacity_ (data_ v)) eqn:Hle; [done|]. apply Nat.leb_gt in Hle. lia.
    + intros v' [-> ->]. done.
  - intros n. eapply ensures_weaken; [apply Resize_dims|..]; unfold size_within_capacity, Capacity.
    + intros v' _ (-> & Hc & Hn). destruct (decide (size_ v < n)); [auto|lia].
    + intros v' [-> Hc]. lia.
  - intros value. apply Hgrow, PushBack_dims.
  - intros args. eapply ensures_weaken; [apply EmplaceBack_dims|..]; unfold size_within_capacity.
    + intros v' _ [-> ->]. pose proof (grown_gt (size_ v)). unfold Capacity.
      destruct (size_ v <? capacity_ (data_ v)) eqn:Hlt; [|lia].
      apply Nat.ltb_lt in Hlt. lia.
    + intros v' [-> ->]. done.
  - intros Hpos. eapply ensures_weaken; [apply PopBack_dims|..]; unfold size_within_capacity.
    + intros v' _ (_ & -> & ->). unfold Capacity. lia.
    + intros v' [-> ->]. done.
  - intros pos args. apply Hgrow, Emplace_dims.
  - intros pos value. apply Hgrow, Emplace_dims.
  - intros pos value. apply Hgrow, Emplace_dims.
  - intros pos Hpos. unfold begin, end_, GetAddress in Hpos.
    eapply ensures_weaken; [apply Erase_dims|..]; unfold size_within_capacity.
    + intros v' _ [-> ->]. rewrite size_t_sub_le by lia. unfold Capacity. lia.
    + intros v' [-> ->]. done.
  - intros this rhs. by apply operator_assign_dims.
  - intros this rhs. by apply move_assign_dims.
  - intros this other. by apply move_construct_dims.
  - intros this other. by apply Swap_objects_dims.
Qed.

(** ** Reserve *)

Lemma Reserve_throw ys z zs e c n :
  length (ys ++ z :: zs) ≤ c → c < n →
  Forall (λ y, transfer_throws y = None) ys → transfer_throws z = Some e →
  Reserve (vector_of (ys ++ z :: zs) c) n
  = Raised ([EvAllocate n] ++ (transfer_event <$> ys) ++ (EvDestroy <$> ys) ++ [EvDeallocate n])
      (vector_of ((left_behind <$> ys) ++ z :: zs) c) e.
Proof.
  intros Hle Hlt Hok Hz. unfold Reserve, vector_of. simpl.
  rewrite (proj2 (Nat.leb_gt _ _)) by done.
  unfold RawMemory_new, Allocate. rewrite (proj2 (Nat.eqb_neq n 0)) by lia.
  unfold transfer, GetAddress. simpl.
  replace n with (length (ys ++ z :: zs) + (n - length (ys ++ z :: zs))) at 2 by lia.
  rewrite replicate_add.
  rewrite (UninitializedMoveOrCopy_front_throw ys z zs e) by done.
  simpl. unfold set_buffer, with_buffer, RawMemory_dtor. simpl.
  rewrite <- replicate_add, !length_app, length_fmap, <- app_assoc. simpl.
  rewrite length_app in Hle. simpl in Hle.
  replace (length ys + S (length zs) + (n - (length ys + S (length zs)))) with n by lia.
  destruct n as [|n']; [lia|]. simpl. by rewrite length_replicate.
Qed.


(** PopBack in general: on an empty vector its behaviour is undefined,
    and no assertion stops it, with assertions enabled or not; on a vector
    that holds xs followed by x, PopBack destroys the last element x and
    nothing else, the size goes down by one, the capacity stays, and the
    vector holds xs. *)
Theorem PopBack_contract (v : Vector) :
  (Size v = 0 → PopBack v = Undefined ∧ PopBack v ≠ AssertFailed) ∧
  (∀ xs x, represents v (xs ++ [x]) →
     ∃ v', PopBack v = Normal [EvDestroy x] v' tt ∧
           Size v' = Size v - 1 ∧ Capacity v' = Capacity v ∧ represents v' xs).
Proof.
  split.
  - intros Hs. by rewrite PopBack_empty.
  - intros xs x Hrep. apply represents_inv in Hrep as (c & -> & Hle).
    rewrite length_app in Hle. simpl in Hle.
    exists (vector_of xs c).
    rewrite PopBack_last by lia. split_and!; [done| |done|].
    + unfold Size, vector_of. simpl. rewrite length_app. simpl. lia.
    + apply vector_of_represents. lia.
Qed.

(** C10: on a vector that holds xs, when T(args...) yields x (and, if the
    vector is full, no transfer of an element throws), EmplaceBack returns a
    reference bound to the slot at index size-1 of the buffer the vector
    owns afterwards, that slot holds x, the vector holds xs followed by x;
    this covers the in-place path and the reallocating path. *)
Theorem EmplaceBack_returns_new_element (v : Vector) (xs : list T) (args : init T Args) (x : T) :
  represents v xs →
  construct_from args = inr x →
  (Size v = Capacity v → Forall (λ y, transfer_throws y = None) xs) →
  ∃ tr v' p,
    EmplaceBack v args = Normal tr v' p ∧
    p = (begin v' + Z.of_nat (Size v') - 1)%Z ∧
    read (buffer_ (data_ v')) p = Some x ∧
    Size v' = Size v + 1 ∧
    represents v' (xs ++ [x]) ∧
    Capacity v' = (if Size v <? Capacity v then Capacity v else grown (Size v)).
Proof.
  intros Hrep Hx Hok. apply represents_inv in Hrep as (c & -> & Hle).
  change (Capacity (vector_of xs c)) with c in *.
  change (Size (vector_of xs c)) with (length xs) in *.
  assert (∀ c, length xs < c →
    read (buffer_ (data_ (vector_of (xs ++ [x]) c))) (Z.of_nat (length xs)) = Some x) as Hread.
  { intros c' Hc. rewrite <- vector_of_snoc. simpl.
    rewrite <- (length_fmap Some xs). apply read_middle. }
  destruct (decide (length xs = c)) as [<-|Hspare].
  - rewrite (EmplaceBack_grow xs args x) by (done || by apply Hok).
    pose proof (grown_gt (length xs)).
    eexists _, _, _. split_and!; [done|..].
    + unfold begin, GetAddress, Size, vector_of. simpl. rewrite length_app. simpl. lia.
    + by apply Hread.
    + unfold Size, vector_of. simpl. rewrite length_app. simpl. lia.
    + apply vector_of_represents. rewrite length_app. simpl. lia.
    + unfold Capacity, vector_of. simpl. by rewrite Nat.ltb_irrefl.
  - rewrite (EmplaceBack_in_place xs c args x) by (done || lia).
    eexists _, _, _. split_and!; [done|..].
    + unfold begin, GetAddress, Size, vector_of. simpl. rewrite length_app. simpl. lia.
    + apply Hread. lia.
    + unfold Size, vector_of. simpl. rewrite length_app. simpl. lia.
    + apply vector_of_represents. rewrite length_app. simpl. lia.
    + rewrite (proj2 (Nat.ltb_lt _ _)) by lia. done.
Qed.

(** ** An append that has to grow *)

Lemma Deallocate_length (b : buffer) : 0 < length b → Deallocate b = [EvDeallocate (length b)].
Proof. destruct b; simpl; [lia|done]. Qed.

Lemma PushBack_transfer_throws ys z zs e value x :
  construct_from value = inr x →
  Forall (λ y, transfer_throws y = None) ys → transfer_throws z = Some e →
  PushBack (vector_of (ys ++ z :: zs) (length (ys ++ z :: zs))) value
  = Raised ([EvAllocate (grown (length (ys ++ z :: zs))); init_event value x]
            ++ (transfer_event <$> ys) ++ (EvDestroy <$> ys)
            ++ [EvDeallocate (grown (length (ys ++ z :: zs)))])
      (vector_of ((left_behind <$> ys) ++ z :: zs) (length (ys ++ z :: zs))) e.
Proof.
  intros Hx Hok Hz.
  pose proof (grown_gt (length (ys ++ z :: zs))) as Hgt.
  unfold PushBack, vector_of, Capacity. simpl.
  rewrite Nat.eqb_refl, RawMemory_new_grown, Nat.sub_diag. simpl.
  rewrite RawMemory_plus_le by (simpl; lia).
  unfold on_new. simpl.
  rewrite (replicate_split (length (ys ++ z :: zs)) (grown (length (ys ++ z :: zs)))) by done.
  erewrite placement_new_at; [|by rewrite length_replicate|done].
  simpl. unfold transfer, with_buffer, GetAddress. simpl.
  rewrite (UninitializedMoveOrCopy_front_throw ys z zs e) by done.
  simpl. unfold set_buffer, with_buffer, RawMemory_dtor. simpl.
  rewrite Deallocate_length by (rewrite length_app; simpl; lia).
  rewrite (length_app (replicate _ _)), length_replicate. simpl. rewrite length_replicate.
  replace (length (ys ++ z :: zs) + S (grown (length (ys ++ z :: zs)) - S (length (ys ++ z :: zs))))
    with (grown (length (ys ++ z :: zs))) by lia.
  replace (length ((left_behind <$> ys) ++ z :: zs)) with (length (ys ++ z :: zs))
    by (by rewrite !length_app, length_fmap).
  by rewrite Nat.sub_diag, <- app_assoc.
Qed.

Lemma EmplaceBack_transfer_throws ys z zs e args x :
  construct_from args = inr x →
  Forall (λ y, transfer_throws y = None) ys → transfer_throws z = Some e →
  EmplaceBack (vector_of (ys ++ z :: zs) (length (ys ++ z :: zs))) args
  = Raised ([EvAllocate (grown (length (ys ++ z :: zs))); init_event args x]
            ++ (transfer_event <$> ys) ++ (EvDestroy <$> ys)
            ++ [EvDeallocate (grown (length (ys ++ z :: zs)))])
      (vector_of ((left_behind <$> ys) ++ z :: zs) (length (ys ++ z :: zs))) e.
Proof.
  intros Hx Hok Hz.
  pose proof (grown_gt (length (ys ++ z :: zs))) as Hgt.
  unfold EmplaceBack, vector_of, Capacity. simpl.
  rewrite Nat.ltb_irrefl, RawMemory_new_grown, Nat.sub_diag. simpl.
  rewrite RawMemory_plus_le by (simpl; lia).
  unfold on_new. simpl.
  rewrite (replicate_split (length (ys ++ z :: zs)) (grown (length (ys ++ z :: zs)))) by done.
  erewrite placement_new_at; [|by rewrite length_replicate|done].
  simpl. unfold transfer, with_buffer, GetAddress. simpl.
  rewrite (UninitializedMoveOrCopy_front_throw ys z zs e) by done.
  simpl. unfold set_buffer, with_buffer, RawMemory_dtor. simpl.
  rewrite Deallocate_length by (rewrite length_app; simpl; lia).
  rewrite (length_app (replicate _ _)), length_replicate. simpl. rewrite length_replicate.
  replace (length (ys ++ z :: zs) + S (grown (length (ys ++ z :: zs)) - S (length (ys ++ z :: zs))))
    with (grown (length (ys ++ z :: zs))) by lia.
  replace (length ((left_behind <$> ys) ++ z :: zs)) with (length (ys ++ z :: zs))
    by (by rewrite !length_app, length_fmap).
  by rewrite Nat.sub_diag, <- app_assoc.
Qed.

Lemma PushBack_in_place_throws xs c value e :
  length xs < c →
  construct_from value = inl e →
  PushBack (vector_of xs c) value = Raised [] (vector_of xs c) e.
Proof.
  intros Hlt He. rewrite vector_of_spare by done.
  unfold PushBack, Capacity. simpl.
  rewrite (proj2 (Nat.eqb_neq _ _)) by lia.
  rewrite RawMemory_plus_le by (simpl; lia).
  unfold on_data. simpl.
  erewrite placement_new_throws; [|by rewrite length_fmap|done].
  done.
Qed.

Lemma EmplaceBack_in_place_throws xs c args e :
  length xs < c →
  construct_from args = inl e →
  EmplaceBack (vector_of xs c) args = Raised [] (vector_of xs c) e.
Proof.
  intros Hlt He. rewrite vector_of_spare by done.
  unfold EmplaceBack, Capacity. simpl.
  rewrite (proj2 (Nat.ltb_lt _ _)) by lia.
  rewrite RawMemory_plus_le by (simpl; lia).
  unfold on_data. simpl.
  erewrite placement_new_throws; [|by rewrite length_fmap|done].
  done.
Qed.

(** X28: on a vector that holds a sequence, PushBack and EmplaceBack
    always return or throw, and so does Reserve(n) for a request whose byte
    count n * sizeof(T) does not wrap in size_t: no assertion fails and
    nothing is undefined. *)
Theorem append_and_reserve_defined (v : Vector) (xs : list T) (value : init T Args) (n : nat) :
  represents v xs →
  defined (PushBack v value) ∧ defined (EmplaceBack v value) ∧
  (allocatable n → defined (Reserve v n)).
Proof.
  intros (c & -> & Hle)%represents_inv.
  assert (allocatable n → defined (Reserve (vector_of xs c) n)) as Hreserve.
  { intros _. destruct (decide (n ≤ c)) as [Hn|Hn].
    - by rewrite Reserve_noop.
    - destruct (first_throw_split transfer_throws xs) as [Hok|(ys & z & zs & e & -> & Hok & Hz)].
      + by rewrite Reserve_grow by (done || lia).
      + by rewrite (Reserve_throw ys z zs e) by (done || lia). }
  split_and!; [| |done].
  - destruct (construct_from value) as [e|x] eqn:Hx.
    + destruct (decide (length xs = c)) as [<-|Hne].
      * by rewrite (PushBack_throws _ value e).
      * by rewrite (PushBack_in_place_throws xs c value e) by (done || lia).
    + destruct (decide (length xs = c)) as [<-|Hne].
      * destruct (first_throw_split transfer_throws xs)
          as [Hok|(ys & z & zs & e & -> & Hok & Hz)].
        -- by rewrite (PushBack_grow xs value x).
        -- by rewrite (PushBack_transfer_throws ys z zs e value x).
      * by rewrite (PushBack_in_place xs c value x) by (done || lia).
  - destruct (construct_from value) as [e|x] eqn:Hx.
    + destruct (decide (length xs = c)) as [<-|Hne].
      * by rewrite (EmplaceBack_throws _ value e).
      * by rewrite (EmplaceBack_in_place_throws xs c value e) by (done || lia).
    + destruct (decide (length xs = c)) as [<-|Hne].
      * destruct (first_throw_split transfer_throws xs)
          as [Hok|(ys & z & zs & e & -> & Hok & Hz)].
        -- by rewrite (EmplaceBack_grow xs value x).
        -- by rewrite (EmplaceBack_transfer_throws ys z zs e value x).
      * by rewrite (EmplaceBack_in_place xs c value x) by (done || lia).
Qed.

(** C4: on a vector whose size equals its capacity, PushBack and
    EmplaceBack allocate a buffer of max(1, 2*size) slots and construct the
    new element next, before any operation on an existing element.  If that
    construction throws e, the call lets e escape after the allocation and
    the release of the new buffer and nothing else, and leaves the vector
    exactly as it was.  If it yields x and the vector holds xs, the trace of
    the call begins with the allocation and the construction of x; when no
    transfer throws the call returns, the capacity is max(1, 2*size), the
    slot at index size of the new buffer holds x and the vector holds xs
    followed by x. *)
Theorem growing_append_constructs_first (v : Vector) (value : init T Args) :
  Size v = Capacity v →
  (∀ e, construct_from value = inl e →
     PushBack v value
     = Raised [EvAllocate (Nat.max 1 (2 * Size v)); EvDeallocate (Nat.max 1 (2 * Size v))] v e ∧
     EmplaceBack v value
     = Raised [EvAllocate (Nat.max 1 (2 * Size v)); EvDeallocate (Nat.max 1 (2 * Size v))] v e) ∧
  (∀ x xs, construct_from value = inr x → represents v xs →
     trace_starts [EvAllocate (Nat.max 1 (2 * Size v)); init_event value x] (PushBack v value) ∧
     trace_starts [EvAllocate (Nat.max 1 (2 * Size v)); init_event value x] (EmplaceBack v value) ∧
     (Forall (λ y, transfer_throws y = None) xs →
        ∃ tr v',
          PushBack v value = Normal tr v' tt ∧
          EmplaceBack v value = Normal tr v' (Z.of_nat (Size v)) ∧
          Capacity v' = Nat.max 1 (2 * Size v) ∧
          read (buffer_ (data_ v')) (Z.of_nat (Size v)) = Some x ∧
          represents v' (xs ++ [x]))).
Proof.
  intros Hfull. rewrite <- grown_max. split.
  - intros e He. by rewrite (PushBack_throws v value e), (EmplaceBack_throws v value e).
  - intros x xs Hx Hrep. apply represents_inv in Hrep as (c & -> & Hle).
    change (length xs = c) in Hfull. subst c.
    change (Size (vector_of xs (length xs))) with (length xs).
    pose proof (grown_gt (length xs)) as Hgt.
    destruct (first_throw_split transfer_throws xs) as [Hok|(ys & z & zs & e & -> & Hok & Hz)].
    + rewrite (PushBack_grow xs value x), (EmplaceBack_grow xs value x) by done.
      split_and!; [simpl; eauto|simpl; eauto|]. intros _.
      eexists _, _. split_and!; [done|done|done| |].
      * rewrite <- vector_of_snoc. simpl.
        rewrite <- (length_fmap Some xs). apply read_middle.
      * apply vector_of_represents. rewrite length_app. simpl. lia.
    + rewrite (PushBack_transfer_throws ys z zs e value x),
        (EmplaceBack_transfer_throws ys z zs e value x) by done.
      split_and!; [simpl; eauto|simpl; eauto|]. intros Hall.
      apply Forall_app in Hall as [_ Hall]. apply Forall_cons in Hall as [Hz' _]. congruence.
Qed.

(** ** Growth over a run of PushBack calls *)

Lemma capacity_after_ge n : n ≤ capacity_after n.
Proof.
  unfold capacity_after. destruct (n =? 0) eqn:Hn; [apply Nat.eqb_eq in Hn; lia|].
  apply Nat.eqb_neq in Hn.
  destruct (decide (n = 1)) as [->|]; [simpl; lia|].
  apply (Nat.log2_up_spec n). lia.
Qed.

Lemma capacity_after_full n : n = capacity_after n → capacity_after (S n) = grown n.
Proof.
  unfold capacity_after, grown. destruct (n =? 0) eqn:Hn; simpl.
  - apply Nat.eqb_eq in Hn. by subst.
  - intros Hfull. rewrite Hfull at 1.
    rewrite Nat.log2_up_succ_pow2 by lia.
    rewrite Nat.pow_succ_r', <- Hfull. lia.
Qed.

Lemma capacity_after_spare n : n < capacity_after n → capacity_after (S n) = capacity_after n.
Proof.
  unfold capacity_after. destruct (n =? 0) eqn:Hn; simpl; [lia|].
  apply Nat.eqb_neq in Hn. intros Hlt. f_equal.
  apply Nat.le_antisymm.
  - apply Nat.log2_up_le_pow2; lia.
  - apply Nat.log2_up_le_mono. lia.
Qed.

Lemma capacity_after_step k :
  capacity_after (S k) = capacity_after k ∨
  capacity_after (S k) = Nat.max 1 (2 * capacity_after k).
Proof.
  pose proof (capacity_after_ge k) as Hge.
  destruct (decide (k = capacity_after k)) as [Hfull|Hne].
  - right. rewrite capacity_after_full, grown_max by done. by rewrite <- Hfull.
  - left. apply capacity_after_spare. lia.
Qed.

Lemma capacity_changes_S n :
  capacity_changes (S n)
  = capacity_changes n + (if decide (capacity_after n ≠ capacity_after (S n)) then 1 else 0).
Proof.
  unfold capacity_changes. rewrite seq_S, filter_app, length_app. simpl.
  f_equal. rewrite filter_cons. by destruct (decide _).
Qed.

Lemma capacity_changes_exact n :
  capacity_changes n = if n =? 0 then 0 else S (Nat.log2_up n).
Proof.
  induction n as [|n IH]; [done|].
  rewrite capacity_changes_S, IH. clear IH.
  destruct n as [|n]; [done|]. simpl Nat.eqb. cbv iota.
  unfold capacity_after. simpl Nat.eqb. cbv iota.
  destruct (Nat.log2_up_succ_or (S n)) as [Hup|Hsame].
  - rewrite Hup. rewrite decide_True; [lia|].
    rewrite Nat.pow_succ_r'. pose proof (Nat.pow_nonzero 2 (Nat.log2_up (S n))). lia.
  - rewrite Hsame. rewrite decide_False; [lia|]. intros Hne. by apply Hne.
Qed.

Lemma push_all_from (values : list (init T Args)) : ∀ (xs0 xs : list T),
  Forall2 (λ value x, construct_from value = inr x) values xs →
  Forall (λ y, transfer_throws y = None) (xs0 ++ xs) →
  ∃ tr, push_all (vector_of xs0 (capacity_after (length xs0))) values
        = Normal tr (vector_of (xs0 ++ xs) (capacity_after (length xs0 + length values))) tt.
Proof.
  induction values as [|value values IH]; intros xs0 xs Hvals Hok.
  - apply Forall2_nil_inv_l in Hvals as ->. simpl.
    rewrite app_nil_r, Nat.add_0_r. eauto.
  - apply Forall2_cons_inv_l in Hvals as (x & xs' & Hx & Hvals & ->). simpl.
    pose proof (capacity_after_ge (length xs0)) as Hge.
    assert (∃ tr, PushBack (vector_of xs0 (capacity_after (length xs0))) value
                  = Normal tr (vector_of (xs0 ++ [x]) (capacity_after (length (xs0 ++ [x])))) tt)
      as [tr ->].
    { rewrite length_app. simpl. rewrite Nat.add_1_r.
      destruct (decide (length xs0 = capacity_after (length xs0))) as [Hfull|Hne].
      - rewrite capacity_after_full by done. rewrite <- Hfull.
        rewrite (PushBack_grow xs0 value x); [eauto|done|].
        by apply Forall_app in Hok as [? _].
      - rewrite capacity_after_spare by lia.
        rewrite (PushBack_in_place xs0 _ value x) by (done || lia). eauto. }
    simpl.
    destruct (IH (xs0 ++ [x]) xs') as [tr' ->]; [done|by rewrite <- app_assoc|].
    simpl. rewrite <- app_assoc, length_app. simpl.
    replace (length xs0 + 1 + length values) with (length xs0 + S (length values)) by lia.
    eauto.
Qed.

(** C5: n PushBack calls in a row on a default-constructed vector, whose
    constructions and transfers do not throw, all return; after them the
    vector holds the n values pushed and its capacity is the n-th term of the
    sequence 0, 1, 2, 4, 4, 8, ...: 0 for n = 0 and the least power of two
    that is at least n otherwise (the statement holds for every run, hence
    after each of the first k calls of a longer one).  From one term of that
    sequence to the next the capacity stays or becomes max(1, twice it), so
    the values taken are 0, 1, 2, 4, 8, ... in this order, and among the
    first n calls the capacity changes at most log2_up n + 1 times. *)
Theorem PushBack_capacity_doubles (values : list (init T Args)) (xs : list T) :
  Forall2 (λ value x, construct_from value = inr x) values xs →
  Forall (λ y, transfer_throws y = None) xs →
  (∃ tr v',
     push_all Vector_default values = Normal tr v' tt ∧
     represents v' xs ∧
     Capacity v' = capacity_after (length values)) ∧
  capacity_after 0 = 0 ∧
  (∀ k, capacity_after (S k) = capacity_after k ∨
        capacity_after (S k) = Nat.max 1 (2 * capacity_after k)) ∧
  (∀ k, 0 < k → capacity_after k = 2 ^ Nat.log2_up k) ∧
  capacity_changes (length values) ≤ Nat.log2_up (length values) + 1.
Proof.
  intros Hvals Hok. split_and!.
  - destruct (push_all_from values [] xs Hvals Hok) as [tr Hrun].
    exists tr, (vector_of xs (capacity_after (length values))).
    split_and!; [exact Hrun| |done].
    apply vector_of_represents.
    apply Forall2_length in Hvals as <-. apply capacity_after_ge.
  - done.
  - apply capacity_after_step.
  - intros k Hk. unfold capacity_after. by rewrite (proj2 (Nat.eqb_neq k 0)) by lia.
  - rewrite capacity_changes_exact. destruct (length values =? 0); lia.
Qed.

(** ** Insertion in the middle *)

Lemma move_assign_at_adjacent (pre post : buffer) x y :
  move_assign_throws y x = None →
  move_assign_at (pre ++ Some x :: Some y :: post)
    (Z.of_nat (length pre) + 1) (Z.of_nat (length pre))
  = Normal [EvMoveAssign x] (pre ++ Some (moved_from x) :: Some x :: post) tt.
Proof.
  intros Hok. unfold move_assign_at. rewrite read_middle, write_middle.
  rewrite (next_slot pre (Some x)).
  rewrite (cons_middle (Some x) pre), app_assoc, read_middle, Hok.
  rewrite (cons_middle (Some (moved_from x)) pre), app_assoc.
  replace (length (pre ++ [Some x])) with (length (pre ++ [Some (moved_from x)]))
    by (by rewrite !length_app).
  by rewrite write_middle, <- app_assoc.
Qed.

Lemma move_construct_at_adjacent (pre post : buffer) x s :
  move_throws x = None →
  move_construct_at (pre ++ Some x :: s :: post)
    (Z.of_nat (length pre) + 1) (Z.of_nat (length pre))
  = Normal [EvMoveCtor x] (pre ++ Some (moved_from x) :: Some x :: post) tt.
Proof.
  intros Hok. unfold move_construct_at. rewrite read_middle, write_middle.
  rewrite (next_slot pre (Some x)).
  rewrite (cons_middle (Some x) pre), app_assoc, valid_middle, Hok.
  rewrite (cons_middle (Some (moved_from x)) pre), app_assoc.
  replace (length (pre ++ [Some x])) with (length (pre ++ [Some (moved_from x)]))
    by (by rewrite !length_app).
  by rewrite write_middle, <- app_assoc.
Qed.

Lemma move_backward_loop_shift (ms : list T) : ∀ (pre post : buffer) (j : T),
  (∀ a b, move_assign_throws a b = None) →
  ∃ tr,
    move_backward_loop (length ms) (pre ++ (Some <$> ms) ++ Some j :: post)
      (Z.of_nat (length pre + length ms)) (Z.of_nat (length pre + length ms) + 1)
    = Normal tr (pre ++ shifted_right ms j ++ post) tt.
Proof.
  induction ms as [|m ms IH] using rev_ind; intros pre post j Hok.
  - simpl. eauto.
  - rewrite length_app. simpl. rewrite Nat.add_1_r. simpl.
    replace (Z.of_nat (length pre + S (length ms)) + 1 - 1)%Z
      with (Z.of_nat (length (pre ++ (Some <$> ms))) + 1)%Z
      by (rewrite length_app, length_fmap; lia).
    replace (Z.of_nat (length pre + S (length ms)) - 1)%Z
      with (Z.of_nat (length (pre ++ (Some <$> ms))))
      by (rewrite length_app, length_fmap; lia).
    rewrite fmap_app, <- (app_assoc (Some <$> ms)), app_assoc. simpl.
    rewrite move_assign_at_adjacent by done. simpl.
    rewrite <- app_assoc.
    replace (Z.of_nat (length (pre ++ (Some <$> ms))))
      with (Z.of_nat (length pre + length ms))
      by (by rewrite length_app, length_fmap).
    destruct (IH pre (Some m :: post) (moved_from m) Hok) as [tr ->]. simpl.
    eexists. f_equal. f_equal.
    destruct ms as [|m0 ms]; simpl; [done|].
    by rewrite fmap_app, <- app_assoc.
Qed.

Lemma size_t_of_ptrdiff_nat (i : nat) : size_t_of_ptrdiff (Z.of_nat i - 0) = i.
Proof.
  unfold size_t_of_ptrdiff. rewrite Z.sub_0_r.
  rewrite (proj2 (Z.ltb_ge _ _)) by lia. apply Nat2Z.id.
Qed.

(** Emplace before an element of a vector with spare capacity: the vector
    holds ys, zs and w, and the new element goes before the first of zs (or
    before w when zs is empty) *)
Lemma Emplace_in_place ys zs w c args x :
  length (ys ++ zs ++ [w]) < c →
  construct_from args = inr x →
  move_throws w = None →
  (∀ a b, move_assign_throws a b = None) →
  ∃ tr,
    Emplace (vector_of (ys ++ zs ++ [w]) c) (Z.of_nat (length ys)) args
    = Normal tr (vector_of (ys ++ x :: zs ++ [w]) c) (Z.of_nat (length ys)).
Proof.
  intros Hlt Hx Hw Hassign.
  assert (length (ys ++ zs ++ [w]) = S (length ys + length zs)) as Hlen
    by (rewrite !length_app; simpl; lia).
  assert (length (Some <$> ys ++ zs) = length ys + length zs) as Hpre
    by (by rewrite length_fmap, length_app).
  rewrite vector_of_spare by done.
  unfold Emplace, cbegin, Capacity, GetAddress. simpl.
  rewrite size_t_of_ptrdiff_nat.
  rewrite (proj2 (Nat.eqb_neq _ _)) by lia.
  unfold EmplaceWithoutRealoc. rewrite Hx.
  unfold on_data, end_, begin, GetAddress. simpl.
  rewrite Hlen, !Z.add_0_l.
  rewrite (app_assoc ys), fmap_app, <- (app_assoc (Some <$> ys ++ zs)). simpl.
  replace (Z.of_nat (S (length ys + length zs)) - 1)%Z
    with (Z.of_nat (length (Some <$> ys ++ zs))) by lia.
  replace (Z.of_nat (S (length ys + length zs)))
    with (Z.of_nat (length (Some <$> ys ++ zs)) + 1)%Z by lia.
  rewrite move_construct_at_adjacent by done. simpl.
  unfold move_backward. rewrite !Z.add_0_l.
  rewrite (proj2 (Z.ltb_ge _ _)) by lia.
  replace (Z.to_nat (Z.of_nat (S (length ys + length zs)) - 1 - Z.of_nat (length ys)))
    with (length zs) by lia.
  rewrite fmap_app, <- !(app_assoc (Some <$> ys)).
  replace (Z.of_nat (S (length ys + length zs)) - 1)%Z
    with (Z.of_nat (length (Some <$> ys) + length zs)) by (rewrite length_fmap; lia).
  replace (Z.of_nat (S (length ys + length zs)))
    with (Z.of_nat (length (Some <$> ys) + length zs) + 1)%Z by (rewrite length_fmap; lia).
  destruct (move_backward_loop_shift zs (Some <$> ys)
              (Some w :: replicate (c - S (S (length ys + length zs))) None)
              (moved_from w) Hassign) as [tr ->].
  simpl. unfold move_assign_from.
  assert (∃ j, shifted_right zs (moved_from w) = Some j :: (Some <$> zs)) as [j ->]
    by (destruct zs; simpl; eauto).
  simpl. rewrite <- (length_fmap Some ys), read_middle, write_middle, Hassign.
  simpl. rewrite !length_fmap. eexists. f_equal.
  assert (length (ys ++ x :: zs ++ [w]) = S (S (length ys + length zs))) as Hlen'
    by (rewrite !length_app; simpl; rewrite length_app; simpl; lia).
  unfold vector_of, set_size, set_buffer, with_buffer. simpl.
  rewrite Hlen', fmap_app, fmap_cons, fmap_app, <- !app_assoc. simpl.
  rewrite <- (app_assoc (Some <$> zs)). simpl.
  f_equal. lia.
Qed.

(** Emplace at any position of a full vector: the vector holds ys and zs,
    and the new element goes between them *)
Lemma Emplace_realloc ys zs args x :
  construct_from args = inr x →
  Forall (λ y, transfer_throws y = None) (ys ++ zs) →
  ∃ tr,
    Emplace (vector_of (ys ++ zs) (length (ys ++ zs))) (Z.of_nat (length ys)) args
    = Normal tr (vector_of (ys ++ x :: zs) (grown (length (ys ++ zs)))) (Z.of_nat (length ys)).
Proof.
  intros Hx [Hys Hzs]%Forall_app.
  pose proof (grown_gt (length (ys ++ zs))) as Hgt.
  assert (length (ys ++ zs) = length ys + length zs) as Hlen by apply length_app.
  unfold Emplace, cbegin, Capacity, GetAddress, vector_of. simpl.
  rewrite size_t_of_ptrdiff_nat, Nat.eqb_refl.
  unfold EmplaceWithRealoc. simpl. rewrite RawMemory_new_grown, Nat.sub_diag.
  unfold on_new, GetAddress. simpl. rewrite ?Z.add_0_l.
  rewrite (replicate_split (length ys) (grown (length (ys ++ zs)))) by lia.
  erewrite placement_new_at; [|by rewrite length_replicate|done].
  simpl. unfold transfer, set_buffer, with_buffer, GetAddress. simpl.
  rewrite fmap_app, <- !app_assoc.
  rewrite UninitializedMoveOrCopy_front by (done || by rewrite length_replicate).
  simpl. rewrite ?Z.add_0_l. rewrite size_t_sub_le by lia.
  replace (length (ys ++ zs) - length ys) with (length zs) by lia.
  replace (grown (length (ys ++ zs)) - S (length ys))
    with (length zs + (grown (length (ys ++ zs)) - S (length (ys ++ zs)))) by lia.
  rewrite replicate_add.
  rewrite (cons_middle (Some x) (Some <$> ys)), (app_assoc (Some <$> ys) [Some x]).
  rewrite (UninitializedMoveOrCopy_at zs (Some <$> (left_behind <$> ys)) []
             ((Some <$> ys) ++ [Some x])
             (replicate (grown (length (ys ++ zs)) - S (length (ys ++ zs))) None)
             (replicate (length zs) None));
    [|by rewrite !length_fmap|rewrite length_app, length_fmap; simpl; lia|done
     |by rewrite length_replicate|done].
  simpl. unfold on_this, set_buffer, with_buffer, GetAddress. simpl.
  rewrite (app_assoc (Some <$> (left_behind <$> ys))), <- !fmap_app.
  rewrite destroy_n_front by (by rewrite length_fmap).
  simpl. unfold begin, GetAddress. simpl. eexists. f_equal.
  unfold set_size. simpl.
  assert (length (ys ++ x :: zs) = S (length (ys ++ zs))) as Hlen'
    by (rewrite !length_app; simpl; lia).
  rewrite Hlen', fmap_app, fmap_cons, <- !app_assoc. simpl.
  f_equal. lia.
Qed.

(** X25: where Emplace is defined: on a vector that holds ys followed by zs,
    Emplace at the position after ys inserts the element constructed from
    the arguments between ys and zs and returns an iterator to it, when the
    vector is full (reallocating path, any position up to end) and when it
    has spare capacity and zs is not empty (in-place path, positions before
    end), provided the element operations involved do not throw. *)
Theorem Emplace_inserts_before_pos (v : Vector) (ys zs : list T) (args : init T Args) (x : T) :
  represents v (ys ++ zs) →
  construct_from args = inr x →
  (Size v = Capacity v → Forall (λ y, transfer_throws y = None) (ys ++ zs)) →
  (Size v < Capacity v →
     zs ≠ [] ∧ (∀ a, move_throws a = None) ∧ (∀ a b, move_assign_throws a b = None)) →
  ∃ tr v' it,
    Emplace v (begin v + Z.of_nat (length ys)) args = Normal tr v' it ∧
    it = (begin v' + Z.of_nat (length ys))%Z ∧
    read (buffer_ (data_ v')) it = Some x ∧
    Size v' = Size v + 1 ∧
    represents v' (ys ++ x :: zs).
Proof.
  intros (c & -> & Hle)%represents_inv Hx Hfull Hspare.
  change (Capacity (vector_of (ys ++ zs) c)) with c in *.
  change (Size (vector_of (ys ++ zs) c)) with (length (ys ++ zs)) in *.
  unfold begin, GetAddress. simpl. rewrite ?Z.add_0_l.
  assert (∀ c', length (ys ++ x :: zs) ≤ c' →
    read (buffer_ (data_ (vector_of (ys ++ x :: zs) c'))) (Z.of_nat (length ys)) = Some x ∧
    length (ys ++ x :: zs) = length (ys ++ zs) + 1 ∧
    represents (vector_of (ys ++ x :: zs) c') (ys ++ x :: zs)) as Hpost.
  { intros c' Hc'. split_and!.
    - simpl. rewrite fmap_app, <- app_assoc. simpl.
      rewrite <- (length_fmap Some ys). apply read_middle.
    - rewrite !length_app. simpl. lia.
    - by apply vector_of_represents. }
  assert (length (ys ++ x :: zs) = S (length (ys ++ zs))) as Hlen
    by (rewrite !length_app; simpl; lia).
  destruct (decide (length (ys ++ zs) = c)) as [<-|Hne].
  - destruct (Emplace_realloc ys zs args x Hx) as [tr Hrun]; [by apply Hfull|].
    pose proof (grown_gt (length (ys ++ zs))).
    exists tr, (vector_of (ys ++ x :: zs) (grown (length (ys ++ zs)))), (Z.of_nat (length ys)).
    destruct (Hpost (grown (length (ys ++ zs)))) as (? & ? & ?); [lia|].
    split_and!; done.
  - destruct Hspare as (Hzs & Hmove & Hassign); [lia|].
    destruct zs as [|w ms _] using rev_ind; [done|].
    destruct (Emplace_in_place ys ms w c args x) as [tr Hrun]; [lia|done|done|done|].
    exists tr, (vector_of (ys ++ x :: ms ++ [w]) c), (Z.of_nat (length ys)).
    destruct (Hpost c) as (? & ? & ?); [lia|].
    split_and!; done.
Qed.

(** X26: where it is not: with spare capacity, Emplace at end() is undefined
    behaviour whatever the vector holds.  On an empty vector the object
    before the buffer is read; otherwise std::move_backward receives a range
    that starts after its end. *)
Theorem Emplace_at_end_in_place (v : Vector) (xs : list T) (args : init T Args) (x : T) :
  represents v xs →
  Size v < Capacity v →
  construct_from args = inr x →
  (∀ a, move_throws a = None) →
  Emplace v (end_ v) args = Undefined.
Proof.
  intros (c & -> & Hle)%represents_inv Hlt Hx Hmove.
  change (length xs < c) in Hlt.
  unfold Emplace, cbegin, end_, Capacity, GetAddress. simpl.
  rewrite Z.add_0_l, size_t_of_ptrdiff_nat.
  rewrite (proj2 (Nat.eqb_neq _ _)) by lia.
  unfold EmplaceWithoutRealoc. rewrite Hx.
  unfold on_data, end_, begin, GetAddress. simpl. rewrite !Z.add_0_l.
  destruct xs as [|w ms _] using rev_ind.
  - done.
  - rewrite length_app in Hlt. simpl in Hlt.
    replace (c - length (ms ++ [w])) with (S (c - S (length (ms ++ [w]))))
      by (rewrite length_app; simpl; lia).
    rewrite fmap_app, <- app_assoc. simpl.
    replace (Z.of_nat (length (ms ++ [w])) - 1)%Z with (Z.of_nat (length (Some <$> ms)))
      by (rewrite length_app, length_fmap; simpl; lia).
    replace (Z.of_nat (length (ms ++ [w]))) with (Z.of_nat (length (Some <$> ms)) + 1)%Z
      by (rewrite length_app, length_fmap; simpl; lia).
    rewrite move_construct_at_adjacent by done. simpl.
    unfold move_backward. rewrite !Z.add_0_l.
    by rewrite (proj2 (Z.ltb_lt _ _)) by (rewrite length_app, length_fmap; simpl; lia).
Qed.

(** X27: the reallocating path when the transfer of the suffix throws: the
    vector is full and holds ps, ys, z and zs; Emplace at the position after
    ps transfers ps, then ys, and the transfer of z throws.  The handler
    destroys the copies of ps and does not rethrow: Emplace returns, and
    the vector it leaves claims one element more than before over a buffer
    in which only the new element is alive. *)
Theorem Emplace_realloc_swallows ps ys z zs e args x :
  construct_from args = inr x →
  Forall (λ y, transfer_throws y = None) (ps ++ ys) →
  transfer_throws z = Some e →
  ∃ tr,
    Emplace (vector_of (ps ++ ys ++ z :: zs) (length (ps ++ ys ++ z :: zs)))
      (Z.of_nat (length ps)) args
    = Normal tr
        {| data_ :=
             {| buffer_ := replicate (length ps) None ++ Some x ::
                  replicate (grown (length (ps ++ ys ++ z :: zs)) - S (length ps)) None;
                capacity_ := grown (length (ps ++ ys ++ z :: zs)) |};
           size_ := length (ps ++ ys ++ z :: zs) + 1 |}
        (Z.of_nat (length ps)).
Proof.
  intros Hx [Hps Hys]%Forall_app Hz.
  set (ss := ys ++ z :: zs).
  pose proof (grown_gt (length (ps ++ ss))) as Hgt.
  assert (length (ps ++ ss) = length ps + length ss) as Hlen by apply length_app.
  unfold Emplace, cbegin, Capacity, GetAddress, vector_of. simpl.
  rewrite size_t_of_ptrdiff_nat, Nat.eqb_refl.
  unfold EmplaceWithRealoc. simpl. rewrite RawMemory_new_grown, Nat.sub_diag.
  unfold on_new, GetAddress. simpl. rewrite ?Z.add_0_l.
  rewrite (replicate_split (length ps) (grown (length (ps ++ ss)))) by lia.
  erewrite placement_new_at; [|by rewrite length_replicate|done].
  simpl. unfold transfer, set_buffer, with_buffer, GetAddress. simpl.
  rewrite fmap_app, <- !app_assoc.
  rewrite UninitializedMoveOrCopy_front by (done || by rewrite length_replicate).
  simpl. rewrite ?Z.add_0_l. rewrite size_t_sub_le by lia.
  replace (length (ps ++ ss) - length ps) with (length ss) by lia.
  replace (grown (length (ps ++ ss)) - S (length ps))
    with (length ss + (grown (length (ps ++ ss)) - S (length (ps ++ ss)))) by lia.
  rewrite replicate_add.
  rewrite (cons_middle (Some x) (Some <$> ps)), (app_assoc (Some <$> ps) [Some x]).
  subst ss.
  rewrite (UninitializedMoveOrCopy_throw ys z zs e (Some <$> (left_behind <$> ps)) []
             ((Some <$> ps) ++ [Some x])
             (replicate (grown (length (ps ++ ys ++ z :: zs)) - S (length (ps ++ ys ++ z :: zs)))
                None));
    [|by rewrite !length_fmap|rewrite length_app, length_fmap; simpl; lia|done|done|done].
  simpl. unfold on_new, with_buffer, GetAddress. simpl.
  rewrite <- (app_assoc (Some <$> ps)).
  rewrite destroy_n_front by done.
  simpl. unfold on_this, set_buffer, with_buffer, GetAddress. simpl.
  rewrite (app_assoc (Some <$> (left_behind <$> ps))), <- fmap_app.
  rewrite destroy_n_front by (by rewrite !length_app, !length_fmap).
  simpl. unfold begin, GetAddress, set_size. simpl. eexists. f_equal.
Qed.

(** ** Moving a whole vector *)

Lemma Swap_exchanges (a b : Vector) : Swap a b = (b, a).
Proof. by destruct a as [[] ?], b as [[] ?]. Qed.

Lemma DestroyN_front (xs : list T) (post : buffer) :
  DestroyN ((Some <$> xs) ++ post) 0 (length xs)
  = Normal (EvDestroy <$> xs) (replicate (length xs) None ++ post) tt.
Proof. apply (DestroyN_live xs [] post). Qed.

Lemma Vector_dtor_represents v xs :
  represents v xs →
  Vector_dtor v = Normal ((EvDestroy <$> xs) ++ Deallocate (replicate (Capacity v) None)) tt tt.
Proof.
  intros (c & -> & Hle)%represents_inv. unfold Vector_dtor, vector_of, GetAddress. simpl.
  rewrite DestroyN_front. simpl.
  rewrite <- replicate_add. by replace (length xs + (c - length xs)) with c by lia.
Qed.

(** C6 as amended: move assignment a = std::move(b) between two distinct
    vectors exchanges their storage and sizes, so that a holds what b held
    and the source b holds what a held (b is empty only if a was);
    self-move-assignment changes nothing; move construction from b gives the
    new vector the storage and size of b and leaves b as a default vector,
    with size 0 and capacity 0.  None of the three performs any operation
    on an element or any allocation (the trace is empty), and the source is
    left a valid vector that its destructor destroys: the former a, holding
    xs, or an empty vector. *)
Theorem move_exchanges_storage (h : gmap nat Vector) (a b : nat) (va vb : Vector) (xs : list T) :
  h !! a = Some va → h !! b = Some vb → represents va xs →
  (a ≠ b → move_assign h a b = Normal [] (<[b := va]> (<[a := vb]> h)) tt) ∧
  move_assign h b b = Normal [] h tt ∧
  (∀ c, h !! c = None →
     move_construct h c b = Normal [] (<[b := Vector_default]> (<[c := vb]> h)) tt) ∧
  (Size Vector_default = 0 ∧ Capacity Vector_default = 0) ∧
  Vector_dtor va = Normal ((EvDestroy <$> xs) ++ Deallocate (replicate (Capacity va) None)) tt tt ∧
  Vector_dtor Vector_default = Normal [] tt tt.
Proof.
  intros Ha Hb Hrep. split_and!.
  - intros Hne. unfold move_assign. rewrite Ha, Hb, bool_decide_true by done.
    by rewrite Swap_exchanges.
  - unfold move_assign. rewrite Hb. by rewrite bool_decide_false by auto.
  - intros c Hc. unfold move_construct, Vector_move. rewrite Hc, Hb.
    by rewrite Swap_exchanges.
  - done.
  - done.
  - by apply Vector_dtor_represents.
  - done.
Qed.

(** * Further properties of the operations *)

(** ** Erase *)

Lemma read_next (pre post : buffer) s t :
  read (pre ++ s :: t :: post) (Z.of_nat (length pre + 1)) = t.
Proof.
  replace (length pre + 1) with (length (pre ++ [s])) by (by rewrite length_app).
  by rewrite (cons_middle s pre), app_assoc, read_middle.
Qed.

Lemma write_next (pre post : buffer) s t t' :
  write (pre ++ s :: t :: post) (Z.of_nat (length pre + 1)) t' = pre ++ s :: t' :: post.
Proof.
  replace (length pre + 1) with (length (pre ++ [s])) by (by rewrite length_app).
  by rewrite (cons_middle s pre), app_assoc, write_middle, <- app_assoc.
Qed.

Lemma move_assign_at_left (pre post : buffer) x y :
  move_assign_throws x y = None →
  move_assign_at (pre ++ Some x :: Some y :: post)
    (Z.of_nat (length pre)) (Z.of_nat (length pre + 1))
  = Normal [EvMoveAssign y] (pre ++ Some y :: Some (moved_from y) :: post) tt.
Proof.
  intros Hok. unfold move_assign_at.
  by rewrite read_next, read_middle, Hok, write_next, write_middle.
Qed.

Lemma left_in_last_cons z z1 zs :
  left_in_last z (z1 :: zs) = left_in_last (moved_from z1) zs.
Proof.
  unfold left_in_last. destruct zs as [|t zs]; [done|].
  change (last (z1 :: t :: zs)) with (last (t :: zs)).
  destruct (last (t :: zs)) eqn:Hl; [done|]. by apply last_None in Hl.
Qed.

Lemma Erase_loop_shift (zs : list T) : ∀ (pre post : buffer) (z : T) c n,
  (zs ≠ [] → ∀ a b, move_assign_throws a b = None) →
  length pre + length zs < c →
  Erase_loop (length zs)
    {| data_ := {| buffer_ := pre ++ Some z :: (Some <$> zs) ++ post; capacity_ := c |};
       size_ := n |} (length pre)
  = Normal (EvMoveAssign <$> zs)
      ({| data_ := {| buffer_ := pre ++ (Some <$> zs) ++ Some (left_in_last z zs) :: post;
                      capacity_ := c |};
          size_ := n |}, length pre + length zs) tt.
Proof.
  induction zs as [|z1 zs IH]; intros pre post z c n Hok Hc.
  - simpl. by rewrite Nat.add_0_r.
  - simpl in Hc. simpl.
    rewrite !RawMemory_index_lt by (simpl; lia). simpl.
    rewrite move_assign_at_left by (by apply Hok).
    simpl. unfold set_buffer, with_buffer. simpl.
    replace (length pre + 1) with (length (pre ++ [Some z1])) by (by rewrite length_app).
    rewrite (cons_middle (Some z1) pre), app_assoc.
    rewrite IH; [|intros _; by apply Hok|rewrite length_app; simpl; lia].
    simpl. rewrite <- app_assoc, length_app. simpl.
    replace (length pre + 1 + length zs) with (length pre + S (length zs)) by lia.
    by rewrite left_in_last_cons.
Qed.

Lemma Erase_at ys z zs c :
  length (ys ++ z :: zs) ≤ c →
  (zs ≠ [] → ∀ a b, move_assign_throws a b = None) →
  Erase (vector_of (ys ++ z :: zs) c) (Z.of_nat (length ys))
  = Normal ((EvMoveAssign <$> zs) ++ [EvDestroy (left_in_last z zs)])
      (vector_of (ys ++ zs) c) (Z.of_nat (length ys)).
Proof.
  intros Hle Hok.
  assert (length (ys ++ z :: zs) = S (length ys + length zs)) as Hlen
    by (rewrite length_app; simpl; lia).
  rewrite Hlen in Hle.
  unfold Erase, cbegin, end_, begin, GetAddress, vector_of. simpl.
  rewrite size_t_of_ptrdiff_nat, Hlen, !Z.add_0_l, size_t_sub_le by lia.
  replace (S (length ys + length zs) - 1 - length ys) with (length zs) by lia.
  rewrite fmap_app, <- app_assoc. simpl.
  assert ((if bool_decide (Z.of_nat (length ys) ≠ Z.of_nat (S (length ys + length zs)) - 1)%Z
           then Erase_loop (length zs)
               {| data_ := {| buffer_ := (Some <$> ys) ++ Some z :: (Some <$> zs) ++
                                replicate (c - S (length ys + length zs)) None;
                              capacity_ := c |};
                  size_ := S (length ys + length zs) |} (length ys)
           else Normal [] ({| data_ := {| buffer_ := (Some <$> ys) ++ Some z :: (Some <$> zs) ++
                                replicate (c - S (length ys + length zs)) None;
                              capacity_ := c |};
                  size_ := S (length ys + length zs) |}, length ys) tt)
          = Normal (EvMoveAssign <$> zs)
               ({| data_ := {| buffer_ := (Some <$> ys) ++ (Some <$> zs) ++
                                 Some (left_in_last z zs) ::
                                 replicate (c - S (length ys + length zs)) None;
                               capacity_ := c |};
                   size_ := S (length ys + length zs) |}, length ys + length zs) tt)
    as Hloop.
  { case_bool_decide as Hpos.
    - rewrite <- (length_fmap Some ys).
      rewrite Erase_loop_shift by (done || rewrite length_fmap; lia). done.
    - destruct zs as [|z1 zs]; [|simpl in Hpos; lia]. simpl.
      by rewrite Nat.add_0_r. }
  change (list_fmap T (option T) Some zs) with (Some <$> zs).
  rewrite Hloop. clear Hloop. simpl.
  rewrite RawMemory_index_lt by (simpl; lia).
  unfold on_data. simpl.
  rewrite app_assoc.
  replace (Z.of_nat (length ys + length zs))
    with (Z.of_nat (length ((Some <$> ys) ++ (Some <$> zs))))
    by (by rewrite length_app, !length_fmap).
  rewrite Destroy_middle. simpl.
  rewrite ?app_nil_r. f_equal.
  unfold set_size, set_buffer, with_buffer. simpl.
  rewrite size_t_sub_le by lia.
  rewrite length_app, fmap_app.
  replace (S (length ys + length zs) - 1) with (length ys + length zs) by lia.
  replace (c - (length ys + length zs)) with (S (c - S (length ys + length zs))) by lia.
  done.
Qed.

Lemma read_past_live (xs : list T) k i :
  length xs ≤ i → read ((Some <$> xs) ++ replicate k None) (Z.of_nat i) = None.
Proof.
  intros Hi. rewrite read_of_nat.
  destruct (((Some <$> xs) ++ replicate k None) !! i) as [s|] eqn:Hs; [|done].
  apply lookup_app_Some in Hs as [Hs|[_ Hs]].
  - apply lookup_lt_Some in Hs. rewrite length_fmap in Hs. lia.
  - by apply lookup_replicate in Hs as [-> _].
Qed.

Lemma size_t_sub_wraps : ∃ k, size_t_sub 0 1 = S k.
Proof.
  exists (Z.to_nat (2 ^ 64 - 2)).
  unfold size_t_sub, wrap_size_t.
  change (1 <=? 0) with false. cbv iota.
  change ((Z.of_nat 0 - Z.of_nat 1) `mod` 2 ^ 64)%Z with (Z.succ (2 ^ 64 - 2)).
  by rewrite Z2Nat.inj_succ.
Qed.

(** X1: on a vector that holds ys, z and zs, Erase at the position of z
    returns when no move assignment throws (none is needed when z is the
    last element): each element of zs is move-assigned one slot to the left,
    in order, then the object left in the last live slot is destroyed; the
    vector holds ys followed by zs, its size is one less, its capacity is
    unchanged, and the iterator returned points to the position of the
    erased element. *)
Theorem Erase_removes_element (v : Vector) (ys zs : list T) (z : T) :
  represents v (ys ++ z :: zs) →
  (zs ≠ [] → ∀ a b, move_assign_throws a b = None) →
  ∃ v',
    Erase v (begin v + Z.of_nat (length ys))
    = Normal ((EvMoveAssign <$> zs) ++ [EvDestroy (left_in_last z zs)]) v'
        (begin v' + Z.of_nat (length ys))%Z ∧
    represents v' (ys ++ zs) ∧ Size v' = Size v - 1 ∧ Capacity v' = Capacity v.
Proof.
  intros (c & -> & Hle)%represents_inv Hok.
  exists (vector_of (ys ++ zs) c).
  unfold begin, GetAddress. rewrite !Z.add_0_l, Erase_at by done.
  rewrite !length_app in *. simpl in *.
  split_and!; [done| |unfold Size; simpl; rewrite !length_app; simpl; lia|done].
  apply vector_of_represents. rewrite length_app. lia.
Qed.

(** X2: Erase at end() has no defined outcome, whatever the vector holds.
    On an empty vector size_ - 1 wraps around, the loop runs and reads the
    slot at index 1; otherwise the slot at index size is destroyed, which
    holds no object.  With assertions enabled the index check of RawMemory
    stops the call when that slot is outside the buffer; in every other
    case the behaviour is undefined. *)
Theorem Erase_at_end_not_defined (v : Vector) (xs : list T) :
  represents v xs →
  Erase v (end_ v) = assert (Nat.max 1 (Size v) <? Capacity v) Undefined.
Proof.
  intros (c & -> & Hle)%represents_inv.
  destruct xs as [|x xs].
  - unfold Erase, end_, cbegin, GetAddress, Size, Capacity, vector_of.
    cbn [size_ data_ capacity_ buffer_].
    rewrite !Z.add_0_l, size_t_of_ptrdiff_nat.
    rewrite bool_decide_true by (simpl; lia).
    change (length (@nil T)) with 0.
    destruct size_t_sub_wraps as [k ->]. rewrite Nat.sub_0_r.
    cbn [Erase_loop bind bind_in].
    unfold RawMemory_index, assert, move_assign_at. cbn [data_ buffer_ capacity_].
    replace (read ((Some <$> []) ++ replicate (c - 0) None) (Z.of_nat (0 + 1))) with (@None T)
      by (symmetry; apply (read_past_live [] (c - 0) (0 + 1)); simpl; lia).
    destruct NDEBUG; [done|].
    destruct c as [|[|c]]; done.
  - unfold Erase, end_, cbegin, GetAddress, Size, Capacity, vector_of.
    cbn [size_ data_ capacity_ buffer_].
    rewrite !Z.add_0_l, size_t_of_ptrdiff_nat.
    rewrite bool_decide_true by lia.
    rewrite size_t_sub_le by (simpl; lia).
    replace (length (x :: xs) - 1 - length (x :: xs)) with 0 by lia.
    cbn [Erase_loop bind_in after fst snd app].
    unfold RawMemory_index, on_data, Destroy. cbn [data_ buffer_ capacity_].
    rewrite read_past_live by done.
    replace (Nat.max 1 (length (x :: xs))) with (length (x :: xs)) by (simpl; lia).
    unfold assert. destruct NDEBUG; [done|].
    by destruct (length (x :: xs) <? c).
Qed.

(** X3: erasing the last element is PopBack: on a vector that holds xs
    followed by x, Erase at end() - 1 does what PopBack does, whether move
    assignment throws or not, and returns the new end(). *)
Theorem Erase_last_is_PopBack (v : Vector) (xs : list T) (x : T) :
  represents v (xs ++ [x]) →
  Erase v (end_ v - 1) = do (v', _) <- PopBack v; Normal [] v' (end_ v').
Proof.
  intros (c & -> & Hle)%represents_inv.
  rewrite length_app in Hle. simpl in Hle.
  rewrite PopBack_last by lia.
  replace (end_ (vector_of (xs ++ [x]) c) - 1)%Z with (Z.of_nat (length xs))
    by (unfold end_, GetAddress; simpl; rewrite length_app; simpl; lia).
  rewrite Erase_at by (done || rewrite length_app; simpl; lia).
  simpl. rewrite app_nil_r.
  unfold end_, GetAddress. simpl. by rewrite Z.add_0_l.
Qed.

(** ** Value construction: Vector(size) and Resize *)

Lemma RawMemory_new_eq n :
  RawMemory_new n
  = (if n =? 0 then [] else [EvAllocate n], {| buffer_ := replicate n None; capacity_ := n |}).
Proof. unfold RawMemory_new, Allocate. by destruct n. Qed.

Lemma uninitialized_value_construct_loop_live d (holes : buffer) : ∀ (pre post : buffer),
  value_init = inr d →
  uninitialized_value_construct_loop (length holes) (pre ++ holes ++ post) (Z.of_nat (length pre))
  = Normal (replicate (length holes) (EvValueInit d))
      (pre ++ replicate (length holes) (Some d) ++ post, Z.of_nat (length pre + length holes)) tt.
Proof.
  induction holes as [|h holes IH]; intros pre post Hd.
  - simpl. by rewrite Nat.add_0_r.
  - cbn [length uninitialized_value_construct_loop app].
    unfold value_construct_at. rewrite valid_middle, Hd, write_middle.
    rewrite (next_slot pre (Some d)), (cons_middle (Some d) pre), app_assoc.
    rewrite IH by done. simpl. rewrite length_app. simpl. rewrite <- app_assoc. simpl.
    by replace (length pre + 1 + length holes) with (length pre + S (length holes)) by lia.
Qed.

Lemma uninitialized_value_construct_n_live d (pre post : buffer) p n :
  p = Z.of_nat (length pre) → value_init = inr d →
  uninitialized_value_construct_n (pre ++ replicate n None ++ post) p n
  = Normal (replicate n (EvValueInit d)) (pre ++ replicate n (Some d) ++ post) tt.
Proof.
  intros -> Hd. unfold uninitialized_value_construct_n.
  pose proof (uninitialized_value_construct_loop_live d (replicate n None) pre post Hd) as Hloop.
  rewrite length_replicate in Hloop. by rewrite Hloop.
Qed.

Lemma uninitialized_value_construct_n_throws e (pre post : buffer) p n :
  p = Z.of_nat (length pre) → value_init = inl e →
  uninitialized_value_construct_n (pre ++ replicate (S n) None ++ post) p (S n)
  = Raised [] (pre ++ replicate (S n) None ++ post) e.
Proof.
  intros -> He. unfold uninitialized_value_construct_n.
  cbn [uninitialized_value_construct_loop replicate app].
  unfold value_construct_at. rewrite valid_middle, He.
  unfold destroy_range. by rewrite Z.sub_diag.
Qed.

Lemma uninitialized_value_construct_n_front d n :
  value_init = inr d →
  uninitialized_value_construct_n (replicate n None) 0 n
  = Normal (replicate n (EvValueInit d)) (replicate n (Some d)) tt.
Proof.
  intros Hd.
  pose proof (uninitialized_value_construct_n_live d [] [] 0%Z n eq_refl Hd) as Hn.
  cbn [app] in Hn. by rewrite !app_nil_r in Hn.
Qed.

Lemma uninitialized_value_construct_n_front_throws e n :
  value_init = inl e →
  uninitialized_value_construct_n (replicate (S n) None) 0 (S n)
  = Raised [] (replicate (S n) None) e.
Proof.
  intros He.
  pose proof (uninitialized_value_construct_n_throws e [] [] 0%Z n eq_refl He) as Hn.
  cbn [app] in Hn. by rewrite !app_nil_r in Hn.
Qed.

Lemma vector_of_replicate n (d : T) :
  vector_of (replicate n d) n
  = {| data_ := {| buffer_ := replicate n (Some d); capacity_ := n |}; size_ := n |}.
Proof.
  unfold vector_of. by rewrite length_replicate, Nat.sub_diag, app_nil_r, fmap_replicate.
Qed.

(** X4: Vector(n), for a request whose byte count n * sizeof(T) does not
    wrap in size_t, allocates a buffer of n slots (nothing for n = 0) and
    value-initializes n elements in it, so that the vector holds n copies of
    the default value with capacity n.  A default constructor is one that
    yields the same value on every call or throws on every call; when it
    throws, it does so on the first element: the buffer is released, no
    element having been constructed, and the exception escapes. *)
Theorem Vector_sized_value_initializes (n : nat) :
  allocatable n →
  (∀ d, value_init = inr d →
     Vector_sized n
     = Normal ((if n =? 0 then [] else [EvAllocate n]) ++ replicate n (EvValueInit d)) tt
         (vector_of (replicate n d) n)) ∧
  (∀ e, value_init = inl e → 0 < n →
     Vector_sized n = Raised [EvAllocate n; EvDeallocate n] tt e).
Proof.
  intros _. split.
  - intros d Hd. unfold Vector_sized. rewrite RawMemory_new_eq.
    cbn [buffer_ GetAddress].
    rewrite (uninitialized_value_construct_n_front d) by done.
    by rewrite vector_of_replicate.
  - intros e He Hn. unfold Vector_sized. rewrite RawMemory_new_eq.
    destruct n as [|n]; [lia|].
    cbn [buffer_ GetAddress].
    rewrite (uninitialized_value_construct_n_front_throws e) by done.
    simpl. by rewrite length_replicate.
Qed.

Lemma Reserve_to xs c n :
  length xs ≤ c → (c < n → Forall (λ y, transfer_throws y = None) xs) →
  ∃ tr, Reserve (vector_of xs c) n = Normal tr (vector_of xs (Nat.max c n)) tt.
Proof.
  intros Hle Hok. destruct (decide (n ≤ c)) as [Hn|Hn].
  - exists []. rewrite Reserve_noop by done. by rewrite Nat.max_l.
  - eexists. rewrite Reserve_grow; [|done|lia|apply Hok; lia].
    by rewrite Nat.max_r by lia.
Qed.

Lemma value_construct_tail xs c n d :
  length xs ≤ n → n ≤ c → value_init = inr d →
  RawMemory_plus (data_ (vector_of xs c)) (size_ (vector_of xs c)) (λ p,
    on_data (vector_of xs c) (λ b,
      uninitialized_value_construct_n b p (n - size_ (vector_of xs c))))
  = Normal (replicate (n - length xs) (EvValueInit d))
      (set_size (vector_of (xs ++ replicate (n - length xs) d) c) (length xs)) tt.
Proof.
  intros Hl Hn Hd. rewrite RawMemory_plus_le by (simpl; lia).
  unfold on_data, vector_of, set_size, set_buffer, with_buffer.
  cbn [data_ buffer_ size_ capacity_].
  replace (c - length xs) with ((n - length xs) + (c - n)) by lia.
  rewrite replicate_add.
  rewrite (uninitialized_value_construct_n_live d) by (rewrite ?length_fmap; done).
  cbn [in_state].
  rewrite fmap_app, fmap_replicate, length_app, length_replicate, <- app_assoc.
  by replace (c - (length xs + (n - length xs))) with (c - n) by lia.
Qed.

Lemma value_construct_tail_throws xs c n e :
  length xs < n → n ≤ c → value_init = inl e →
  RawMemory_plus (data_ (vector_of xs c)) (size_ (vector_of xs c)) (λ p,
    on_data (vector_of xs c) (λ b,
      uninitialized_value_construct_n b p (n - size_ (vector_of xs c))))
  = Raised [] (vector_of xs c) e.
Proof.
  intros Hl Hn He. rewrite RawMemory_plus_le by (simpl; lia).
  unfold on_data, vector_of, set_size, set_buffer, with_buffer.
  cbn [data_ buffer_ size_ capacity_].
  replace (c - length xs) with ((n - length xs) + (c - n)) by lia.
  rewrite replicate_add.
  destruct (n - length xs) as [|k] eqn:Hk; [lia|].
  rewrite (uninitialized_value_construct_n_throws e) by (rewrite ?length_fmap; done).
  done.
Qed.

(** X5: Resize(n) with n at most the size destroys the elements from index
    n on, in order, and nothing else: the vector holds the first n elements
    and keeps its capacity; with n equal to the size nothing happens at
    all. *)
Theorem Resize_shrinks (v : Vector) (xs : list T) (n : nat) :
  represents v xs → n ≤ length xs →
  ∃ v', Resize v n = Normal (EvDestroy <$> drop n xs) v' tt ∧
        represents v' (take n xs) ∧ Size v' = n ∧ Capacity v' = Capacity v.
Proof.
  intros (c & -> & Hle)%represents_inv Hn.
  exists (vector_of (take n xs) c).
  assert (length (take n xs) = n) as Htake by (rewrite length_take; lia).
  split_and!; [|apply vector_of_represents; lia|done|done].
  unfold Resize. cbn [size_ vector_of].
  destruct (decide (n = length xs)) as [->|Hne].
  - rewrite Nat.ltb_irrefl, drop_all, firstn_all. done.
  - rewrite (proj2 (Nat.ltb_lt _ _)) by lia.
    rewrite RawMemory_plus_le by (simpl; lia).
    unfold on_data, set_size, set_buffer, with_buffer. cbn [data_ buffer_ capacity_ size_].
    assert (buffer_ (data_ (vector_of xs c))
            = (Some <$> take n xs) ++ (Some <$> drop n xs) ++ replicate (c - length xs) None)
      as -> by (unfold vector_of; cbn [data_ buffer_]; by rewrite app_assoc, <- fmap_app, take_drop).
    rewrite (destroy_n_at (drop n xs) (Some <$> take n xs))
      by (rewrite ?length_fmap, ?length_drop; lia).
    unfold vector_of. cbn [bind after app in_state data_ capacity_ size_].
    rewrite app_nil_r, Htake, <- replicate_add.
    by replace (length xs - n + (c - length xs)) with (c - n) by lia.
Qed.

(** X6: Resize(n) with n above the size, when the default constructor
    yields d and, if the buffer has to grow, the byte count n * sizeof(T) of
    the request does not wrap in size_t and no transfer throws: the call
    reserves n slots and value-initializes the new elements, so that the
    vector holds its former elements followed by n - size copies of d; its
    size is n and its capacity is the larger of n and the former
    capacity. *)
Theorem Resize_grows (v : Vector) (xs : list T) (n : nat) (d : T) :
  represents v xs → length xs < n →
  value_init = inr d →
  (Capacity v < n → allocatable n) →
  (Capacity v < n → Forall (λ y, transfer_throws y = None) xs) →
  ∃ tr v', Resize v n = Normal (tr ++ replicate (n - length xs) (EvValueInit d)) v' tt ∧
           Reserve v n = Normal tr (vector_of xs (Nat.max (Capacity v) n)) tt ∧
           represents v' (xs ++ replicate (n - length xs) d) ∧
           Size v' = n ∧ Capacity v' = Nat.max (Capacity v) n.
Proof.
  intros (c & -> & Hle)%represents_inv Hn Hd _ Hok.
  change (Capacity (vector_of xs c)) with c in *.
  destruct (Reserve_to xs c n Hle Hok) as [tr Hres].
  exists tr, (vector_of (xs ++ replicate (n - length xs) d) (Nat.max c n)).
  assert (length (xs ++ replicate (n - length xs) d) = n) as Hlen
    by (rewrite length_app, length_replicate; lia).
  split_and!; [|done|apply vector_of_represents; lia|done|done].
  unfold Resize. cbn [size_ vector_of].
  rewrite (proj2 (Nat.ltb_ge _ _)) by lia.
  rewrite (proj2 (Nat.ltb_lt _ _)) by lia.
  fold (vector_of xs c). rewrite Hres. cbn [bind].
  rewrite (value_construct_tail xs (Nat.max c n) n d) by (done || lia).
  cbn [after bind]. rewrite app_nil_r.
  unfold set_size, vector_of. cbn [data_]. by rewrite Hlen.
Qed.

(** X7: Resize(n) with n above the size when the default constructor
    throws (it is one that throws on every call, so on the first new
    element), and, if the buffer has to grow, the byte count n * sizeof(T)
    of the request does not wrap in size_t and no transfer throws: the
    exception escapes after the reservation, no element having been
    constructed; the vector still holds its elements and keeps its size, but
    its capacity stays the larger of n and the former capacity. *)
Theorem Resize_constructor_throws (v : Vector) (xs : list T) (n : nat) (e : E) :
  represents v xs → length xs < n →
  value_init = inl e →
  (Capacity v < n → allocatable n) →
  (Capacity v < n → Forall (λ y, transfer_throws y = None) xs) →
  ∃ tr v', Resize v n = Raised tr v' e ∧
           Reserve v n = Normal tr v' tt ∧
           represents v' xs ∧ Capacity v' = Nat.max (Capacity v) n.
Proof.
  intros (c & -> & Hle)%represents_inv Hn He _ Hok.
  change (Capacity (vector_of xs c)) with c in *.
  destruct (Reserve_to xs c n Hle Hok) as [tr Hres].
  exists tr, (vector_of xs (Nat.max c n)).
  split_and!; [|done|apply vector_of_represents; lia|done].
  unfold Resize. cbn [size_ vector_of].
  rewrite (proj2 (Nat.ltb_ge _ _)) by lia.
  rewrite (proj2 (Nat.ltb_lt _ _)) by lia.
  fold (vector_of xs c). rewrite Hres. cbn [bind].
  rewrite (value_construct_tail_throws xs (Nat.max c n) n e) by (done || lia).
  cbn [after bind]. by rewrite app_nil_r.
Qed.

(** ** Copy construction and copy assignment *)

Lemma uninitialized_copy_n_at (xs : list T) (spre spost dpre dpost holes : buffer) from n to :
  from = Z.of_nat (length spre) → to = Z.of_nat (length dpre) → n = length xs →
  length holes = length xs →
  Forall (λ x, copy_throws x = None) xs →
  uninitialized_copy_n (spre ++ (Some <$> xs) ++ spost) from n (dpre ++ holes ++ dpost) to
  = Normal (EvCopyCtor <$> xs) (dpre ++ (Some <$> xs) ++ dpost) tt.
Proof. intros -> -> ->. apply uninitialized_copy_n_live. Qed.

Lemma uninitialized_copy_n_front (xs : list T) (spost : buffer) :
  Forall (λ x, copy_throws x = None) xs →
  uninitialized_copy_n ((Some <$> xs) ++ spost) 0 (length xs) (replicate (length xs) None) 0
  = Normal (EvCopyCtor <$> xs) (Some <$> xs) tt.
Proof.
  intros Hok.
  pose proof (uninitialized_copy_n_live xs [] spost [] [] (replicate (length xs) None)
                (length_replicate _ _) Hok) as Hn.
  cbn [app length] in Hn. by rewrite !app_nil_r in Hn.
Qed.

Lemma uninitialized_copy_n_front_throw (ys : list T) z zs e (spost : buffer) :
  Forall (λ x, copy_throws x = None) ys → copy_throws z = Some e →
  uninitialized_copy_n ((Some <$> ys ++ z :: zs) ++ spost) 0 (length (ys ++ z :: zs))
    (replicate (length (ys ++ z :: zs)) None) 0
  = Raised ((EvCopyCtor <$> ys) ++ (EvDestroy <$> ys))
      (replicate (length (ys ++ z :: zs)) None) e.
Proof.
  intros Hok Hz.
  pose proof (uninitialized_copy_n_throw ys z zs e [] spost [] [] _ eq_refl Hok Hz) as Hn.
  cbn [app length] in Hn. by rewrite !app_nil_r in Hn.
Qed.

Lemma copy_assign_at_middle (spre spost dpre dpost : buffer) x y :
  copy_assign_throws y x = None →
  copy_assign_at (spre ++ Some x :: spost) (Z.of_nat (length spre))
    (dpre ++ Some y :: dpost) (Z.of_nat (length dpre))
  = Normal [EvCopyAssign x] (dpre ++ Some x :: dpost) tt.
Proof.
  intros Hok. unfold copy_assign_at. by rewrite !read_middle, Hok, write_middle.
Qed.

Lemma copy_n_live (us : list T) : ∀ (spre spost dpre dpost : buffer) (ws : list T),
  length ws = length us →
  (∀ a b, copy_assign_throws a b = None) →
  copy_n (spre ++ (Some <$> us) ++ spost) (Z.of_nat (length spre)) (length us)
    (dpre ++ (Some <$> ws) ++ dpost) (Z.of_nat (length dpre))
  = Normal (EvCopyAssign <$> us) (dpre ++ (Some <$> us) ++ dpost) tt.
Proof.
  induction us as [|u us IH]; intros spre spost dpre dpost ws Hlen Hok.
  - by destruct ws.
  - destruct ws as [|w ws]; [done|]. simpl in Hlen.
    cbn [length copy_n fmap list_fmap app].
    rewrite copy_assign_at_middle by done. cbn [bind].
    rewrite (next_slot spre (Some u)), (next_slot dpre (Some u)).
    rewrite (cons_middle (Some u) spre), (cons_middle (Some u) dpre), !app_assoc.
    rewrite <- (app_assoc (dpre ++ [Some u])), <- (app_assoc (spre ++ [Some u])).
    rewrite (IH _ _ _ _ ws) by (done || lia).
    cbn [after app]. by rewrite <- !app_assoc.
Qed.

Lemma copy_n_front (us ws : list T) (spost dpost : buffer) n :
  n = length us → length ws = length us →
  (∀ a b, copy_assign_throws a b = None) →
  copy_n ((Some <$> us) ++ spost) 0 n ((Some <$> ws) ++ dpost) 0
  = Normal (EvCopyAssign <$> us) ((Some <$> us) ++ dpost) tt.
Proof. intros -> Hlen Hok. by apply (copy_n_live us [] spost [] dpost ws). Qed.

Lemma Vector_copy_of xs c :
  length xs ≤ c →
  Forall (λ x, copy_throws x = None) xs →
  Vector_copy (vector_of xs c)
  = Normal ((if length xs =? 0 then [] else [EvAllocate (length xs)]) ++ (EvCopyCtor <$> xs)) tt
      (vector_of xs (length xs)).
Proof.
  intros Hle Hok.
  unfold Vector_copy, GetAddress. cbn [size_ vector_of]. rewrite RawMemory_new_eq.
  cbn [buffer_ data_ vector_of].
  rewrite uninitialized_copy_n_front by done.
  unfold with_buffer, vector_of. cbn [capacity_ after].
  by rewrite Nat.sub_diag, app_nil_r.
Qed.

Lemma Vector_copy_of_throws ys z zs e c :
  length (ys ++ z :: zs) ≤ c →
  Forall (λ x, copy_throws x = None) ys → copy_throws z = Some e →
  Vector_copy (vector_of (ys ++ z :: zs) c)
  = Raised ([EvAllocate (length (ys ++ z :: zs))] ++ (EvCopyCtor <$> ys) ++ (EvDestroy <$> ys)
            ++ [EvDeallocate (length (ys ++ z :: zs))]) tt e.
Proof.
  intros Hle Hok Hz.
  unfold Vector_copy, GetAddress. cbn [size_ vector_of]. rewrite RawMemory_new_eq.
  cbn [buffer_ data_ vector_of].
  rewrite (uninitialized_copy_n_front_throw ys z zs e) by done.
  rewrite (proj2 (Nat.eqb_neq _ _)) by (rewrite length_app; simpl; lia).
  rewrite Deallocate_length by (rewrite length_replicate, length_app; simpl; lia).
  cbn [after]. by rewrite length_replicate, <- !app_assoc.
Qed.

(** X8: the copy constructor allocates exactly as many slots as the source
    has elements and copy-constructs each element in order: the copy holds
    the same sequence with capacity equal to its size, whatever the capacity
    of the source. *)
Theorem Vector_copy_copies (other : Vector) (xs : list T) :
  represents other xs →
  Forall (λ x, copy_throws x = None) xs →
  Vector_copy other
  = Normal ((if length xs =? 0 then [] else [EvAllocate (length xs)]) ++ (EvCopyCtor <$> xs)) tt
      (vector_of xs (length xs)).
Proof.
  intros (c & -> & Hle)%represents_inv Hok. by apply Vector_copy_of.
Qed.

(** X9: when the copy constructor of an element throws during the copy
    construction of a vector, the copies made so far are destroyed, the
    buffer is released and the exception escapes: no object and no memory is
    left behind. *)
Theorem Vector_copy_throws (other : Vector) (ys zs : list T) (z : T) (e : E) :
  represents other (ys ++ z :: zs) →
  Forall (λ x, copy_throws x = None) ys → copy_throws z = Some e →
  Vector_copy other
  = Raised ([EvAllocate (length (ys ++ z :: zs))] ++ (EvCopyCtor <$> ys) ++ (EvDestroy <$> ys)
            ++ [EvDeallocate (length (ys ++ z :: zs))]) tt e.
Proof.
  intros (c & -> & Hle)%represents_inv Hok Hz. by apply Vector_copy_of_throws.
Qed.

Lemma vector_of_split xs ys c :
  buffer_ (data_ (vector_of (xs ++ ys) c))
  = (Some <$> xs) ++ (Some <$> ys) ++ replicate (c - length (xs ++ ys)) None.
Proof. unfold vector_of. cbn [data_ buffer_]. by rewrite fmap_app, <- app_assoc. Qed.

Lemma copy_assign_shrink xs ys c c2 :
  length ys < length xs → length xs ≤ c → length ys ≤ c2 →
  (∀ a b, copy_assign_throws a b = None) →
  copy_assign (vector_of xs c) (vector_of ys c2)
  = Normal ((EvCopyAssign <$> ys) ++ (EvDestroy <$> drop (length ys) xs)) (vector_of ys c) tt.
Proof.
  intros Hlt Hc Hc2 Hok.
  assert (length (take (length ys) xs) = length ys) as Htake by (rewrite length_take; lia).
  assert ((Some <$> xs) = (Some <$> take (length ys) xs) ++ (Some <$> drop (length ys) xs))
    as Hxs by (by rewrite <- fmap_app, take_drop).
  unfold copy_assign, Capacity, GetAddress, vector_of. cbn [size_ data_ capacity_].
  rewrite (proj2 (Nat.ltb_ge _ _)) by lia.
  rewrite (proj2 (Nat.ltb_lt _ _)) by lia.
  unfold on_data. cbn [data_ buffer_].
  rewrite Hxs, <- app_assoc.
  rewrite (copy_n_front ys (take (length ys) xs)) by done.
  cbn [in_state bind].
  rewrite RawMemory_plus_le by (simpl; lia).
  unfold set_buffer, with_buffer. cbn [data_ buffer_ size_ capacity_].
  rewrite (destroy_n_at (drop (length ys) xs) (Some <$> ys))
    by (rewrite ?length_fmap, ?length_drop; lia).
  cbn [in_state after bind]. rewrite app_nil_r.
  unfold set_size. cbn [data_]. rewrite <- replicate_add.
  by replace (length xs - length ys + (c - length xs)) with (c - length ys) by lia.
Qed.

Lemma copy_assign_extend xs ys c c2 :
  length xs ≤ length ys → length ys ≤ c → length ys ≤ c2 →
  (∀ a b, copy_assign_throws a b = None) →
  Forall (λ y, copy_throws y = None) (drop (length xs) ys) →
  copy_assign (vector_of xs c) (vector_of ys c2)
  = Normal ((EvCopyAssign <$> take (length xs) ys) ++ (EvCopyCtor <$> drop (length xs) ys))
      (vector_of ys c) tt.
Proof.
  intros Hlt Hc Hc2 Hok Hcopy.
  assert (length (take (length xs) ys) = length xs) as Htake by (rewrite length_take; lia).
  assert ((Some <$> ys) = (Some <$> take (length xs) ys) ++ (Some <$> drop (length xs) ys))
    as Hys by (by rewrite <- fmap_app, take_drop).
  unfold copy_assign, Capacity, GetAddress, vector_of. cbn [size_ data_ capacity_].
  rewrite (proj2 (Nat.ltb_ge _ _)) by lia.
  rewrite (proj2 (Nat.ltb_ge _ _)) by lia.
  unfold on_data. cbn [data_ buffer_].
  rewrite Hys, <- app_assoc.
  rewrite (copy_n_front (take (length xs) ys) xs) by done.
  cbn [in_state bind].
  unfold set_buffer, with_buffer. cbn [data_ buffer_ size_ capacity_].
  rewrite !RawMemory_plus_le by (simpl; lia).
  cbn [data_ buffer_ size_ capacity_].
  replace (c - length xs) with ((length ys - length xs) + (c - length ys)) by lia.
  rewrite replicate_add.
  rewrite (uninitialized_copy_n_at (drop (length xs) ys) (Some <$> take (length xs) ys))
    by (done || rewrite ?length_fmap, ?length_drop, ?length_replicate; lia).
  cbn [in_state after bind]. rewrite app_nil_r.
  unfold set_size. cbn [data_]. by rewrite app_assoc.
Qed.

Lemma copy_assign_realloc xs ys c c2 :
  c < length ys → length xs ≤ c → length ys ≤ c2 →
  Forall (λ y, copy_throws y = None) ys →
  copy_assign (vector_of xs c) (vector_of ys c2)
  = Normal ([EvAllocate (length ys)] ++ (EvCopyCtor <$> ys) ++ (EvDestroy <$> xs)
            ++ Deallocate (replicate c None))
      (vector_of ys (length ys)) tt.
Proof.
  intros Hlt Hc Hc2 Hok.
  unfold copy_assign. change (Capacity (vector_of xs c)) with c.
  change (size_ (vector_of ys c2)) with (length ys).
  rewrite (proj2 (Nat.ltb_lt _ _)) by lia.
  rewrite (Vector_copy_of ys c2) by done.
  rewrite Swap_exchanges.
  rewrite (Vector_dtor_represents _ xs) by (by apply vector_of_represents).
  rewrite (proj2 (Nat.eqb_neq _ _)) by lia.
  cbn [in_state after]. by rewrite <- !app_assoc.
Qed.

Lemma copy_assign_realloc_throws xs ys z zs e c c2 :
  c < length (ys ++ z :: zs) → length (ys ++ z :: zs) ≤ c2 →
  Forall (λ y, copy_throws y = None) ys → copy_throws z = Some e →
  copy_assign (vector_of xs c) (vector_of (ys ++ z :: zs) c2)
  = Raised ([EvAllocate (length (ys ++ z :: zs))] ++ (EvCopyCtor <$> ys) ++ (EvDestroy <$> ys)
            ++ [EvDeallocate (length (ys ++ z :: zs))])
      (vector_of xs c) e.
Proof.
  intros Hlt Hc2 Hok Hz.
  unfold copy_assign. change (Capacity (vector_of xs c)) with c.
  change (size_ (vector_of (ys ++ z :: zs) c2)) with (length (ys ++ z :: zs)).
  rewrite (proj2 (Nat.ltb_lt _ _)) by lia.
  by rewrite (Vector_copy_of_throws ys z zs e c2).
Qed.

(** X10: copy assignment from a vector that fits in the capacity of the
    target allocates nothing: it copy-assigns the elements both vectors
    have, in order, then destroys the surplus elements of the target or
    copy-constructs the remaining elements of the source; the target holds
    the sequence of the source and keeps its capacity. *)
Theorem copy_assign_reuses_storage (this rhs : Vector) (xs ys : list T) :
  represents this xs → represents rhs ys →
  length ys ≤ Capacity this →
  (∀ a b, copy_assign_throws a b = None) →
  Forall (λ y, copy_throws y = None) (drop (length xs) ys) →
  ∃ this',
    copy_assign this rhs
    = Normal ((EvCopyAssign <$> take (length xs) ys) ++ (EvDestroy <$> drop (length ys) xs)
              ++ (EvCopyCtor <$> drop (length xs) ys)) this' tt ∧
    represents this' ys ∧ Capacity this' = Capacity this.
Proof.
  intros (c & -> & Hle)%represents_inv (c2 & -> & Hle2)%represents_inv Hfit Hok Hcopy.
  change (Capacity (vector_of xs c)) with c in *.
  exists (vector_of ys c).
  split_and!; [|by apply vector_of_represents|done].
  destruct (decide (length ys < length xs)) as [Hlt|Hge].
  - rewrite copy_assign_shrink by done.
    by rewrite take_ge, (drop_ge ys), app_nil_r by lia.
  - rewrite copy_assign_extend by (done || lia).
    by rewrite (drop_ge xs) by lia.
Qed.

(** X11: copy assignment from a vector with more elements than the target
    has capacity is copy and swap: a buffer of exactly as many slots as the
    source has elements is allocated and the elements are copy-constructed
    in it, then the former elements of the target are destroyed and its
    former buffer is released; the target holds the sequence of the source
    with capacity equal to its size. *)
Theorem copy_assign_reallocates (this rhs : Vector) (xs ys : list T) :
  represents this xs → represents rhs ys →
  Capacity this < length ys →
  Forall (λ y, copy_throws y = None) ys →
  ∃ this',
    copy_assign this rhs
    = Normal ([EvAllocate (length ys)] ++ (EvCopyCtor <$> ys) ++ (EvDestroy <$> xs)
              ++ Deallocate (replicate (Capacity this) None)) this' tt ∧
    represents this' ys ∧ Capacity this' = length ys.
Proof.
  intros (c & -> & Hle)%represents_inv (c2 & -> & Hle2)%represents_inv Hfit Hok.
  change (Capacity (vector_of xs c)) with c in *.
  exists (vector_of ys (length ys)).
  split_and!; [by apply copy_assign_realloc|by apply vector_of_represents|done].
Qed.

(** X12: when an element copy throws during a copy assignment that has to
    reallocate, the target is left exactly as it was: the copies made are
    destroyed, the new buffer is released, and no element of the target has
    been touched. *)
Theorem copy_assign_throw_keeps_target (this rhs : Vector) (xs ys zs : list T) (z : T) (e : E) :
  represents this xs → represents rhs (ys ++ z :: zs) →
  Capacity this < length (ys ++ z :: zs) →
  Forall (λ y, copy_throws y = None) ys → copy_throws z = Some e →
  copy_assign this rhs
  = Raised ([EvAllocate (length (ys ++ z :: zs))] ++ (EvCopyCtor <$> ys) ++ (EvDestroy <$> ys)
            ++ [EvDeallocate (length (ys ++ z :: zs))]) this e.
Proof.
  intros (c & -> & Hle)%represents_inv (c2 & -> & Hle2)%represents_inv Hfit Hok Hz.
  by apply copy_assign_realloc_throws.
Qed.

(** ** Swap, element access and appending *)

(** X13: Swap exchanges two vector objects whole, buffer, capacity and
    size, without any operation on an element, and swapping twice restores
    every object; this holds also when both addresses are the same. *)
Theorem Swap_twice_restores (h : gmap nat Vector) (a b : nat) (va vb : Vector) :
  h !! a = Some va → h !! b = Some vb →
  Swap_objects h a b = Normal [] (<[b := va]> (<[a := vb]> h)) tt ∧
  (do (h', _) <- Swap_objects h a b; Swap_objects h' a b) = Normal [] h tt.
Proof.
  intros Ha Hb. destruct (decide (a = b)) as [->|Hne].
  - assert (va = vb) as -> by congruence.
    unfold Swap_objects. rewrite Hb, bool_decide_false by auto. cbn [bind after app].
    rewrite Hb.
    split; [|done]. by rewrite !insert_id by (by simplify_map_eq).
  - unfold Swap_objects at 1 2. rewrite Ha, Hb, bool_decide_true, Swap_exchanges by done.
    split; [done|]. cbn [bind after app].
    assert ((<[b := va]> (<[a := vb]> h)) !! a = Some vb) as Ha' by (by simplify_map_eq).
    assert ((<[b := va]> (<[a := vb]> h)) !! b = Some va) as Hb' by (by simplify_map_eq).
    unfold Swap_objects. rewrite Ha', Hb', bool_decide_true, Swap_exchanges by done.
    cbn [after app].
    do 2 f_equal. apply map_eq. intros i.
    destruct (decide (i = a)) as [->|]; [by simplify_map_eq|].
    destruct (decide (i = b)) as [->|]; by simplify_map_eq.
Qed.

(** X14: PushBack followed by PopBack gives back the sequence: the element
    PopBack destroys is the one PushBack constructed, the vector holds its
    former elements, and when the vector had spare capacity it is left
    exactly as it was, buffer, size and capacity. *)
Theorem PushBack_then_PopBack (v : Vector) (xs : list T) (value : init T Args) (x : T) :
  represents v xs →
  construct_from value = inr x →
  (Size v = Capacity v → Forall (λ y, transfer_throws y = None) xs) →
  ∃ tr v1 v',
    PushBack v value = Normal tr v1 tt ∧
    PopBack v1 = Normal [EvDestroy x] v' tt ∧
    represents v' xs ∧ Capacity v' = Capacity v1 ∧
    (Size v < Capacity v → v' = v).
Proof.
  intros (c & -> & Hle)%represents_inv Hx Hok.
  unfold Size, Capacity in *. cbn [size_ data_ capacity_ vector_of] in *.
  destruct (decide (length xs = c)) as [<-|Hne].
  - pose proof (grown_gt (length xs)) as Hgt.
    eexists _, (vector_of (xs ++ [x]) (grown (length xs))), (vector_of xs (grown (length xs))).
    split_and!.
    + by apply PushBack_grow, Hok.
    + by apply PopBack_last.
    + apply vector_of_represents. lia.
    + done.
    + lia.
  - exists [init_event value x], (vector_of (xs ++ [x]) c), (vector_of xs c).
    split_and!.
    + apply PushBack_in_place; [lia|done].
    + apply PopBack_last. lia.
    + by apply vector_of_represents.
    + done.
    + done.
Qed.

(** X15: operator[] on a vector that holds xs: an index below the size
    yields the address of the slot that holds the element of that index; an
    index from the size on fails the assertion when assertions are enabled,
    and otherwise yields an address at which no object lives. *)
Theorem Vector_index_checks_bounds {S A} (v : Vector) (xs : list T) (i : nat)
    (k : Z → result S A) :
  represents v xs →
  (i < length xs →
     Vector_index v i k = k (Z.of_nat i) ∧ read (buffer_ (data_ v)) (Z.of_nat i) = xs !! i) ∧
  (length xs ≤ i →
     Vector_index v i k
     = (if NDEBUG then RawMemory_index (data_ v) i k else AssertFailed) ∧
     read (buffer_ (data_ v)) (Z.of_nat i) = None).
Proof.
  intros (c & -> & Hle)%represents_inv. split.
  - intros Hi. unfold Vector_index. cbn [size_ vector_of].
    rewrite assert_true by (by apply Nat.ltb_lt).
    rewrite RawMemory_index_lt by (simpl; lia).
    split; [done|].
    unfold vector_of. cbn [data_ buffer_].
    rewrite read_of_nat, lookup_app_l by (rewrite length_fmap; lia).
    rewrite list_lookup_fmap. by destruct (xs !! i).
  - intros Hi. split.
    + unfold Vector_index, assert. cbn [size_ vector_of].
      rewrite (proj2 (Nat.ltb_ge _ _)) by done. by destruct NDEBUG.
    + by apply read_past_live.
Qed.

Lemma try_catch_rethrow {S A} (m : result S A) :
  try_catch m (λ s e, Raised [] s e) = m.
Proof. destruct m; try done. simpl. by rewrite app_nil_r. Qed.

(** X16: on a vector whose size is within its capacity PushBack is
    EmplaceBack with the reference dropped: same events, same final vector,
    same exception. *)
Theorem PushBack_is_EmplaceBack (v : Vector) (value : init T Args) :
  size_within_capacity v →
  PushBack v value = do (v', _) <- EmplaceBack v value; Normal [] v' tt.
Proof.
  unfold size_within_capacity, PushBack, EmplaceBack, Capacity. intros Hle.
  destruct (decide (size_ v = capacity_ (data_ v))) as [Heq|Hne].
  - rewrite (proj2 (Nat.eqb_eq _ _)) by done.
    rewrite (proj2 (Nat.ltb_ge _ _)) by lia.
    destruct (RawMemory_new _) as [tr new_data].
    rewrite try_catch_rethrow.
    match goal with |- bind ?m _ = _ => destruct m end; try done.
    cbn [bind after]. by rewrite !app_nil_r.
  - rewrite (proj2 (Nat.eqb_neq _ _)) by done.
    rewrite (proj2 (Nat.ltb_lt _ _)) by lia.
    match goal with |- bind ?m _ = _ => destruct m end; try done.
    cbn [bind after]. by rewrite !app_nil_r.
Qed.

(** X17: PushBack calls that fit in the spare capacity construct their
    elements and do nothing else: no allocation, no transfer and no
    destruction happens, the capacity is unchanged and the vector holds its
    former elements followed by the new ones. *)
Theorem push_all_within_capacity (values : list (init T Args)) (ys : list T) :
  ∀ (v : Vector) (xs : list T),
  represents v xs →
  Forall2 (λ value y, construct_from value = inr y) values ys →
  length xs + length values ≤ Capacity v →
  ∃ v', push_all v values = Normal (zip_with init_event values ys) v' tt ∧
        represents v' (xs ++ ys) ∧ Capacity v' = Capacity v.
Proof.
  intros v xs Hrep Hvals. revert v xs Hrep.
  induction Hvals as [|value y values ys Hy Hvals IH]; intros v xs Hrep Hfit.
  - exists v. rewrite app_nil_r. done.
  - apply represents_inv in Hrep as (c & -> & Hle).
    change (Capacity (vector_of xs c)) with c in *. simpl in Hfit.
    destruct (IH (vector_of (xs ++ [y]) c) (xs ++ [y])) as (v' & Hpush & Hrep' & Hcap).
    + apply vector_of_represents. rewrite length_app. simpl. lia.
    + change (Capacity (vector_of (xs ++ [y]) c)) with c. rewrite length_app. simpl. lia.
    + exists v'. cbn [push_all zip_with].
      rewrite (PushBack_in_place xs c value y) by (done || lia).
      cbn [bind]. rewrite Hpush. cbn [after app].
      by rewrite <- app_assoc in Hrep'.
Qed.

(** ** Exceptions during a reallocation *)

Lemma length_left_behind ys z zs :
  length ((left_behind <$> ys) ++ z :: zs) = length (ys ++ z :: zs).
Proof. by rewrite !length_app, length_fmap. Qed.

(** X18: Reserve(n) above the capacity, for a request whose byte count
    n * sizeof(T) does not wrap in size_t, allocates the new buffer,
    transfers each element once, in order, then destroys each of the former
    objects, in order, and releases the former buffer; the vector holds the
    same sequence in a buffer of exactly the capacity asked for. *)
Theorem Reserve_transfers_in_order (v : Vector) (xs : list T) (n : nat) :
  represents v xs → Capacity v < n → allocatable n →
  Forall (λ y, transfer_throws y = None) xs →
  Reserve v n
  = Normal ([EvAllocate n] ++ (transfer_event <$> xs) ++ (EvDestroy <$> (left_behind <$> xs))
            ++ Deallocate (replicate (Capacity v) None))
      (vector_of xs n) tt.
Proof.
  intros (c & -> & Hle)%represents_inv Hn _ Hok. by apply Reserve_grow.
Qed.

(** X19: when the transfer of an element throws during Reserve(n), for a
    request whose byte count n * sizeof(T) does not wrap in size_t, the
    objects transferred so far are destroyed in the new buffer, the new
    buffer is released and the exception escapes; the vector keeps its
    buffer, size and capacity.  When elements are copied the vector is left
    exactly as it was; when they are moved, the elements before the one that
    threw are left moved-from. *)
Theorem Reserve_transfer_throws (v : Vector) (ys zs : list T) (z : T) (e : E) (n : nat) :
  represents v (ys ++ z :: zs) → Capacity v < n → allocatable n →
  Forall (λ y, transfer_throws y = None) ys → transfer_throws z = Some e →
  ∃ v',
    Reserve v n
    = Raised ([EvAllocate n] ++ (transfer_event <$> ys) ++ (EvDestroy <$> ys) ++ [EvDeallocate n])
        v' e ∧
    represents v' ((left_behind <$> ys) ++ z :: zs) ∧ Capacity v' = Capacity v ∧
    (uses_move = false → v' = v).
Proof.
  intros (c & -> & Hle)%represents_inv Hn _ Hok Hz.
  change (Capacity (vector_of (ys ++ z :: zs) c)) with c in *.
  exists (vector_of ((left_behind <$> ys) ++ z :: zs) c).
  split_and!.
  - by apply Reserve_throw.
  - apply vector_of_represents. by rewrite length_left_behind.
  - done.
  - intros Hcopy. by rewrite left_behind_copy.
Qed.

(** X20: when the transfer of an element throws during a PushBack or an
    EmplaceBack that reallocates, the objects transferred so far are
    destroyed, the new buffer is released and the exception escapes, the
    vector keeping its buffer, size and capacity (and, when elements are
    copied, its elements exactly as they were); but the new element, which
    was constructed first in the new buffer, is not destroyed before that
    buffer is released. *)
Theorem append_transfer_throws (v : Vector) (ys zs : list T) (z : T) (e : E)
    (value : init T Args) (x : T) :
  represents v (ys ++ z :: zs) → Size v = Capacity v →
  construct_from value = inr x →
  Forall (λ y, transfer_throws y = None) ys → transfer_throws z = Some e →
  ∃ v',
    PushBack v value
    = Raised ([EvAllocate (grown (Size v)); init_event value x] ++ (transfer_event <$> ys)
              ++ (EvDestroy <$> ys) ++ [EvDeallocate (grown (Size v))]) v' e ∧
    EmplaceBack v value
    = Raised ([EvAllocate (grown (Size v)); init_event value x] ++ (transfer_event <$> ys)
              ++ (EvDestroy <$> ys) ++ [EvDeallocate (grown (Size v))]) v' e ∧
    represents v' ((left_behind <$> ys) ++ z :: zs) ∧ Capacity v' = Capacity v ∧
    (uses_move = false → v' = v).
Proof.
  intros (c & -> & Hle)%represents_inv Hfull Hx Hok Hz.
  unfold Size, Capacity in *. cbn [size_ data_ capacity_ vector_of] in *. subst c.
  exists (vector_of ((left_behind <$> ys) ++ z :: zs) (length (ys ++ z :: zs))).
  split_and!.
  - by apply PushBack_transfer_throws.
  - by apply EmplaceBack_transfer_throws.
  - apply vector_of_represents. by rewrite length_left_behind.
  - done.
  - intros Hcopy. by rewrite left_behind_copy.
Qed.

(** ** Exceptions during Emplace *)

(** X21: when the constructor of the new element throws, Emplace lets the
    exception escape and leaves the vector exactly as it was; on a full
    vector the new buffer has been allocated and is released, on a vector
    with spare capacity nothing else has happened. *)
Theorem Emplace_constructor_throws (v : Vector) (xs : list T) (i : nat)
    (args : init T Args) (e : E) :
  represents v xs → i ≤ length xs →
  construct_from args = inl e →
  Emplace v (begin v + Z.of_nat i) args
  = Raised (if Size v =? Capacity v
            then [EvAllocate (grown (Size v)); EvDeallocate (grown (Size v))] else []) v e.
Proof.
  intros (c & -> & Hle)%represents_inv Hi He.
  pose proof (grown_gt (length xs)) as Hgt.
  unfold Emplace, begin, cbegin, Size, Capacity, GetAddress.
  cbn [size_ data_ capacity_ vector_of].
  rewrite Z.add_0_l, size_t_of_ptrdiff_nat.
  destruct (length xs =? c) eqn:Hfull.
  - unfold EmplaceWithRealoc. cbn [size_ vector_of].
    rewrite RawMemory_new_grown. unfold on_new, GetAddress. cbn [snd buffer_].
    rewrite Z.add_0_l.
    rewrite (replicate_split i (grown (length xs))) by lia.
    erewrite placement_new_throws; [|by rewrite length_replicate|done].
    cbn [in_state try_catch after bind leave_scope app snd fst].
    unfold RawMemory_dtor, with_buffer. cbn [buffer_].
    rewrite Deallocate_length by (rewrite length_app; simpl; lia).
    rewrite length_app, length_replicate. cbn [length]. rewrite length_replicate.
    by replace (i + S (grown (length xs) - S i)) with (grown (length xs)) by lia.
  - unfold EmplaceWithoutRealoc. by rewrite He.
Qed.

Lemma Emplace_prefix_throws ys z zs ws e args x :
  construct_from args = inr x →
  Forall (λ y, transfer_throws y = None) ys → transfer_throws z = Some e →
  Emplace (vector_of ((ys ++ z :: zs) ++ ws) (length ((ys ++ z :: zs) ++ ws)))
    (Z.of_nat (length (ys ++ z :: zs))) args
  = Raised ([EvAllocate (grown (length ((ys ++ z :: zs) ++ ws))); init_event args x]
            ++ (transfer_event <$> ys) ++ (EvDestroy <$> ys)
            ++ [EvDestroy x; EvDeallocate (grown (length ((ys ++ z :: zs) ++ ws)))])
      (vector_of (((left_behind <$> ys) ++ z :: zs) ++ ws) (length ((ys ++ z :: zs) ++ ws))) e.
Proof.
  intros Hx Hok Hz.
  set (ps := ys ++ z :: zs).
  pose proof (grown_gt (length (ps ++ ws))) as Hgt.
  assert (length (ps ++ ws) = length ps + length ws) as Hlen by apply length_app.
  unfold Emplace, cbegin, Capacity, GetAddress, vector_of. simpl.
  rewrite size_t_of_ptrdiff_nat, Nat.eqb_refl.
  unfold EmplaceWithRealoc. simpl. rewrite RawMemory_new_grown, Nat.sub_diag.
  unfold on_new, GetAddress. simpl. rewrite ?Z.add_0_l.
  rewrite (replicate_split (length ps) (grown (length (ps ++ ws)))) by lia.
  erewrite placement_new_at; [|by rewrite length_replicate|done].
  simpl. unfold transfer, set_buffer, with_buffer, GetAddress. simpl.
  rewrite fmap_app, <- !app_assoc.
  subst ps.
  rewrite (UninitializedMoveOrCopy_front_throw ys z zs e) by done.
  simpl.
  rewrite RawMemory_plus_le by (simpl; lia).
  unfold on_new, with_buffer. simpl.
  rewrite <- (length_replicate (length (ys ++ z :: zs)) (@None T)) at 3.
  rewrite Destroy_middle.
  simpl. unfold RawMemory_dtor. simpl.
  rewrite Deallocate_length by (rewrite length_app; simpl; lia).
  rewrite (length_app (replicate _ _)), length_replicate. simpl. rewrite length_replicate.
  replace (length (ys ++ z :: zs) + S (grown (length ((ys ++ z :: zs) ++ ws))
                                       - S (length (ys ++ z :: zs))))
    with (grown (length ((ys ++ z :: zs) ++ ws))) by lia.
  rewrite !app_nil_r, <- !app_assoc. simpl.
  replace (length ((left_behind <$> ys) ++ z :: zs ++ ws))
    with (length (ys ++ z :: zs ++ ws)) by (by rewrite !length_app, length_fmap).
  rewrite Nat.sub_diag. cbn [replicate].
  replace ((left_behind <$> ys) ++ z :: zs ++ ws)
    with (((left_behind <$> ys) ++ z :: zs) ++ ws) by (by rewrite <- app_assoc).
  by rewrite app_nil_r, (fmap_app Some _ ws).
Qed.

(** X22: on a full vector, when the transfer of an element before the
    insertion position throws, Emplace destroys the objects transferred so
    far and the new element, releases the new buffer and lets the exception
    escape; the vector keeps its buffer, size and capacity, and its elements
    exactly as they were when elements are copied. *)
Theorem Emplace_prefix_transfer_throws (v : Vector) (ys zs ws : list T) (z : T) (e : E)
    (args : init T Args) (x : T) :
  represents v ((ys ++ z :: zs) ++ ws) → Size v = Capacity v →
  construct_from args = inr x →
  Forall (λ y, transfer_throws y = None) ys → transfer_throws z = Some e →
  ∃ v',
    Emplace v (begin v + Z.of_nat (length (ys ++ z :: zs))) args
    = Raised ([EvAllocate (grown (Size v)); init_event args x] ++ (transfer_event <$> ys)
              ++ (EvDestroy <$> ys) ++ [EvDestroy x; EvDeallocate (grown (Size v))]) v' e ∧
    represents v' (((left_behind <$> ys) ++ z :: zs) ++ ws) ∧ Capacity v' = Capacity v ∧
    (uses_move = false → v' = v).
Proof.
  intros (c & -> & Hle)%represents_inv Hfull Hx Hok Hz.
  unfold Size, Capacity, begin, GetAddress in *. cbn [size_ data_ capacity_ vector_of] in *.
  subst c. rewrite Z.add_0_l.
  exists (vector_of (((left_behind <$> ys) ++ z :: zs) ++ ws) (length ((ys ++ z :: zs) ++ ws))).
  split_and!.
  - by apply Emplace_prefix_throws.
  - apply vector_of_represents. by rewrite !length_app, length_fmap.
  - done.
  - intros Hcopy. by rewrite left_behind_copy.
Qed.

(** ** Insertion followed by erasure *)

(** X23: Erase at the iterator that Emplace returned removes the element
    just inserted: the vector holds its former sequence again, its size is
    the former size, and Erase returns the same position.  This holds on a
    full vector (where Emplace reallocates) and on a vector with spare
    capacity for a position before end(), provided the element operations
    involved do not throw. *)
Theorem Emplace_then_Erase (v : Vector) (ys zs : list T) (args : init T Args) (x : T) :
  represents v (ys ++ zs) →
  construct_from args = inr x →
  (Size v = Capacity v → Forall (λ y, transfer_throws y = None) (ys ++ zs)) →
  (Size v < Capacity v → zs ≠ [] ∧ (∀ a, move_throws a = None)) →
  (∀ a b, move_assign_throws a b = None) →
  ∃ tr1 v1 it tr2 v2,
    Emplace v (begin v + Z.of_nat (length ys)) args = Normal tr1 v1 it ∧
    Erase v1 it = Normal tr2 v2 it ∧
    represents v2 (ys ++ zs) ∧ Size v2 = Size v.
Proof.
  intros (c & -> & Hle)%represents_inv Hx Hfull Hspare Hok.
  unfold Size, Capacity, begin, GetAddress in *. cbn [size_ data_ capacity_ vector_of] in *.
  rewrite Z.add_0_l.
  destruct (decide (length (ys ++ zs) = c)) as [<-|Hne].
  - destruct (Emplace_realloc ys zs args x Hx (Hfull eq_refl)) as [tr1 Hemplace].
    pose proof (grown_gt (length (ys ++ zs))) as Hgt.
    exists tr1, (vector_of (ys ++ x :: zs) (grown (length (ys ++ zs)))), (Z.of_nat (length ys)).
    exists ((EvMoveAssign <$> zs) ++ [EvDestroy (left_in_last x zs)]).
    exists (vector_of (ys ++ zs) (grown (length (ys ++ zs)))).
    split_and!; [done| | |done].
    + apply Erase_at; [|done]. rewrite !length_app in *. simpl. lia.
    + apply vector_of_represents. lia.
  - destruct Hspare as [Hzs Hmove]; [lia|].
    destruct zs as [|z0 zs0] using rev_ind; [done|]. clear IHzs0.
    assert (length (ys ++ zs0 ++ [z0]) < c) as Hlt by lia.
    destruct (Emplace_in_place ys zs0 z0 c args x Hlt Hx (Hmove z0) Hok) as [tr1 Hemplace].
    exists tr1, (vector_of (ys ++ x :: zs0 ++ [z0]) c), (Z.of_nat (length ys)).
    exists ((EvMoveAssign <$> zs0 ++ [z0]) ++ [EvDestroy (left_in_last x (zs0 ++ [z0]))]).
    exists (vector_of (ys ++ zs0 ++ [z0]) c).
    split_and!; [done| | |done].
    + apply Erase_at; [|done]. clear Hfull Hemplace.
      rewrite !length_app in *. simpl in *. rewrite ?length_app in *. simpl in *. lia.
    + by apply vector_of_represents.
Qed.

(** ** The element operations of an insertion in place *)

Lemma move_backward_loop_moves (ms : list T) : ∀ (pre post : buffer) (j : T),
  (∀ a b, move_assign_throws a b = None) →
  move_backward_loop (length ms) (pre ++ (Some <$> ms) ++ Some j :: post)
    (Z.of_nat (length pre + length ms)) (Z.of_nat (length pre + length ms) + 1)
  = Normal (EvMoveAssign <$> reverse ms) (pre ++ shifted_right ms j ++ post) tt.
Proof.
  induction ms as [|m ms IH] using rev_ind; intros pre post j Hok.
  - done.
  - rewrite length_app. simpl. rewrite Nat.add_1_r. simpl.
    replace (Z.of_nat (length pre + S (length ms)) + 1 - 1)%Z
      with (Z.of_nat (length (pre ++ (Some <$> ms))) + 1)%Z
      by (rewrite length_app, length_fmap; lia).
    replace (Z.of_nat (length pre + S (length ms)) - 1)%Z
      with (Z.of_nat (length (pre ++ (Some <$> ms))))
      by (rewrite length_app, length_fmap; lia).
    rewrite fmap_app, <- (app_assoc (Some <$> ms)), app_assoc. simpl.
    rewrite move_assign_at_adjacent by done. simpl.
    rewrite <- app_assoc.
    replace (Z.of_nat (length (pre ++ (Some <$> ms))))
      with (Z.of_nat (length pre + length ms))
      by (by rewrite length_app, length_fmap).
    rewrite (IH pre (Some m :: post) (moved_from m) Hok). simpl.
    rewrite reverse_snoc. simpl. f_equal. f_equal.
    destruct ms as [|m0 ms]; simpl; [done|].
    by rewrite fmap_app, <- app_assoc.
Qed.

(** X24: the element operations of an Emplace into spare capacity, before
    the first of the elements zs that are followed by the last element w:
    the new element is constructed first, in a temporary; then w is
    move-constructed into the first raw slot, the elements zs are
    move-assigned one slot to the right, last one first, the temporary is
    move-assigned to the position, and the temporary is destroyed. *)
Theorem Emplace_in_place_operations (v : Vector) (ys zs : list T) (w : T)
    (args : init T Args) (x : T) :
  represents v (ys ++ zs ++ [w]) → Size v < Capacity v →
  construct_from args = inr x →
  move_throws w = None →
  (∀ a b, move_assign_throws a b = None) →
  ∃ v',
    Emplace v (begin v + Z.of_nat (length ys)) args
    = Normal ([init_event args x; EvMoveCtor w] ++ (EvMoveAssign <$> reverse zs)
              ++ [EvMoveAssign x; EvDestroy (moved_from x)]) v'
        (begin v' + Z.of_nat (length ys))%Z ∧
    represents v' (ys ++ x :: zs ++ [w]) ∧ Capacity v' = Capacity v.
Proof.
  intros (c & -> & Hle)%represents_inv Hlt Hx Hw Hassign.
  unfold Size, Capacity, begin, GetAddress in *. cbn [size_ data_ capacity_ vector_of] in *.
  exists (vector_of (ys ++ x :: zs ++ [w]) c).
  assert (length (ys ++ zs ++ [w]) = S (length ys + length zs)) as Hlen
    by (rewrite !length_app; simpl; lia).
  assert (length (ys ++ x :: zs ++ [w]) = S (S (length ys + length zs))) as Hlen'
    by (rewrite !length_app; simpl; rewrite length_app; simpl; lia).
  assert (length (Some <$> ys ++ zs) = length ys + length zs) as Hpre
    by (by rewrite length_fmap, length_app).
  split_and!; [|apply vector_of_represents; lia|done].
  rewrite !Z.add_0_l, vector_of_spare by done.
  unfold Emplace, cbegin, Capacity, GetAddress. simpl.
  rewrite size_t_of_ptrdiff_nat.
  rewrite (proj2 (Nat.eqb_neq _ _)) by lia.
  unfold EmplaceWithoutRealoc. rewrite Hx.
  unfold on_data, end_, begin, GetAddress. simpl.
  rewrite Hlen, !Z.add_0_l.
  rewrite (app_assoc ys), fmap_app, <- (app_assoc (Some <$> ys ++ zs)). simpl.
  replace (Z.of_nat (S (length ys + length zs)) - 1)%Z
    with (Z.of_nat (length (Some <$> ys ++ zs))) by lia.
  replace (Z.of_nat (S (length ys + length zs)))
    with (Z.of_nat (length (Some <$> ys ++ zs)) + 1)%Z by lia.
  rewrite move_construct_at_adjacent by done. simpl.
  unfold move_backward. rewrite !Z.add_0_l.
  rewrite (proj2 (Z.ltb_ge _ _)) by lia.
  replace (Z.to_nat (Z.of_nat (S (length ys + length zs)) - 1 - Z.of_nat (length ys)))
    with (length zs) by lia.
  rewrite fmap_app, <- !(app_assoc (Some <$> ys)).
  replace (Z.of_nat (S (length ys + length zs)) - 1)%Z
    with (Z.of_nat (length (Some <$> ys) + length zs)) by (rewrite length_fmap; lia).
  replace (Z.of_nat (S (length ys + length zs)))
    with (Z.of_nat (length (Some <$> ys) + length zs) + 1)%Z by (rewrite length_fmap; lia).
  rewrite (move_backward_loop_moves zs (Some <$> ys)
             (Some w :: replicate (c - S (S (length ys + length zs))) None)
             (moved_from w) Hassign).
  simpl. unfold move_assign_from.
  assert (∃ j, shifted_right zs (moved_from w) = Some j :: (Some <$> zs)) as [j ->]
    by (destruct zs; simpl; eauto).
  simpl. rewrite <- (length_fmap Some ys), read_middle, write_middle, Hassign.
  simpl. rewrite !length_fmap.
  unfold vector_of, set_size, set_buffer, with_buffer. simpl.
  rewrite Hlen', fmap_app, fmap_cons, fmap_app, <- !app_assoc. simpl.
  rewrite <- (app_assoc (Some <$> zs)). simpl.
  do 2 f_equal. lia.
Qed.

(** ** Insertion at the end of a full vector *)

Lemma UninitializedMoveOrCopy_nothing (src dst : buffer) from to :
  UninitializedMoveOrCopy src from 0 dst to = Normal [] (src, dst) tt.
Proof. unfold UninitializedMoveOrCopy. by destruct (_ || _). Qed.

(** X29: on a full vector, Emplace at end() is EmplaceBack when nothing
    throws: the same events in the same order, the same final vector, and
    the iterator returned is the address of the element EmplaceBack returns
    a reference to. *)
Theorem Emplace_at_end_is_EmplaceBack (v : Vector) (xs : list T) (args : init T Args) (x : T) :
  represents v xs → Size v = Capacity v →
  construct_from args = inr x →
  Forall (λ y, transfer_throws y = None) xs →
  Emplace v (end_ v) args = EmplaceBack v args.
Proof.
  intros (c & -> & Hle)%represents_inv Hfull Hx Hok.
  unfold Size, Capacity in *. cbn [size_ data_ capacity_ vector_of] in *. subst c.
  rewrite (EmplaceBack_grow xs args x) by done.
  pose proof (grown_gt (length xs)) as Hgt.
  unfold Emplace, end_, cbegin, Capacity, GetAddress, vector_of. simpl.
  rewrite Z.add_0_l, size_t_of_ptrdiff_nat, Nat.eqb_refl.
  unfold EmplaceWithRealoc. simpl. rewrite RawMemory_new_grown, Nat.sub_diag.
  unfold on_new, GetAddress. simpl. rewrite ?Z.add_0_l.
  rewrite (replicate_split (length xs) (grown (length xs))) by lia.
  erewrite placement_new_at; [|by rewrite length_replicate|done].
  simpl. unfold transfer, set_buffer, with_buffer, GetAddress. simpl.
  rewrite UninitializedMoveOrCopy_front by (done || by rewrite length_replicate).
  simpl. rewrite ?Z.add_0_l. rewrite size_t_sub_le by lia.
  rewrite Nat.sub_diag, UninitializedMoveOrCopy_nothing.
  simpl. unfold on_this, set_buffer, with_buffer, GetAddress. simpl.
  rewrite app_nil_r.
  rewrite <- (app_nil_r (Some <$> (left_behind <$> xs))).
  rewrite destroy_n_front by (by rewrite !length_fmap).
  simpl. unfold begin, GetAddress, set_size, RawMemory_dtor. simpl.
  rewrite !app_nil_r, Z.add_0_l, <- !app_assoc.
  pose proof (vector_of_snoc xs x (grown (length xs))) as Hsnoc.
  unfold vector_of in Hsnoc. by rewrite Hsnoc.
Qed.

(** ** The copy assignment operator on objects at addresses *)

Lemma copy_assign_returns xs ys c c2 :
  length xs ≤ c → length ys ≤ c2 →
  (∀ p q, copy_assign_throws p q = None) →
  Forall (λ y, copy_throws y = None) ys →
  ∃ tr c', copy_assign (vector_of xs c) (vector_of ys c2) = Normal tr (vector_of ys c') tt ∧
           length ys ≤ c'.
Proof.
  intros Hle Hle2 Hok Hcopy.
  destruct (decide (c < length ys)) as [Hlt|Hge].
  - eexists _, (length ys). by rewrite copy_assign_realloc.
  - destruct (decide (length ys < length xs)) as [Hlt|Hge'].
    + eexists _, c. rewrite copy_assign_shrink by done. split; [done|lia].
    + eexists _, c. rewrite copy_assign_extend; [split; [done|lia]|lia..|done|].
      by apply Forall_drop.
Qed.

(** X30: the copy assignment operator a = b on two vector objects: when
    nothing throws it returns, a holds the sequence of b, and no other
    object changes, b included; assigning an object to itself performs no
    operation at all. *)
Theorem operator_assign_copies (h : gmap nat Vector) (a b : nat) (va vb : Vector)
    (xs ys : list T) :
  h !! a = Some va → h !! b = Some vb →
  represents va xs → represents vb ys →
  (∀ p q, copy_assign_throws p q = None) →
  Forall (λ y, copy_throws y = None) ys →
  ∃ tr va',
    operator_assign h a b = Normal tr (<[a := va']> h) tt ∧
    represents va' ys ∧
    (a = b → tr = [] ∧ va' = va) ∧
    (a ≠ b → (<[a := va']> h) !! b = Some vb).
Proof.
  intros Ha Hb Hxs Hys Hok Hcopy. unfold operator_assign. rewrite Ha, Hb.
  destruct (decide (a = b)) as [->|Hne].
  - assert (va = vb) as -> by congruence.
    rewrite bool_decide_false by auto.
    exists [], vb. rewrite insert_id by done. by split_and!.
  - rewrite bool_decide_true by done.
    apply represents_inv in Hxs as (c & -> & Hle).
    apply represents_inv in Hys as (c2 & -> & Hle2).
    destruct (copy_assign_returns xs ys c c2 Hle Hle2 Hok Hcopy) as (tr & c' & -> & Hc').
    exists tr, (vector_of ys c'). cbn [in_state].
    split_and!; [done|by apply vector_of_represents|done|].
    intros _. by rewrite lookup_insert_ne.
Qed.

(** ** The assertions a default-constructed vector meets *)

Lemma Erase_end_of_default :
  Erase Vector_default (end_ Vector_default) = if NDEBUG then Undefined else AssertFailed.
Proof.
  unfold Erase, end_, cbegin, GetAddress, Vector_default, RawMemory_default.
  cbn [size_ data_ capacity_ buffer_].
  change (0 + Z.of_nat 0 - 0)%Z with (Z.of_nat 0 - 0)%Z.
  rewrite size_t_of_ptrdiff_nat.
  rewrite bool_decide_true by (simpl; lia).
  destruct size_t_sub_wraps as [k ->]. rewrite Nat.sub_0_r.
  cbn [Erase_loop bind bind_in].
  unfold RawMemory_index, assert, move_assign_at. cbn [data_ buffer_ capacity_].
  replace (read [] (Z.of_nat (0 + 1))) with (@None T)
    by (symmetry; apply (read_past_live [] 0 (0 + 1)); simpl; lia).
  by destruct NDEBUG.
Qed.

End Model.

(** * The operations on concrete vectors *)

Section IntVectors.
Import IntElement.
Local Open Scope Z_scope.

(** C2: starting from a default-constructed vector of integers, PushBack(1),
    PushBack(2), PushBack(3) give the sequence 1, 2, 3 with size 3; Insert at
    position 1 of the value 9 gives 1, 9, 2, 3 with size 4; Erase at position
    0 gives 9, 2, 3 with size 3; PopBack gives 9, 2 with size 2; every call
    returns, with assertions enabled or not. *)
Theorem scenario_push_insert_erase_pop (NDEBUG : bool) :
  returns (PushBack (E:=Empty_set) NDEBUG Vector_default (Moved 1)) (vector_of [1] 1) tt ∧
  returns (PushBack (E:=Empty_set) NDEBUG (vector_of [1] 1) (Moved 2)) (vector_of [1; 2] 2) tt ∧
  returns (PushBack (E:=Empty_set) NDEBUG (vector_of [1; 2] 2) (Moved 3))
    (vector_of [1; 2; 3] 4) tt ∧
  contents (vector_of [1; 2; 3] 4) = Some [1; 2; 3] ∧ Size (vector_of [1; 2; 3] 4) = 3%nat ∧
  returns (Insert_rvalue (E:=Empty_set) NDEBUG (vector_of [1; 2; 3] 4)
             (begin (vector_of [1; 2; 3] 4) + 1) 9)
    (vector_of [1; 9; 2; 3] 4) (begin (vector_of [1; 9; 2; 3] 4) + 1) ∧
  contents (vector_of [1; 9; 2; 3] 4) = Some [1; 9; 2; 3] ∧
  Size (vector_of [1; 9; 2; 3] 4) = 4%nat ∧
  returns (Erase (E:=Empty_set) NDEBUG (vector_of [1; 9; 2; 3] 4)
             (begin (vector_of [1; 9; 2; 3] 4) + 0))
    (vector_of [9; 2; 3] 4) (begin (vector_of [9; 2; 3] 4) + 0) ∧
  contents (vector_of [9; 2; 3] 4) = Some [9; 2; 3] ∧ Size (vector_of [9; 2; 3] 4) = 3%nat ∧
  returns (PopBack (E:=Empty_set) NDEBUG (vector_of [9; 2; 3] 4)) (vector_of [9; 2] 4) tt ∧
  contents (vector_of [9; 2] 4) = Some [9; 2] ∧ Size (vector_of [9; 2] 4) = 2%nat.
Proof.
  destruct NDEBUG; repeat split; try (vm_compute; reflexivity);
    (eexists; vm_compute; reflexivity).
Qed.

(** C1 at the inputs where the code fails: Insert at end() of an empty
    vector that has spare capacity (after Reserve(1)) reads the slot before
    the buffer, and Insert at end() of the vector 1, 2 with capacity 4 calls
    std::move_backward on the range from end() to end()-1; both are
    undefined behaviour.  The sibling paths do insert at the end: EmplaceBack
    on the same vector, and Insert at end() when the vector is full. *)
Theorem Insert_at_end_in_place_undefined (NDEBUG : bool) :
  (do (v, _) <- Reserve (E:=Empty_set) Vector_default 1; Insert NDEBUG v (end_ v) 7) = Undefined ∧
  Insert (E:=Empty_set) NDEBUG (vector_of [1; 2] 4) (end_ (vector_of [1; 2] 4)) 9 = Undefined ∧
  EmplaceBack (E:=Empty_set) NDEBUG (vector_of [1; 2] 4) (Copied 9)
  = Normal [EvCopyCtor 9] (vector_of [1; 2; 9] 4) 2 ∧
  state_of (Insert (E:=Empty_set) NDEBUG (vector_of [1; 2] 2) (end_ (vector_of [1; 2] 2)) 9)
  = Some (vector_of [1; 2; 9] 4).
Proof. destruct NDEBUG; repeat split; vm_compute; reflexivity. Qed.

(** C6 at a concrete input: after a = std::move(b) with a holding 1 and b
    holding 2, 3, the source b holds 1: its size is 1, not 0. *)
Lemma move_assign_source_not_empty :
  move_assign (E:=Empty_set) {[0%nat := vector_of [1] 1; 1%nat := vector_of [2; 3] 2]} 0 1
  = Normal [] {[0%nat := vector_of [2; 3] 2; 1%nat := vector_of [1] 1]} tt
  ∧ Size <$> (({[0%nat := vector_of [2; 3] 2; 1%nat := vector_of [1] 1]} : gmap nat Vector) !! 1%nat)
    = Some 1%nat.
Proof. split; vm_compute; reflexivity. Qed.

(** C8 at the input where the code fails, a default-constructed vector of
    int on which PopBack is called, compiled with assertions enabled: no
    assertion stops the call, its behaviour is undefined.  The one
    assertion it reaches, offset <= capacity in RawMemory::operator+, is
    evaluated for the offset size_ = 0, where it holds, and 1 is subtracted
    from the pointer only afterwards.  On the same vector operator[] and
    Erase at end() are stopped by an assertion. *)
Theorem PopBack_empty_not_asserted :
  PopBack (E:=Empty_set) false (Vector_default (T:=Z)) = Undefined ∧
  PopBack (E:=Empty_set) false (Vector_default (T:=Z)) ≠ AssertFailed ∧
  RawMemory_plus (E:=Empty_set) false (data_ (Vector_default (T:=Z)))
    (size_ (Vector_default (T:=Z))) (λ p, Normal [] tt p) = Normal [] tt 0 ∧
  Vector_index (E:=Empty_set) false (Vector_default (T:=Z)) 0 (λ p, Normal [] tt p)
  = AssertFailed ∧
  Erase (E:=Empty_set) false (Vector_default (T:=Z)) (end_ (Vector_default (T:=Z)))
  = AssertFailed.
Proof.
  split_and!; [vm_compute; reflexivity|vm_compute; discriminate|vm_compute; reflexivity
              |vm_compute; reflexivity|].
  exact (Erase_end_of_default (E:=Empty_set) false).
Qed.

(** three calls PushBack(1), PushBack(2), PushBack(3) on vectors of int: the capacity ends at 4 *)
Lemma PushBack_capacity_doubles_witness :
  Forall2 (λ value x, construct_from value = inr x) [Moved 1; Moved 2; Moved 3] [1; 2; 3] ∧
  Forall (λ y, transfer_throws y = None) [1; 2; 3] ∧
  ∃ tr v',
    push_all (E:=Empty_set) false Vector_default [Moved 1; Moved 2; Moved 3] = Normal tr v' tt ∧
    represents v' [1; 2; 3] ∧ Capacity v' = capacity_after 3.
Proof.
  assert (Forall2 (λ value x, construct_from value = inr x) [Moved 1; Moved 2; Moved 3] [1; 2; 3])
    as Hvals by (repeat constructor).
  assert (Forall (λ y, transfer_throws y = None) [1; 2; 3]) as Hok by (repeat constructor).
  split; [exact Hvals|]. split; [exact Hok|].
  exact (proj1 (PushBack_capacity_doubles false _ _ Hvals Hok)).
Defined.

(** a holding 1 at address 0 and b holding 2, 3 at address 1 exchange their storage *)
Lemma move_exchanges_storage_witness :
  ({[0%nat := vector_of [1] 1; 1%nat := vector_of [2; 3] 2]} : gmap nat Vector) !! 0%nat
  = Some (vector_of [1] 1) ∧
  ({[0%nat := vector_of [1] 1; 1%nat := vector_of [2; 3] 2]} : gmap nat Vector) !! 1%nat
  = Some (vector_of [2; 3] 2) ∧
  represents (vector_of [1] 1) [1] ∧
  (0%nat ≠ 1%nat →
   move_assign (E:=Empty_set) {[0%nat := vector_of [1] 1; 1%nat := vector_of [2; 3] 2]} 0 1
   = Normal []
       (<[1%nat := vector_of [1] 1]>
          (<[0%nat := vector_of [2; 3] 2]>
             {[0%nat := vector_of [1] 1; 1%nat := vector_of [2; 3] 2]})) tt).
Proof.
  assert (represents (vector_of [1] 1) [1]) as Hrep by (repeat split; simpl; lia).
  assert (({[0%nat := vector_of [1] 1; 1%nat := vector_of [2; 3] 2]} : gmap nat Vector) !! 0%nat
          = Some (vector_of [1] 1)) as Ha by (vm_compute; reflexivity).
  assert (({[0%nat := vector_of [1] 1; 1%nat := vector_of [2; 3] 2]} : gmap nat Vector) !! 1%nat
          = Some (vector_of [2; 3] 2)) as Hb by (vm_compute; reflexivity).
  split; [exact Ha|]. split; [exact Hb|]. split; [exact Hrep|].
  exact (proj1 (move_exchanges_storage (E:=Empty_set) _ 0%nat 1%nat _ _ [1] Ha Hb Hrep)).
Defined.


(** PopBack on the vector 9, 2, 3 of capacity 4 destroys 3 and leaves 9, 2 *)
Lemma PopBack_contract_witness :
  represents (vector_of [9; 2; 3] 4) ([9; 2] ++ [3]) ∧
  ∃ v', PopBack (E:=Empty_set) false (vector_of [9; 2; 3] 4) = Normal [EvDestroy 3] v' tt ∧
        Size v' = (Size (vector_of [9; 2; 3] 4) - 1)%nat ∧
        Capacity v' = Capacity (vector_of [9; 2; 3] 4) ∧ represents v' [9; 2].
Proof.
  assert (represents (vector_of [9; 2; 3] 4) ([9; 2] ++ [3])) as Hrep by (repeat split; simpl; lia).
  split; [exact Hrep|].
  exact (proj2 (PopBack_contract (E:=Empty_set) false _) [9; 2] 3 Hrep).
Defined.

(** PushBack and Erase on the full vector 1, 2 keep the size within the capacity *)
Lemma size_never_exceeds_capacity_witness :
  size_within_capacity (vector_of [1; 2] 2) ∧
  map_Forall (λ _, size_within_capacity) ({[0%nat := vector_of [1] 1]} : gmap nat Vector) ∧
  keeps_within_capacity (PushBack (E:=Empty_set) false (vector_of [1; 2] 2) (Copied 3)) ∧
  (∀ pos, begin (vector_of [1; 2] 2) ≤ pos < end_ (vector_of [1; 2] 2) →
     keeps_within_capacity (Erase (E:=Empty_set) false (vector_of [1; 2] 2) pos)).
Proof.
  assert (size_within_capacity (vector_of [1; 2] 2)) as Hv by (unfold size_within_capacity; simpl; lia).
  assert (map_Forall (λ _, size_within_capacity) ({[0%nat := vector_of [1] 1]} : gmap nat Vector))
    as Hh.
  { apply map_Forall_singleton. unfold size_within_capacity. simpl. lia. }
  pose proof (size_never_exceeds_capacity (E:=Empty_set) false _ _ Hv Hh) as Hall.
  split; [exact Hv|]. split; [exact Hh|]. split.
  - apply Hall.
  - apply Hall.
Defined.

(** EmplaceBack(7) on the full vector 1, 2: the reallocating path *)
Lemma EmplaceBack_returns_new_element_witness :
  represents (vector_of [1; 2] 2) [1; 2] ∧
  construct_from (Emplaced 7) = inr 7 ∧
  (Size (vector_of [1; 2] 2) = Capacity (vector_of [1; 2] 2) →
   Forall (λ y, transfer_throws y = None) [1; 2]) ∧
  ∃ tr v' p,
    EmplaceBack (E:=Empty_set) false (vector_of [1; 2] 2) (Emplaced 7) = Normal tr v' p ∧
    p = begin v' + Z.of_nat (Size v') - 1 ∧
    read (buffer_ (data_ v')) p = Some 7 ∧
    Size v' = (Size (vector_of [1; 2] 2) + 1)%nat ∧
    represents v' ([1; 2] ++ [7]) ∧
    Capacity v' = (if (Size (vector_of [1; 2] 2) <? Capacity (vector_of [1; 2] 2))%nat
                   then Capacity (vector_of [1; 2] 2) else grown (Size (vector_of [1; 2] 2))).
Proof.
  assert (represents (vector_of [1; 2] 2) [1; 2]) as Hrep by (repeat split; simpl; lia).
  assert (Size (vector_of [1; 2] 2) = Capacity (vector_of [1; 2] 2) →
          Forall (λ y, transfer_throws y = None) [1; 2]) as Hok by (intros _; repeat constructor).
  split; [exact Hrep|]. split; [reflexivity|]. split; [exact Hok|].
  exact (EmplaceBack_returns_new_element false _ _ (Emplaced 7) 7 Hrep eq_refl Hok).
Defined.

(** Erase at position 1 of the vector 1, 2, 3 of capacity 4 *)
Lemma Erase_removes_element_witness :
  represents (vector_of [1; 2; 3] 4) ([1] ++ 2 :: [3]) ∧
  (([3] : list Z) ≠ [] → ∀ a b : Z, move_assign_throws a b = None) ∧
  ∃ v', Erase (E:=Empty_set) false (vector_of [1; 2; 3] 4) 1
        = Normal [EvMoveAssign 3; EvDestroy 3] v' 1 ∧
        represents v' [1; 3] ∧ Size v' = 2%nat ∧ Capacity v' = 4%nat.
Proof.
  assert (represents (vector_of [1; 2; 3] 4) ([1] ++ 2 :: [3])) as Hrep
    by (repeat split; simpl; lia).
  assert (([3] : list Z) ≠ [] → ∀ a b : Z, move_assign_throws a b = None) as Hok
    by (intros _ a b; reflexivity).
  split; [exact Hrep|]. split; [exact Hok|].
  exact (Erase_removes_element (E:=Empty_set) false _ [1] [3] 2 Hrep Hok).
Defined.

(** Erase at end() of the vector 1, 2 of capacity 4 *)
Lemma Erase_at_end_not_defined_witness :
  represents (vector_of [1; 2] 4) [1; 2] ∧
  Erase (E:=Empty_set) false (vector_of [1; 2] 4) 2 = Undefined.
Proof.
  assert (represents (vector_of [1; 2] 4) [1; 2]) as Hrep by (repeat split; simpl; lia).
  split; [exact Hrep|].
  exact (Erase_at_end_not_defined (E:=Empty_set) false _ _ Hrep).
Defined.

(** Erase at end() - 1 of the full vector 1, 2 *)
Lemma Erase_last_is_PopBack_witness :
  represents (vector_of [1; 2] 2) ([1] ++ [2]) ∧
  Erase (E:=Empty_set) false (vector_of [1; 2] 2) 1
  = do (v', _) <- PopBack false (vector_of [1; 2] 2); Normal [] v' (end_ v').
Proof.
  assert (represents (vector_of [1; 2] 2) ([1] ++ [2])) as Hrep by (repeat split; simpl; lia).
  split; [exact Hrep|].
  exact (Erase_last_is_PopBack (E:=Empty_set) false _ [1] 2 Hrep).
Defined.

(** Vector<int>(3) *)
Lemma Vector_sized_value_initializes_witness :
  allocatable 3 ∧
  value_init = inr 0 ∧
  Vector_sized (E:=Empty_set) 3
  = Normal [EvAllocate 3; EvValueInit 0; EvValueInit 0; EvValueInit 0] tt (vector_of [0; 0; 0] 3).
Proof.
  assert (allocatable 3) as Halloc by (vm_compute; reflexivity).
  split; [exact Halloc|]. split; [reflexivity|].
  exact (proj1 (Vector_sized_value_initializes (E:=Empty_set) 3 Halloc) 0 eq_refl).
Defined.

(** Resize(1) on the vector 1, 2, 3 of capacity 4 *)
Lemma Resize_shrinks_witness :
  represents (vector_of [1; 2; 3] 4) [1; 2; 3] ∧
  Nat.le 1 (length ([1; 2; 3]%Z : list Z)) ∧
  ∃ v', Resize (E:=Empty_set) false (vector_of [1; 2; 3] 4) 1
        = Normal [EvDestroy 2; EvDestroy 3] v' tt ∧
        represents v' [1] ∧ Size v' = 1%nat ∧ Capacity v' = 4%nat.
Proof.
  assert (represents (vector_of [1; 2; 3] 4) [1; 2; 3]) as Hrep by (repeat split; simpl; lia).
  assert (Nat.le 1 (length ([1; 2; 3]%Z : list Z))) as Hn by (simpl; lia).
  split; [exact Hrep|]. split; [exact Hn|].
  exact (Resize_shrinks (E:=Empty_set) false _ _ 1%nat Hrep Hn).
Defined.

(** Resize(3) on the full vector 1 *)
Lemma Resize_grows_witness :
  represents (vector_of [1] 1) [1] ∧
  Nat.lt (length ([1]%Z : list Z)) 3 ∧
  value_init = inr 0 ∧
  (Nat.lt (Capacity (vector_of [1] 1)) 3 → allocatable 3) ∧
  (Nat.lt (Capacity (vector_of [1] 1)) 3 → Forall (λ y, transfer_throws y = None) [1]) ∧
  ∃ tr v', Resize (E:=Empty_set) false (vector_of [1] 1) 3
           = Normal (tr ++ [EvValueInit 0; EvValueInit 0]) v' tt ∧
           Reserve (vector_of [1] 1) 3 = Normal tr (vector_of [1] 3) tt ∧
           represents v' [1; 0; 0] ∧ Size v' = 3%nat ∧ Capacity v' = 3%nat.
Proof.
  assert (represents (vector_of [1] 1) [1]) as Hrep by (repeat split; simpl; lia).
  assert (Nat.lt (length ([1]%Z : list Z)) 3) as Hn by (simpl; lia).
  assert (Nat.lt (Capacity (vector_of [1] 1)) 3 → Forall (λ y, transfer_throws y = None) [1])
    as Hok by (intros _; repeat constructor).
  assert (Nat.lt (Capacity (vector_of [1] 1)) 3 → allocatable 3) as Halloc
    by (intros _; vm_compute; reflexivity).
  split; [exact Hrep|]. split; [exact Hn|]. split; [reflexivity|]. split; [exact Halloc|].
  split; [exact Hok|].
  exact (Resize_grows (E:=Empty_set) false _ _ 3%nat 0 Hrep Hn eq_refl Halloc Hok).
Defined.

(** the copy of the vector 1, 2 of capacity 4 has capacity 2 *)
Lemma Vector_copy_copies_witness :
  represents (vector_of [1; 2] 4) [1; 2] ∧
  Forall (λ x, copy_throws x = None) [1; 2] ∧
  Vector_copy (E:=Empty_set) (vector_of [1; 2] 4)
  = Normal [EvAllocate 2; EvCopyCtor 1; EvCopyCtor 2] tt (vector_of [1; 2] 2).
Proof.
  assert (represents (vector_of [1; 2] 4) [1; 2]) as Hrep by (repeat split; simpl; lia).
  assert (Forall (λ x, copy_throws x = None) [1; 2]) as Hok by (repeat constructor).
  split; [exact Hrep|]. split; [exact Hok|].
  exact (Vector_copy_copies (E:=Empty_set) _ _ Hrep Hok).
Defined.

(** the vector 1, 2, 3 of capacity 4 is assigned the vector 7, 8 *)
Lemma copy_assign_reuses_storage_witness :
  represents (vector_of [1; 2; 3] 4) [1; 2; 3] ∧
  represents (vector_of [7; 8] 2) [7; 8] ∧
  Nat.le (length ([7; 8]%Z : list Z)) (Capacity (vector_of [1; 2; 3] 4)) ∧
  (∀ a b : Z, copy_assign_throws a b = None) ∧
  Forall (λ y, copy_throws y = None) (drop (length ([1; 2; 3]%Z : list Z)) [7; 8]) ∧
  ∃ this',
    copy_assign (E:=Empty_set) false (vector_of [1; 2; 3] 4) (vector_of [7; 8] 2)
    = Normal [EvCopyAssign 7; EvCopyAssign 8; EvDestroy 3] this' tt ∧
    represents this' [7; 8] ∧ Capacity this' = 4%nat.
Proof.
  assert (represents (vector_of [1; 2; 3] 4) [1; 2; 3]) as Hthis by (repeat split; simpl; lia).
  assert (represents (vector_of [7; 8] 2) [7; 8]) as Hrhs by (repeat split; simpl; lia).
  assert (Nat.le (length ([7; 8]%Z : list Z)) (Capacity (vector_of [1; 2; 3] 4))) as Hfit
    by (vm_compute; lia).
  assert (∀ a b : Z, copy_assign_throws a b = None) as Hok by reflexivity.
  assert (Forall (λ y, copy_throws y = None) (drop (length ([1; 2; 3]%Z : list Z)) [7; 8]))
    as Hcopy by constructor.
  split; [exact Hthis|]. split; [exact Hrhs|]. split; [exact Hfit|].
  split; [exact Hok|]. split; [exact Hcopy|].
  exact (copy_assign_reuses_storage (E:=Empty_set) false _ _ _ _ Hthis Hrhs Hfit Hok Hcopy).
Defined.

(** the full vector 1 is assigned the vector 7, 8 *)
Lemma copy_assign_reallocates_witness :
  represents (vector_of [1] 1) [1] ∧
  represents (vector_of [7; 8] 2) [7; 8] ∧
  Nat.lt (Capacity (vector_of [1] 1)) (length ([7; 8]%Z : list Z)) ∧
  Forall (λ y, copy_throws y = None) [7; 8] ∧
  ∃ this',
    copy_assign (E:=Empty_set) false (vector_of [1] 1) (vector_of [7; 8] 2)
    = Normal [EvAllocate 2; EvCopyCtor 7; EvCopyCtor 8; EvDestroy 1; EvDeallocate 1] this' tt ∧
    represents this' [7; 8] ∧ Capacity this' = 2%nat.
Proof.
  assert (represents (vector_of [1] 1) [1]) as Hthis by (repeat split; simpl; lia).
  assert (represents (vector_of [7; 8] 2) [7; 8]) as Hrhs by (repeat split; simpl; lia).
  assert (Nat.lt (Capacity (vector_of [1] 1)) (length ([7; 8]%Z : list Z))) as Hfit
    by (vm_compute; lia).
  assert (Forall (λ y, copy_throws y = None) [7; 8]) as Hcopy by (repeat constructor).
  split; [exact Hthis|]. split; [exact Hrhs|]. split; [exact Hfit|]. split; [exact Hcopy|].
  exact (copy_assign_reallocates (E:=Empty_set) false _ _ _ _ Hthis Hrhs Hfit Hcopy).
Defined.

(** two vector objects at addresses 0 and 1 *)
Lemma Swap_twice_restores_witness :
  ({[0%nat := vector_of [1] 1; 1%nat := vector_of [2; 3] 2]} : gmap nat Vector) !! 0%nat
  = Some (vector_of [1] 1) ∧
  ({[0%nat := vector_of [1] 1; 1%nat := vector_of [2; 3] 2]} : gmap nat Vector) !! 1%nat
  = Some (vector_of [2; 3] 2) ∧
  (do (h', _) <- Swap_objects (E:=Empty_set)
                   {[0%nat := vector_of [1] 1; 1%nat := vector_of [2; 3] 2]} 0 1;
   Swap_objects h' 0 1)
  = Normal [] {[0%nat := vector_of [1] 1; 1%nat := vector_of [2; 3] 2]} tt.
Proof.
  assert (({[0%nat := vector_of [1] 1; 1%nat := vector_of [2; 3] 2]} : gmap nat Vector) !! 0%nat
          = Some (vector_of [1] 1)) as Ha by (vm_compute; reflexivity).
  assert (({[0%nat := vector_of [1] 1; 1%nat := vector_of [2; 3] 2]} : gmap nat Vector) !! 1%nat
          = Some (vector_of [2; 3] 2)) as Hb by (vm_compute; reflexivity).
  split; [exact Ha|]. split; [exact Hb|].
  exact (proj2 (Swap_twice_restores (E:=Empty_set) _ 0%nat 1%nat _ _ Ha Hb)).
Defined.

(** PushBack(5) then PopBack on the vector 1 of capacity 2 *)
Lemma PushBack_then_PopBack_witness :
  represents (vector_of [1] 2) [1] ∧
  construct_from (Copied 5) = inr 5 ∧
  (Size (vector_of [1] 2) = Capacity (vector_of [1] 2) →
   Forall (λ y, transfer_throws y = None) [1]) ∧
  ∃ tr v1 v',
    PushBack (E:=Empty_set) false (vector_of [1] 2) (Copied 5) = Normal tr v1 tt ∧
    PopBack (E:=Empty_set) false v1 = Normal [EvDestroy 5] v' tt ∧
    represents v' [1] ∧ Capacity v' = Capacity v1 ∧
    (Nat.lt (Size (vector_of [1] 2)) (Capacity (vector_of [1] 2)) → v' = vector_of [1] 2).
Proof.
  assert (represents (vector_of [1] 2) [1]) as Hrep by (repeat split; simpl; lia).
  assert (Size (vector_of [1] 2) = Capacity (vector_of [1] 2) →
          Forall (λ y, transfer_throws y = None) [1]) as Hok by (intros _; repeat constructor).
  split; [exact Hrep|]. split; [reflexivity|]. split; [exact Hok|].
  exact (PushBack_then_PopBack (E:=Empty_set) false _ _ (Copied 5) 5 Hrep eq_refl Hok).
Defined.

(** operator[] with index 1 on the vector 1, 2 *)
Lemma Vector_index_checks_bounds_witness :
  represents (vector_of [1; 2] 2) [1; 2] ∧
  Nat.lt 1 (length ([1; 2]%Z : list Z)) ∧
  Vector_index (E:=Empty_set) false (vector_of [1; 2] 2) 1 (λ p, Normal [] tt p)
  = Normal [] tt 1 ∧
  read (buffer_ (data_ (vector_of [1; 2] 2))) 1 = Some 2.
Proof.
  assert (represents (vector_of [1; 2] 2) [1; 2]) as Hrep by (repeat split; simpl; lia).
  assert (Nat.lt 1 (length ([1; 2]%Z : list Z))) as Hi by (simpl; lia).
  split; [exact Hrep|]. split; [exact Hi|].
  exact (proj1 (Vector_index_checks_bounds (E:=Empty_set) false _ _ 1%nat
                  (λ p, Normal [] tt p) Hrep) Hi).
Defined.

(** PushBack(3) and EmplaceBack(3) on the full vector 1, 2 *)
Lemma PushBack_is_EmplaceBack_witness :
  size_within_capacity (vector_of [1; 2] 2) ∧
  PushBack (E:=Empty_set) false (vector_of [1; 2] 2) (Copied 3)
  = do (v', _) <- EmplaceBack false (vector_of [1; 2] 2) (Copied 3); Normal [] v' tt.
Proof.
  assert (size_within_capacity (vector_of [1; 2] 2)) as Hv
    by (unfold size_within_capacity; simpl; lia).
  split; [exact Hv|].
  exact (PushBack_is_EmplaceBack (E:=Empty_set) false _ (Copied 3) Hv).
Defined.

(** PushBack(2) and PushBack(3) on the vector 1 of capacity 4 *)
Lemma push_all_within_capacity_witness :
  represents (vector_of [1] 4) [1] ∧
  Forall2 (λ value y, construct_from value = inr y) [Copied 2; Emplaced 3] [2; 3] ∧
  Nat.le (length ([1]%Z : list Z) + length [Copied (Args:=Z) 2; Emplaced 3])
    (Capacity (vector_of [1] 4)) ∧
  ∃ v', push_all (E:=Empty_set) false (vector_of [1] 4) [Copied 2; Emplaced 3]
        = Normal [EvCopyCtor 2; EvConstruct 3] v' tt ∧
        represents v' [1; 2; 3] ∧ Capacity v' = 4%nat.
Proof.
  assert (represents (vector_of [1] 4) [1]) as Hrep by (repeat split; simpl; lia).
  assert (Forall2 (λ value y, construct_from value = inr y) [Copied 2; Emplaced 3] [2; 3])
    as Hvals by (repeat constructor).
  assert (Nat.le (length ([1]%Z : list Z) + length [Copied (Args:=Z) 2; Emplaced 3])
            (Capacity (vector_of [1] 4))) as Hfit by (vm_compute; lia).
  split; [exact Hrep|]. split; [exact Hvals|]. split; [exact Hfit|].
  exact (push_all_within_capacity (E:=Empty_set) false _ _ _ _ Hrep Hvals Hfit).
Defined.

(** Reserve(5) on the full vector 1, 2 *)
Lemma Reserve_transfers_in_order_witness :
  represents (vector_of [1; 2] 2) [1; 2] ∧
  Nat.lt (Capacity (vector_of [1; 2] 2)) 5 ∧
  allocatable 5 ∧
  Forall (λ y, transfer_throws y = None) [1; 2] ∧
  Reserve (E:=Empty_set) (vector_of [1; 2] 2) 5
  = Normal [EvAllocate 5; EvMoveCtor 1; EvMoveCtor 2; EvDestroy 1; EvDestroy 2; EvDeallocate 2]
      (vector_of [1; 2] 5) tt.
Proof.
  assert (represents (vector_of [1; 2] 2) [1; 2]) as Hrep by (repeat split; simpl; lia).
  assert (Nat.lt (Capacity (vector_of [1; 2] 2)) 5) as Hlt by (vm_compute; lia).
  assert (allocatable 5) as Halloc by (vm_compute; reflexivity).
  assert (Forall (λ y, transfer_throws y = None) [1; 2]) as Hok by (repeat constructor).
  split; [exact Hrep|]. split; [exact Hlt|]. split; [exact Halloc|]. split; [exact Hok|].
  exact (Reserve_transfers_in_order (E:=Empty_set) _ _ 5%nat Hrep Hlt Halloc Hok).
Defined.

(** Emplace(9) at position 1 of the full vector 1, 2, then Erase at the iterator returned *)
Lemma Emplace_then_Erase_witness :
  represents (vector_of [1; 2] 2) ([1] ++ [2]) ∧
  construct_from (Emplaced 9) = inr 9 ∧
  (Size (vector_of [1; 2] 2) = Capacity (vector_of [1; 2] 2) →
   Forall (λ y, transfer_throws y = None) ([1] ++ [2])) ∧
  (Nat.lt (Size (vector_of [1; 2] 2)) (Capacity (vector_of [1; 2] 2)) →
   ([2] : list Z) ≠ [] ∧ (∀ a : Z, move_throws a = None)) ∧
  (∀ a b : Z, move_assign_throws a b = None) ∧
  ∃ tr1 v1 it tr2 v2,
    Emplace (E:=Empty_set) false (vector_of [1; 2] 2) 1 (Emplaced 9) = Normal tr1 v1 it ∧
    Erase (E:=Empty_set) false v1 it = Normal tr2 v2 it ∧
    represents v2 [1; 2] ∧ Size v2 = 2%nat.
Proof.
  assert (represents (vector_of [1; 2] 2) ([1] ++ [2])) as Hrep by (repeat split; simpl; lia).
  assert (Size (vector_of [1; 2] 2) = Capacity (vector_of [1; 2] 2) →
          Forall (λ y, transfer_throws y = None) ([1] ++ [2])) as Hfull
    by (intros _; repeat constructor).
  assert (Nat.lt (Size (vector_of [1; 2] 2)) (Capacity (vector_of [1; 2] 2)) →
          ([2] : list Z) ≠ [] ∧ (∀ a : Z, move_throws a = None)) as Hspare
    by (intros _; split; [discriminate|reflexivity]).
  assert (∀ a b : Z, move_assign_throws a b = None) as Hok by reflexivity.
  split; [exact Hrep|]. split; [reflexivity|]. split; [exact Hfull|].
  split; [exact Hspare|]. split; [exact Hok|].
  exact (Emplace_then_Erase (E:=Empty_set) false _ [1] [2] (Emplaced 9) 9
           Hrep eq_refl Hfull Hspare Hok).
Defined.

(** Emplace(9) at position 1 of the vector 1, 2, 3 of capacity 4 *)
Lemma Emplace_in_place_operations_witness :
  represents (vector_of [1; 2; 3] 4) ([1] ++ [2] ++ [3]) ∧
  Nat.lt (Size (vector_of [1; 2; 3] 4)) (Capacity (vector_of [1; 2; 3] 4)) ∧
  construct_from (Emplaced 9) = inr 9 ∧
  move_throws 3 = None ∧
  (∀ a b : Z, move_assign_throws a b = None) ∧
  ∃ v',
    Emplace (E:=Empty_set) false (vector_of [1; 2; 3] 4) 1 (Emplaced 9)
    = Normal [EvConstruct 9; EvMoveCtor 3; EvMoveAssign 2; EvMoveAssign 9; EvDestroy 9] v' 1 ∧
    represents v' [1; 9; 2; 3] ∧ Capacity v' = 4%nat.
Proof.
  assert (represents (vector_of [1; 2; 3] 4) ([1] ++ [2] ++ [3])) as Hrep
    by (repeat split; simpl; lia).
  assert (Nat.lt (Size (vector_of [1; 2; 3] 4)) (Capacity (vector_of [1; 2; 3] 4))) as Hlt
    by (vm_compute; lia).
  assert (∀ a b : Z, move_assign_throws a b = None) as Hok by reflexivity.
  split; [exact Hrep|]. split; [exact Hlt|]. split; [reflexivity|]. split; [reflexivity|].
  split; [exact Hok|].
  exact (Emplace_in_place_operations (E:=Empty_set) false _ [1] [2] 3 (Emplaced 9) 9
           Hrep Hlt eq_refl eq_refl Hok).
Defined.

(** Emplace(9) at position 1 of the full vector 1, 2 *)
Lemma Emplace_inserts_before_pos_witness :
  represents (vector_of [1; 2] 2) ([1] ++ [2]) ∧
  construct_from (Emplaced 9) = inr 9 ∧
  (Size (vector_of [1; 2] 2) = Capacity (vector_of [1; 2] 2) →
   Forall (λ y, transfer_throws y = None) ([1] ++ [2])) ∧
  (Nat.lt (Size (vector_of [1; 2] 2)) (Capacity (vector_of [1; 2] 2)) →
   ([2] : list Z) ≠ [] ∧ (∀ a : Z, move_throws a = None) ∧
   (∀ a b : Z, move_assign_throws a b = None)) ∧
  ∃ tr v' it,
    Emplace (E:=Empty_set) false (vector_of [1; 2] 2) 1 (Emplaced 9) = Normal tr v' it ∧
    it = 1 ∧ read (buffer_ (data_ v')) it = Some 9 ∧
    Size v' = 3%nat ∧ represents v' [1; 9; 2].
Proof.
  assert (represents (vector_of [1; 2] 2) ([1] ++ [2])) as Hrep by (repeat split; simpl; lia).
  assert (Size (vector_of [1; 2] 2) = Capacity (vector_of [1; 2] 2) →
          Forall (λ y, transfer_throws y = None) ([1] ++ [2])) as Hfull
    by (intros _; repeat constructor).
  assert (Nat.lt (Size (vector_of [1; 2] 2)) (Capacity (vector_of [1; 2] 2)) →
          ([2] : list Z) ≠ [] ∧ (∀ a : Z, move_throws a = None) ∧
          (∀ a b : Z, move_assign_throws a b = None)) as Hspare
    by (intros _; split; [discriminate|split; reflexivity]).
  split; [exact Hrep|]. split; [reflexivity|]. split; [exact Hfull|]. split; [exact Hspare|].
  exact (Emplace_inserts_before_pos (E:=Empty_set) false _ [1] [2] (Emplaced 9) 9
           Hrep eq_refl Hfull Hspare).
Defined.

(** Emplace(9) at end() of the vector 1 of capacity 2 *)
Lemma Emplace_at_end_in_place_witness :
  represents (vector_of [1] 2) [1] ∧
  Nat.lt (Size (vector_of [1] 2)) (Capacity (vector_of [1] 2)) ∧
  construct_from (Emplaced 9) = inr 9 ∧
  (∀ a : Z, move_throws a = None) ∧
  Emplace (E:=Empty_set) false (vector_of [1] 2) 1 (Emplaced 9) = Undefined.
Proof.
  assert (represents (vector_of [1] 2) [1]) as Hrep by (repeat split; simpl; lia).
  assert (Nat.lt (Size (vector_of [1] 2)) (Capacity (vector_of [1] 2))) as Hlt
    by (vm_compute; lia).
  assert (∀ a : Z, move_throws a = None) as Hok by reflexivity.
  split; [exact Hrep|]. split; [exact Hlt|]. split; [reflexivity|]. split; [exact Hok|].
  exact (Emplace_at_end_in_place (E:=Empty_set) false _ _ (Emplaced 9) 9 Hrep Hlt eq_refl Hok).
Defined.

(** PushBack(3), EmplaceBack(3) and Reserve(5) on the full vector 1, 2 *)
Lemma append_and_reserve_defined_witness :
  represents (vector_of [1; 2] 2) [1; 2] ∧
  allocatable 5 ∧
  defined (PushBack (E:=Empty_set) false (vector_of [1; 2] 2) (Copied 3)) ∧
  defined (EmplaceBack (E:=Empty_set) false (vector_of [1; 2] 2) (Copied 3)) ∧
  defined (Reserve (E:=Empty_set) (vector_of [1; 2] 2) 5).
Proof.
  assert (represents (vector_of [1; 2] 2) [1; 2]) as Hrep by (repeat split; simpl; lia).
  assert (allocatable 5) as Halloc by (vm_compute; reflexivity).
  split; [exact Hrep|]. split; [exact Halloc|].
  destruct (append_and_reserve_defined (E:=Empty_set) false _ _ (Copied 3) 5%nat Hrep)
    as (Hpush & Hemplace & Hreserve).
  exact (conj Hpush (conj Hemplace (Hreserve Halloc))).
Defined.

(** Emplace(9) at end() and EmplaceBack(9) on the full vector 1, 2 *)
Lemma Emplace_at_end_is_EmplaceBack_witness :
  represents (vector_of [1; 2] 2) [1; 2] ∧
  Size (vector_of [1; 2] 2) = Capacity (vector_of [1; 2] 2) ∧
  construct_from (Emplaced 9) = inr 9 ∧
  Forall (λ y, transfer_throws y = None) [1; 2] ∧
  Emplace (E:=Empty_set) false (vector_of [1; 2] 2) 2 (Emplaced 9)
  = EmplaceBack false (vector_of [1; 2] 2) (Emplaced 9).
Proof.
  assert (represents (vector_of [1; 2] 2) [1; 2]) as Hrep by (repeat split; simpl; lia).
  assert (Forall (λ y, transfer_throws y = None) [1; 2]) as Hok by (repeat constructor).
  split; [exact Hrep|]. split; [reflexivity|]. split; [reflexivity|]. split; [exact Hok|].
  exact (Emplace_at_end_is_EmplaceBack (E:=Empty_set) false _ _ (Emplaced 9) 9
           Hrep eq_refl eq_refl Hok).
Defined.

(** a = b on the vector a holding 1 at address 0 and b holding 2, 3 at address 1 *)
Lemma operator_assign_copies_witness :
  ({[0%nat := vector_of [1] 1; 1%nat := vector_of [2; 3] 2]} : gmap nat Vector) !! 0%nat
  = Some (vector_of [1] 1) ∧
  ({[0%nat := vector_of [1] 1; 1%nat := vector_of [2; 3] 2]} : gmap nat Vector) !! 1%nat
  = Some (vector_of [2; 3] 2) ∧
  represents (vector_of [1] 1) [1] ∧
  represents (vector_of [2; 3] 2) [2; 3] ∧
  (∀ p q : Z, copy_assign_throws p q = None) ∧
  Forall (λ y, copy_throws y = None) [2; 3] ∧
  ∃ tr va',
    operator_assign (E:=Empty_set) false
      {[0%nat := vector_of [1] 1; 1%nat := vector_of [2; 3] 2]} 0 1
    = Normal tr (<[0%nat := va']> {[0%nat := vector_of [1] 1; 1%nat := vector_of [2; 3] 2]}) tt ∧
    represents va' [2; 3].
Proof.
  assert (({[0%nat := vector_of [1] 1; 1%nat := vector_of [2; 3] 2]} : gmap nat Vector) !! 0%nat
          = Some (vector_of [1] 1)) as Ha by (vm_compute; reflexivity).
  assert (({[0%nat := vector_of [1] 1; 1%nat := vector_of [2; 3] 2]} : gmap nat Vector) !! 1%nat
          = Some (vector_of [2; 3] 2)) as Hb by (vm_compute; reflexivity).
  assert (represents (vector_of [1] 1) [1]) as Hxs by (repeat split; simpl; lia).
  assert (represents (vector_of [2; 3] 2) [2; 3]) as Hys by (repeat split; simpl; lia).
  assert (∀ p q : Z, copy_assign_throws p q = None) as Hok by reflexivity.
  assert (Forall (λ y, copy_throws y = None) [2; 3]) as Hcopy by (repeat constructor).
  split; [exact Ha|]. split; [exact Hb|]. split; [exact Hxs|]. split; [exact Hys|].
  split; [exact Hok|]. split; [exact Hcopy|].
  destruct (operator_assign_copies (E:=Empty_set) false _ 0%nat 1%nat _ _ _ _
              Ha Hb Hxs Hys Hok Hcopy) as (tr & va' & Hassign & Hrep & _).
  exact (ex_intro _ tr (ex_intro _ va' (conj Hassign Hrep))).
Defined.

(** a request that is not allocatable: for int, 2^62 + 1 slots make a byte
    count that wraps to 4 *)
Lemma request_wraps :
  ¬ allocatable (Z.to_nat (2 ^ 62 + 1)) ∧
  (Z.of_nat (Z.to_nat (2 ^ 62 + 1)) * Z.pos sizeof) `mod` 2 ^ 64 = 4.
Proof.
  unfold allocatable. rewrite Z2Nat.id by lia.
  change (Z.pos sizeof) with 4. split; [lia|reflexivity].
Qed.

End IntVectors.

Section FragileVectors.
Import Fragile.
Local Open Scope Z_scope.

(** C3 at the input where the code fails: the vector holds 4, 13 and is
    full; Emplace at position 1 transfers the suffix 13 into the new buffer,
    the copy constructor throws 2 there, and Emplace returns as if nothing
    had happened: the exception is swallowed, and the vector is left with
    size 3 over a buffer whose only live object is the new element.  The
    same exception does escape from PushBack and from Reserve. *)
Theorem Emplace_swallows_transfer_exception (NDEBUG : bool) :
  UninitializedMoveOrCopy [Some 4; Some 13] 1 1 [Some 4; Some 5; None; None] 2
  = Raised [] ([Some 4; Some 13], [Some 4; Some 5; None; None]) 2%nat ∧
  Emplace NDEBUG (vector_of [4; 13] 2) (begin (vector_of [4; 13] 2) + 1) (Emplaced 5)
  = Normal [EvAllocate 4; EvConstruct 5; EvCopyCtor 4; EvDestroy 4; EvDestroy 4; EvDestroy 13;
            EvDeallocate 2]
      {| data_ := {| buffer_ := [None; Some 5; None; None]; capacity_ := 4 |}; size_ := 3 |} 1 ∧
  PushBack NDEBUG (vector_of [4; 13] 2) (Emplaced 5)
  = Raised [EvAllocate 4; EvConstruct 5; EvCopyCtor 4; EvDestroy 4; EvDeallocate 4]
      (vector_of [4; 13] 2) 2%nat ∧
  Reserve (vector_of [4; 13] 2) 5
  = Raised [EvAllocate 5; EvCopyCtor 4; EvDestroy 4; EvDeallocate 5] (vector_of [4; 13] 2) 2%nat.
Proof. destruct NDEBUG; repeat split; vm_compute; reflexivity. Qed.

(** PushBack and EmplaceBack of an element whose constructor throws, on the full vector 1 *)
Lemma growing_append_constructs_first_witness :
  Size (vector_of [1] 1) = Capacity (vector_of [1] 1) ∧
  construct_from (Emplaced (-5)) = inl 1%nat ∧
  PushBack false (vector_of [1] 1) (Emplaced (-5))
  = Raised [EvAllocate 2; EvDeallocate 2] (vector_of [1] 1) 1%nat ∧
  EmplaceBack false (vector_of [1] 1) (Emplaced (-5))
  = Raised [EvAllocate 2; EvDeallocate 2] (vector_of [1] 1) 1%nat.
Proof.
  split; [reflexivity|]. split; [reflexivity|].
  exact (proj1 (growing_append_constructs_first false (vector_of [1] 1) (Emplaced (-5)) eq_refl)
           1%nat eq_refl).
Defined.

(** the copy of the vector 4, 13: the copy of 13 throws *)
Lemma Vector_copy_throws_witness :
  represents (vector_of [4; 13] 2) ([4] ++ 13 :: []) ∧
  Forall (λ x, copy_throws x = None) [4] ∧
  copy_throws 13 = Some 2%nat ∧
  Vector_copy (vector_of [4; 13] 2)
  = Raised [EvAllocate 2; EvCopyCtor 4; EvDestroy 4; EvDeallocate 2] tt 2%nat.
Proof.
  assert (represents (vector_of [4; 13] 2) ([4] ++ 13 :: [])) as Hrep
    by (repeat split; simpl; lia).
  assert (Forall (λ x, copy_throws x = None) [4]) as Hok by (repeat constructor).
  split; [exact Hrep|]. split; [exact Hok|]. split; [reflexivity|].
  exact (Vector_copy_throws _ [4] [] 13 2%nat Hrep Hok eq_refl).
Defined.

(** the full vector 1 is assigned the vector 4, 13 *)
Lemma copy_assign_throw_keeps_target_witness :
  represents (vector_of [1] 1) [1] ∧
  represents (vector_of [4; 13] 2) ([4] ++ 13 :: []) ∧
  Nat.lt (Capacity (vector_of [1] 1)) (length ([4]%Z ++ 13 :: [] : list Z)) ∧
  Forall (λ y, copy_throws y = None) [4] ∧
  copy_throws 13 = Some 2%nat ∧
  copy_assign false (vector_of [1] 1) (vector_of [4; 13] 2)
  = Raised [EvAllocate 2; EvCopyCtor 4; EvDestroy 4; EvDeallocate 2] (vector_of [1] 1) 2%nat.
Proof.
  assert (represents (vector_of [1] 1) [1]) as Hthis by (repeat split; simpl; lia).
  assert (represents (vector_of [4; 13] 2) ([4] ++ 13 :: [])) as Hrhs
    by (repeat split; simpl; lia).
  assert (Nat.lt (Capacity (vector_of [1] 1)) (length ([4]%Z ++ 13 :: [] : list Z))) as Hfit
    by (vm_compute; lia).
  assert (Forall (λ y, copy_throws y = None) [4]) as Hok by (repeat constructor).
  split; [exact Hthis|]. split; [exact Hrhs|]. split; [exact Hfit|]. split; [exact Hok|].
  split; [reflexivity|].
  exact (copy_assign_throw_keeps_target false _ _ [1] [4] [] 13 2%nat
           Hthis Hrhs Hfit Hok eq_refl).
Defined.

(** Reserve(5) on the full vector 4, 13 *)
Lemma Reserve_transfer_throws_witness :
  represents (vector_of [4; 13] 2) ([4] ++ 13 :: []) ∧
  Nat.lt (Capacity (vector_of [4; 13] 2)) 5 ∧
  allocatable 5 ∧
  Forall (λ y, transfer_throws y = None) [4] ∧
  transfer_throws 13 = Some 2%nat ∧
  ∃ v',
    Reserve (vector_of [4; 13] 2) 5
    = Raised [EvAllocate 5; EvCopyCtor 4; EvDestroy 4; EvDeallocate 5] v' 2%nat ∧
    represents v' [4; 13] ∧ Capacity v' = 2%nat ∧
    (uses_move = false → v' = vector_of [4; 13] 2).
Proof.
  assert (represents (vector_of [4; 13] 2) ([4] ++ 13 :: [])) as Hrep
    by (repeat split; simpl; lia).
  assert (Nat.lt (Capacity (vector_of [4; 13] 2)) 5) as Hlt by (vm_compute; lia).
  assert (allocatable 5) as Halloc by (vm_compute; reflexivity).
  assert (Forall (λ y, transfer_throws y = None) [4]) as Hok by (repeat constructor).
  split; [exact Hrep|]. split; [exact Hlt|]. split; [exact Halloc|]. split; [exact Hok|].
  split; [reflexivity|].
  exact (Reserve_transfer_throws _ [4] [] 13 2%nat 5%nat Hrep Hlt Halloc Hok eq_refl).
Defined.

(** PushBack(5) and EmplaceBack(5) on the full vector 4, 13 *)
Lemma append_transfer_throws_witness :
  represents (vector_of [4; 13] 2) ([4] ++ 13 :: []) ∧
  Size (vector_of [4; 13] 2) = Capacity (vector_of [4; 13] 2) ∧
  construct_from (Emplaced 5) = inr 5 ∧
  Forall (λ y, transfer_throws y = None) [4] ∧
  transfer_throws 13 = Some 2%nat ∧
  ∃ v',
    PushBack false (vector_of [4; 13] 2) (Emplaced 5)
    = Raised [EvAllocate 4; EvConstruct 5; EvCopyCtor 4; EvDestroy 4; EvDeallocate 4] v' 2%nat ∧
    EmplaceBack false (vector_of [4; 13] 2) (Emplaced 5)
    = Raised [EvAllocate 4; EvConstruct 5; EvCopyCtor 4; EvDestroy 4; EvDeallocate 4] v' 2%nat ∧
    represents v' [4; 13] ∧ Capacity v' = 2%nat ∧
    (uses_move = false → v' = vector_of [4; 13] 2).
Proof.
  assert (represents (vector_of [4; 13] 2) ([4] ++ 13 :: [])) as Hrep
    by (repeat split; simpl; lia).
  assert (Forall (λ y, transfer_throws y = None) [4]) as Hok by (repeat constructor).
  split; [exact Hrep|]. split; [reflexivity|]. split; [reflexivity|]. split; [exact Hok|].
  split; [reflexivity|].
  exact (append_transfer_throws false _ [4] [] 13 2%nat (Emplaced 5) 5
           Hrep eq_refl eq_refl Hok eq_refl).
Defined.

(** Emplace(-5) at position 1 of the full vector 4, 13: the constructor throws 1 *)
Lemma Emplace_constructor_throws_witness :
  represents (vector_of [4; 13] 2) [4; 13] ∧
  Nat.le 1 (length ([4; 13]%Z : list Z)) ∧
  construct_from (Emplaced (-5)) = inl 1%nat ∧
  Emplace false (vector_of [4; 13] 2) 1 (Emplaced (-5))
  = Raised [EvAllocate 4; EvDeallocate 4] (vector_of [4; 13] 2) 1%nat.
Proof.
  assert (represents (vector_of [4; 13] 2) [4; 13]) as Hrep by (repeat split; simpl; lia).
  assert (Nat.le 1 (length ([4; 13]%Z : list Z))) as Hi by (simpl; lia).
  split; [exact Hrep|]. split; [exact Hi|]. split; [reflexivity|].
  exact (Emplace_constructor_throws false _ _ 1%nat (Emplaced (-5)) 1%nat Hrep Hi eq_refl).
Defined.

(** Emplace(5) at position 2 of the full vector 4, 13, 6: the transfer of 13 throws *)
Lemma Emplace_prefix_transfer_throws_witness :
  represents (vector_of [4; 13; 6] 3) (([4] ++ 13 :: []) ++ [6]) ∧
  Size (vector_of [4; 13; 6] 3) = Capacity (vector_of [4; 13; 6] 3) ∧
  construct_from (Emplaced 5) = inr 5 ∧
  Forall (λ y, transfer_throws y = None) [4] ∧
  transfer_throws 13 = Some 2%nat ∧
  ∃ v',
    Emplace false (vector_of [4; 13; 6] 3) 2 (Emplaced 5)
    = Raised [EvAllocate 6; EvConstruct 5; EvCopyCtor 4; EvDestroy 4; EvDestroy 5;
              EvDeallocate 6] v' 2%nat ∧
    represents v' [4; 13; 6] ∧ Capacity v' = 3%nat ∧
    (uses_move = false → v' = vector_of [4; 13; 6] 3).
Proof.
  assert (represents (vector_of [4; 13; 6] 3) (([4] ++ 13 :: []) ++ [6])) as Hrep
    by (repeat split; simpl; lia).
  assert (Forall (λ y, transfer_throws y = None) [4]) as Hok by (repeat constructor).
  split; [exact Hrep|]. split; [reflexivity|]. split; [reflexivity|]. split; [exact Hok|].
  split; [reflexivity|].
  exact (Emplace_prefix_transfer_throws false _ [4] [] [6] 13 2%nat (Emplaced 5) 5
           Hrep eq_refl eq_refl Hok eq_refl).
Defined.

(** Emplace(5) at position 1 of the full vector 4, 13, 6: the transfer of 13 throws
    in the second transfer *)
Lemma Emplace_realloc_swallows_witness :
  construct_from (Emplaced 5) = inr 5 ∧
  Forall (λ y, transfer_throws y = None) ([4] ++ []) ∧
  transfer_throws 13 = Some 2%nat ∧
  ∃ tr,
    Emplace false (vector_of [4; 13; 6] 3) 1 (Emplaced 5)
    = Normal tr
        {| data_ := {| buffer_ := [None; Some 5; None; None; None; None]; capacity_ := 6 |};
           size_ := 4 |} 1.
Proof.
  assert (Forall (λ y, transfer_throws y = None) ([4] ++ [])) as Hok by (repeat constructor).
  split; [reflexivity|]. split; [exact Hok|]. split; [reflexivity|].
  exact (Emplace_realloc_swallows false [4] [] 13 [6] 2%nat (Emplaced 5) 5 eq_refl Hok eq_refl).
Defined.

End FragileVectors.

Section NoDefaultVectors.
Import NoDefault.
Local Open Scope Z_scope.

(** Resize(3) on the full vector 1 of a type whose default constructor throws *)
Lemma Resize_constructor_throws_witness :
  represents (vector_of [1] 1) [1] ∧
  Nat.lt (length ([1]%Z : list Z)) 3 ∧
  value_init = inl 3%nat ∧
  (Nat.lt (Capacity (vector_of [1] 1)) 3 → allocatable 3) ∧
  (Nat.lt (Capacity (vector_of [1] 1)) 3 → Forall (λ y, transfer_throws y = None) [1]) ∧
  ∃ tr v', Resize false (vector_of [1] 1) 3 = Raised tr v' 3%nat ∧
           Reserve (vector_of [1] 1) 3 = Normal tr v' tt ∧
           represents v' [1] ∧ Capacity v' = 3%nat.
Proof.
  assert (represents (vector_of [1] 1) [1]) as Hrep by (repeat split; simpl; lia).
  assert (Nat.lt (length ([1]%Z : list Z)) 3) as Hn by (simpl; lia).
  assert (Nat.lt (Capacity (vector_of [1] 1)) 3 → Forall (λ y, transfer_throws y = None) [1])
    as Hok by (intros _; repeat constructor).
  assert (Nat.lt (Capacity (vector_of [1] 1)) 3 → allocatable 3) as Halloc
    by (intros _; vm_compute; reflexivity).
  split; [exact Hrep|]. split; [exact Hn|]. split; [reflexivity|]. split; [exact Halloc|].
  split; [exact Hok|].
  exact (Resize_constructor_throws false _ _ 3%nat 3%nat Hrep Hn eq_refl Halloc Hok).
Defined.

End NoDefaultVectors.
